(** * The CDP client of electron-native-mcp

    A shallow embedding of [src/lib/cdp-client.ts] (class [CDPClient]), of the
    error classes of [src/types/index.ts] and of [ensureConnected] from
    [src/tools/dom/index.ts].

    The chrome-remote-interface library is the environment.  Every call the
    code makes to it is appended to a log, and the result the library gives
    (a promise that is fulfilled with a value or rejected with an error) is an
    argument of the operation that awaits it, so a statement "for every run"
    quantifies over these arguments. *)

From stdpp Require Import gmap strings list fin_maps pretty.
From Stdlib Require Import ZArith.

#[local] Open Scope string_scope.
#[local] Open Scope list_scope.
#[local] Open Scope nat_scope.

(** ** Errors ([src/types/index.ts]) *)

Inductive detail :=
| DString (s : string)
| DNumber (n : Z).

(** A thrown JavaScript error.  [name] is the class of the error as the
    constructors below set it, [code] and [details] are the two fields that
    [ElectronMCPError] adds to [Error]. *)
Record js_error := {
  name : string;
  message : string;
  code : option string;
  details : option (list (string * detail))
}.

Definition Error (msg : string) : js_error :=
  {| name := "Error"; message := msg; code := None; details := None |}.

Definition ElectronMCPError (msg code : string)
    (ds : option (list (string * detail))) : js_error :=
  {| name := "ElectronMCPError"; message := msg; code := Some code;
     details := ds |}.

Definition CDPError (msg : string) (ds : option (list (string * detail)))
    : js_error :=
  let super := ElectronMCPError msg "CDP_ERROR" ds in
  {| name := "CDPError"; message := message super; code := code super;
     details := details super |}.

(** How a promise settles. *)
Inductive outcome (A : Type) :=
| Fulfilled (a : A)
| Rejected (e : js_error).
Arguments Fulfilled {A} a.
Arguments Rejected {A} e.

(** ** The library calls *)

(** A protocol client as [CDP(...)] returns it: one open channel. *)
Definition chan := nat.

Inductive domain := DOM | Runtime | Page | Network.

Inductive image_format := png | jpeg.

Inductive method :=
| enable (d : domain)
| DOM_getDocument (depth : option Z)
| DOM_querySelector (nodeId : Z) (selector : string)
| DOM_querySelectorAll (nodeId : Z) (selector : string)
| DOM_getAttributes (nodeId : Z)
| DOM_getOuterHTML (nodeId : Z)
| Runtime_evaluate (expression : string) (returnByValue awaitPromise : bool)
| Page_captureScreenshot (format : image_format) (quality : option Z)
| close.

Inductive call :=
| CDP_List (host : string) (port : Z)
| CDP_new (host : string) (port : Z) (target : string)
| Send (client : chan) (m : method).

#[global] Instance domain_eq_dec : EqDecision domain.
Proof. solve_decision. Defined.
#[global] Instance image_format_eq_dec : EqDecision image_format.
Proof. solve_decision. Defined.
#[global] Instance method_eq_dec : EqDecision method.
Proof. solve_decision. Defined.
#[global] Instance call_eq_dec : EqDecision call.
Proof. solve_decision. Defined.

(** ** State *)

Record CDPConnection := {
  targetId : string;
  client : chan;
  connected : bool
}.

(** Connection objects live in a store and the map holds references to them:
    [disconnect] writes the [connected] field of the object it holds and then
    removes the key. *)
Definition ref := nat.

Record CDPClient := {
  connections : gmap string ref;
  host : string;
  port : Z
}.

Definition new_CDPClient (host : string) (port : Z) : CDPClient :=
  {| connections := ∅; host := host; port := port |}.

Record state := {
  this : CDPClient;
  objects : gmap ref CDPConnection;
  calls : list call
}.

Definition initial : state :=
  {| this := new_CDPClient "localhost" 9222; objects := ∅; calls := [] |}.

Definition issue (c : call) (st : state) : state :=
  {| this := this st; objects := objects st; calls := calls st ++ [c] |}.

Definition issue_all (cs : list call) (st : state) : state :=
  {| this := this st; objects := objects st; calls := calls st ++ cs |}.

(** [this.connections.get(targetId)], followed through the reference. *)
Definition connections_get (targetId : string) (st : state)
    : option (ref * CDPConnection) :=
  r ← connections (this st) !! targetId;
  o ← objects st !! r;
  Some (r, o).

(** [this.connections.set(targetId, {targetId, client, connected: true})]:
    the object literal is a new object. *)
Definition connections_set (targetId : string) (o : CDPConnection)
    (st : state) : state :=
  let r := fresh (dom (objects st)) in
  {| this := {| connections := <[targetId := r]> (connections (this st));
                host := host (this st); port := port (this st) |};
     objects := <[r := o]> (objects st);
     calls := calls st |}.

Definition connections_delete (targetId : string) (st : state) : state :=
  {| this := {| connections := delete targetId (connections (this st));
                host := host (this st); port := port (this st) |};
     objects := objects st;
     calls := calls st |}.

(** [connection.connected = false] on the object behind [r]. *)
Definition set_connected_false (r : ref) (st : state) : state :=
  {| this := this st;
     objects := alter (λ o, {| targetId := targetId o; client := client o;
                               connected := false |}) r (objects st);
     calls := calls st |}.

(** ** connect (cdp-client.ts, 46-81) *)

(** [Promise.all]: fulfilled when every promise is, rejected as soon as one
    is.  The promises are taken in array order; which rejection is reported
    when several reject is a matter of timing that no statement below depends
    on. *)
Fixpoint Promise_all {A} (ps : list (outcome A)) : outcome (list A) :=
  match ps with
  | [] => Fulfilled []
  | Rejected e :: _ => Rejected e
  | Fulfilled a :: ps =>
      match Promise_all ps with
      | Fulfilled l => Fulfilled (a :: l)
      | Rejected e => Rejected e
      end
  end.

(** The results of the four [enable] calls. *)
Record enabled := {
  DOM_enable : outcome unit;
  Runtime_enable : outcome unit;
  Page_enable : outcome unit;
  Network_enable : outcome unit
}.

Definition enable_promises (en : enabled) : list (outcome unit) :=
  [DOM_enable en; Runtime_enable en; Page_enable en; Network_enable en].

Definition enable_calls (client : chan) : list call :=
  [Send client (enable DOM); Send client (enable Runtime);
   Send client (enable Page); Send client (enable Network)].

(** The [catch] clause of [connect]. *)
Definition connect_catch (targetId : string) (error : js_error) : js_error :=
  CDPError ("Failed to connect to target " +:+ targetId)
           (Some [("originalError", DString (message error))]).

(** From the call to the first [await]: the check of the map and, when there
    is no connected entry, the call of [CDP].  [inl] is a promise that has
    settled, [inr] a suspension. *)
Definition connect_call (targetId : string) (st : state)
    : (outcome unit + unit) * state :=
  match connections_get targetId st with
  | Some (_, existing) =>
      if connected existing then (inl (Fulfilled ()), st)
      else (inr (),
            issue (CDP_new (host (this st)) (port (this st)) targetId) st)
  | None =>
      (inr (), issue (CDP_new (host (this st)) (port (this st)) targetId) st)
  end.

(** [CDP(...)] has settled: the four [enable] calls are made. *)
Definition connect_on_client (targetId : string) (opened : outcome chan)
    (st : state) : (outcome unit + chan) * state :=
  match opened with
  | Fulfilled client => (inr client, issue_all (enable_calls client) st)
  | Rejected error => (inl (Rejected (connect_catch targetId error)), st)
  end.

(** [Promise.all] has settled: the entry is written. *)
Definition connect_on_enabled (targetId : string) (client : chan)
    (en : enabled) (st : state) : outcome unit * state :=
  match Promise_all (enable_promises en) with
  | Fulfilled _ =>
      (Fulfilled (),
       connections_set targetId
         {| targetId := targetId; client := client; connected := true |} st)
  | Rejected error => (Rejected (connect_catch targetId error), st)
  end.

(** A [connect] that runs alone, from the call until its promise settles. *)
Definition connect (targetId : string) (opened : outcome chan) (en : enabled)
    (st : state) : outcome unit * state :=
  match connect_call targetId st with
  | (inl o, st) => (o, st)
  | (inr (), st) =>
      match connect_on_client targetId opened st with
      | (inl o, st) => (o, st)
      | (inr client, st) => connect_on_enabled targetId client en st
      end
  end.

(** ** disconnect, disconnectAll (cdp-client.ts, 86-107) *)

Definition disconnect_call (targetId : string) (st : state)
    : (outcome unit + ref * CDPConnection) * state :=
  match connections_get targetId st with
  | Some (r, connection) =>
      if connected connection
      then (inr (r, connection), issue (Send (client connection) close) st)
      else (inl (Fulfilled ()), st)
  | None => (inl (Fulfilled ()), st)
  end.

(** [close()] has settled.  A rejection skips the assignment and is
    swallowed; the key is deleted in both cases. *)
Definition disconnect_on_closed (targetId : string) (r : ref)
    (closed : outcome unit) (st : state) : outcome unit * state :=
  match closed with
  | Fulfilled _ =>
      (Fulfilled (), connections_delete targetId (set_connected_false r st))
  | Rejected _ => (Fulfilled (), connections_delete targetId st)
  end.

Definition disconnect (targetId : string) (closed : outcome unit)
    (st : state) : outcome unit * state :=
  match disconnect_call targetId st with
  | (inl o, st) => (o, st)
  | (inr (r, _), st) => disconnect_on_closed targetId r closed st
  end.

(** [Array.from(this.connections.keys())].  The enumeration order of the
    [Map] (insertion order) is not modelled. *)
Definition connections_keys (st : state) : list string :=
  (map_to_list (connections (this st))).*1.

(** [disconnectAll]: [disconnect] is called on every key, which issues every
    [close] before any has settled; the calls then resume, here in the order
    of the keys.  [closed targetId] is the result of the [close] issued for
    [targetId]. *)
Definition disconnectAll_step (acc : list (string * ref) * state)
    (targetId : string) : list (string * ref) * state :=
  match disconnect_call targetId acc.2 with
  | (inl _, st) => (acc.1, st)
  | (inr (r, _), st) => (acc.1 ++ [(targetId, r)], st)
  end.

Definition disconnectAll_call (st : state) : list (string * ref) * state :=
  foldl disconnectAll_step ([], st) (connections_keys st).

Definition disconnectAll_resume (closed : string → outcome unit)
    (pending : list (string * ref)) (st : state) : state :=
  foldl (λ (st : state) (p : string * ref),
           (disconnect_on_closed p.1 p.2 (closed p.1) st).2)
        st pending.

Definition disconnectAll (closed : string → outcome unit) (st : state)
    : outcome unit * state :=
  let '(pending, st) := disconnectAll_call st in
  (Fulfilled (), disconnectAll_resume closed pending st).

(** ** isConnected, getActiveConnections (cdp-client.ts, 266-278) *)

Definition isConnected (targetId : string) (st : state) : bool :=
  match connections_get targetId st with
  | Some (_, connection) => connected connection
  | None => false
  end.

Definition getActiveConnections (st : state) : list string :=
  omap (λ targetId,
          match connections_get targetId st with
          | Some (_, conn) => if connected conn then Some targetId else None
          | None => None
          end)
       (connections_keys st).

(** ** Session operations (cdp-client.ts, 112-261) *)

(** An operation that runs alone: it reads and writes the state and settles.
    A [throw] in an [async] function is a rejected promise. *)
Definition M (A : Type) : Type := state → outcome A * state.

Definition ret {A} (a : A) : M A := λ st, (Fulfilled a, st).

Definition throw {A} (e : js_error) : M A := λ st, (Rejected e, st).

Definition bind {A B} (m : M A) (k : A → M B) : M B :=
  λ st, match m st with
        | (Fulfilled a, st) => k a st
        | (Rejected e, st) => (Rejected e, st)
        end.

Notation "'let*' x ':=' m 'in' k" := (bind m (λ x, k))
  (at level 10, x pattern, m at level 100, k at level 200).

(** [try { body } catch (error) { throw handler(error) }]. *)
Definition try_catch {A} (body : M A) (handler : js_error → js_error) : M A :=
  λ st, match body st with
        | (Fulfilled a, st) => (Fulfilled a, st)
        | (Rejected error, st) => (Rejected (handler error), st)
        end.

(** [await connection.client.<method>(...)]: the call is logged and the
    promise settles as [reply]. *)
Definition await {A} (c : call) (reply : outcome A) : M A :=
  λ st, (reply, issue c st).

(** The one-character string that holds a double quote. *)
Definition dquote : string := String (Ascii.ascii_of_nat 34) EmptyString.

Definition originalError (error : js_error) : string * detail :=
  ("originalError", DString (message error)).

Definition not_connected (targetId : string) : js_error :=
  CDPError ("Not connected to target " +:+ targetId
            +:+ ". Call connect() first.") None.

(** [if (!connection || !connection.connected) throw ...] *)
Definition getConnection (targetId : string) : M CDPConnection :=
  λ st, match connections_get targetId st with
        | Some (_, connection) =>
            if connected connection then (Fulfilled connection, st)
            else (Rejected (not_connected targetId), st)
        | None => (Rejected (not_connected targetId), st)
        end.

Set Warnings "-register-all".

(** The fields of [DOMNode] that are read; the optional fields of the
    interface other than [children] and [attributes] are left out. *)
Inductive DOMNode := {
  nodeId : Z;
  nodeType : Z;
  nodeName : string;
  children : list DOMNode;
  attributes : option (list string)
}.

Definition getDocument (targetId : string) (reply : outcome DOMNode)
    : M DOMNode :=
  let* connection := getConnection targetId in
  try_catch
    (let* root := await (Send (client connection)
                              (DOM_getDocument (Some (-1)%Z))) reply in
     ret root)
    (λ error, CDPError ("Failed to get document for target " +:+ targetId)
                       (Some [originalError error])).

(** [nodeId || null]: [0] and a missing field are falsy. *)
Definition or_null (nodeId : option Z) : option Z :=
  match nodeId with
  | Some n => if decide (n = 0%Z) then None else Some n
  | None => None
  end.

Definition querySelector (targetId selector : string)
    (document : outcome DOMNode) (reply : outcome (option Z))
    : M (option Z) :=
  let* connection := getConnection targetId in
  try_catch
    (let* root := await (Send (client connection) (DOM_getDocument None))
                        document in
     let* nodeId := await (Send (client connection)
                                (DOM_querySelector (nodeId root) selector))
                          reply in
     ret (or_null nodeId))
    (λ error, CDPError ("Failed to query selector " +:+ dquote +:+ selector
                        +:+ dquote)
                       (Some [originalError error])).

(** [nodeIds || []]: an array, also an empty one, is truthy. *)
Definition or_empty (nodeIds : option (list Z)) : list Z :=
  match nodeIds with
  | Some l => l
  | None => []
  end.

Definition querySelectorAll (targetId selector : string)
    (document : outcome DOMNode) (reply : outcome (option (list Z)))
    : M (list Z) :=
  let* connection := getConnection targetId in
  try_catch
    (let* root := await (Send (client connection) (DOM_getDocument None))
                        document in
     let* nodeIds := await (Send (client connection)
                                 (DOM_querySelectorAll (nodeId root) selector))
                           reply in
     ret (or_empty nodeIds))
    (λ error, CDPError ("Failed to query selector all " +:+ dquote
                        +:+ selector +:+ dquote)
                       (Some [originalError error])).

(** What an index of a string array yields: an element, or [undefined] past
    the end. *)
Inductive attribute_value :=
| value (s : string)
| undefined.

Definition index (attributes : list string) (i : nat) : attribute_value :=
  match attributes !! i with
  | Some s => value s
  | None => undefined
  end.

(** [result[name] = v] on an object that was created by [{}], for [v] a
    string or [undefined].  The object is the dictionary of its own
    properties.  Every name but one becomes an own property, also a name
    that [Object.prototype] has as a method ([toString], [constructor]).
    The exception is [__proto__], the accessor of [Object.prototype]: the
    assignment calls its setter, which does nothing for a value that is
    neither an object nor [null], so no property is created. *)
Definition set_property (name : string) (v : attribute_value)
    (result : gmap string attribute_value) : gmap string attribute_value :=
  if decide (name = "__proto__") then result else <[name := v]> result.

(** [for (let i = 0; i < attributes.length; i += 2)
       result[attributes[i]] = attributes[i + 1];]
    [attributes !! i] is [Some] exactly when [i < attributes.length]. *)
Fixpoint attributes_loop (fuel : nat) (attributes : list string) (i : nat)
    (result : gmap string attribute_value) : gmap string attribute_value :=
  match fuel with
  | O => result
  | S fuel =>
      match attributes !! i with
      | Some name =>
          attributes_loop fuel attributes (i + 2)
            (set_property name (index attributes (i + 1)) result)
      | None => result
      end
  end.

(** The loop runs at most [attributes.length] times. *)
Definition decode_attributes (attributes : list string)
    : gmap string attribute_value :=
  attributes_loop (length attributes) attributes 0 ∅.

Definition getNodeAttributes (targetId : string) (nodeId : Z)
    (reply : outcome (list string)) : M (gmap string attribute_value) :=
  let* connection := getConnection targetId in
  try_catch
    (let* attributes := await (Send (client connection)
                                    (DOM_getAttributes nodeId)) reply in
     ret (decode_attributes attributes))
    (λ error, CDPError ("Failed to get attributes for node " +:+ pretty nodeId)
                       (Some [originalError error])).

Definition getOuterHTML (targetId : string) (nodeId : Z)
    (reply : outcome string) : M string :=
  let* connection := getConnection targetId in
  try_catch
    (let* outerHTML := await (Send (client connection)
                                   (DOM_getOuterHTML nodeId)) reply in
     ret outerHTML)
    (λ error, CDPError ("Failed to get outer HTML for node " +:+ pretty nodeId)
                       (Some [originalError error])).

(** The value that [Runtime.evaluate] returns by value. *)
Inductive js_value :=
| JUndefined
| JNull
| JBool (b : bool)
| JNumber (n : Z)
| JString (s : string).

Record ExceptionDetails := { text : string }.

Record evaluate_reply := {
  result_value : js_value;
  exceptionDetails : option ExceptionDetails
}.

(** [exceptionDetails.text || 'JavaScript execution failed']: the empty
    string is falsy. *)
Definition exception_message (d : ExceptionDetails) : string :=
  if decide (text d = EmptyString) then "JavaScript execution failed"
  else text d.

Definition evaluate (targetId expression : string)
    (reply : outcome evaluate_reply) : M js_value :=
  let* connection := getConnection targetId in
  try_catch
    (let* r := await (Send (client connection)
                           (Runtime_evaluate expression true true)) reply in
     match exceptionDetails r with
     | Some d => throw (Error (exception_message d))
     | None => ret (result_value r)
     end)
    (λ error, CDPError "Failed to evaluate JavaScript"
                       (Some [originalError error;
                              ("expression", DString expression)])).

Record screenshot_options := {
  format : option image_format;
  quality : option Z
}.

Definition screenshot (targetId : string) (options : option screenshot_options)
    (reply : outcome string) : M string :=
  let* connection := getConnection targetId in
  try_catch
    (let* data := await (Send (client connection)
                              (Page_captureScreenshot
                                 (default png (options ≫= format))
                                 (options ≫= quality))) reply in
     ret data)
    (λ error, CDPError "Failed to capture screenshot"
                       (Some [originalError error])).

(** ** listTargets (cdp-client.ts, 24-41) *)

Record CDPTarget := {
  id : string;
  type : string;
  title : string;
  url : string;
  webSocketDebuggerUrl : option string;
  devtoolsFrontendUrl : option string
}.

Definition listTargets (reply : outcome (list CDPTarget))
    : M (list CDPTarget) :=
  λ st,
    try_catch
      (let* targets := await (CDP_List (host (this st)) (port (this st)))
                             reply in
       ret (map (λ target,
                   {| id := id target; type := type target;
                      title := title target; url := url target;
                      webSocketDebuggerUrl := webSocketDebuggerUrl target;
                      devtoolsFrontendUrl := devtoolsFrontendUrl target |})
                targets))
      (λ error,
         CDPError "Failed to list CDP targets. Make sure Electron is running with --inspect flag."
                  (Some [originalError error;
                         ("host", DString (host (this st)));
                         ("port", DNumber (port (this st)))]))
      st.

(** ** ensureConnected (tools/dom/index.ts, 10-38) *)

(** The two module-level variables, with the store and the log that the
    client works on. *)
Record tools := {
  cdpClient : option CDPClient;
  connectedTargetId : option string;
  store : gmap ref CDPConnection;
  log : list call
}.

Definition client_state (cl : CDPClient) (ts : tools) : state :=
  {| this := cl; objects := store ts; calls := log ts |}.

Definition tools_state (remembered : option string) (st : state) : tools :=
  {| cdpClient := Some (this st); connectedTargetId := remembered;
     store := objects st; log := calls st |}.

(** [connectedTargetId && cdpClient.isConnected(connectedTargetId)]: [null]
    and the empty string are falsy. *)
Definition remembered_connected (remembered : option string) (st : state)
    : option string :=
  match remembered with
  | Some targetId =>
      if decide (targetId = EmptyString) then None
      else if isConnected targetId st then Some targetId else None
  | None => None
  end.

Definition no_targets_found : js_error :=
  Error "No Electron targets found. Make sure your Electron app is running with --inspect=9222 flag.".

Definition ensureConnected (listed : outcome (list CDPTarget))
    (opened : outcome chan) (en : enabled) (ts : tools)
    : outcome string * tools :=
  let cl := match cdpClient ts with
            | Some cl => cl
            | None => new_CDPClient "localhost" 9222
            end in
  let st := client_state cl ts in
  match remembered_connected (connectedTargetId ts) st with
  | Some targetId => (Fulfilled targetId, tools_state (connectedTargetId ts) st)
  | None =>
      match listTargets listed st with
      | (Rejected e, st) => (Rejected e, tools_state (connectedTargetId ts) st)
      | (Fulfilled targets, st) =>
          let pageTargets :=
            filter (λ t, type t = "page") targets in
          match pageTargets with
          | [] => (Rejected no_targets_found,
                   tools_state (connectedTargetId ts) st)
          | first :: _ =>
              match connect (id first) opened en st with
              | (Rejected e, st) => (Rejected e, tools_state (Some (id first)) st)
              | (Fulfilled _, st) =>
                  (Fulfilled (id first), tools_state (Some (id first)) st)
              end
          end
      end
  end.

(** ** Calls in flight *)

(** A call of [connect] or [disconnect] is suspended at an [await], or has
    settled.  [await_CDP] is line 57, [await_enable] line 64 and
    [await_close] line 90 of cdp-client.ts. *)
Inductive task :=
| await_CDP (targetId : string)
| await_enable (targetId : string) (client : chan)
| await_close (targetId : string) (r : ref)
| settled (o : outcome unit).

(** Calling an [async] function runs it up to its first [await]. *)
Definition connect_spawn (targetId : string) (st : state) : task * state :=
  match connect_call targetId st with
  | (inl o, st) => (settled o, st)
  | (inr (), st) => (await_CDP targetId, st)
  end.

Definition disconnect_spawn (targetId : string) (st : state) : task * state :=
  match disconnect_call targetId st with
  | (inl o, st) => (settled o, st)
  | (inr (r, _), st) => (await_close targetId r, st)
  end.

(** What the library settles: the promise of [CDP(...)], the four [enable]
    promises, or the promise of [close()]. *)
Inductive settlement :=
| client_settles (opened : outcome chan)
| enable_settles (en : enabled)
| close_settles (closed : outcome unit).

(** A suspended call resumes when the promise it awaits settles, and runs to
    its next [await] or to its end. *)
Definition resume (k : task) (s : settlement) (st : state)
    : option (task * state) :=
  match k, s with
  | await_CDP targetId, client_settles opened =>
      Some match connect_on_client targetId opened st with
           | (inl o, st) => (settled o, st)
           | (inr client, st) => (await_enable targetId client, st)
           end
  | await_enable targetId client, enable_settles en =>
      Some match connect_on_enabled targetId client en st with
           | (o, st) => (settled o, st)
           end
  | await_close targetId r, close_settles closed =>
      Some match disconnect_on_closed targetId r closed st with
           | (o, st) => (settled o, st)
           end
  | _, _ => None
  end.

(** The event loop runs one thing at a time: a caller calls [connect],
    [disconnect] or [disconnectAll], or the promise that the call at
    position [i] awaits settles. *)
Inductive event :=
| calls_connect (targetId : string)
| calls_disconnect (targetId : string)
| calls_disconnectAll
| settles (i : nat) (s : settlement).

Definition spawn_disconnect (acc : list task * state) (targetId : string)
    : list task * state :=
  match disconnect_spawn targetId acc.2 with
  | (k, st) => (acc.1 ++ [k], st)
  end.

(** An event that settles nothing that is awaited changes nothing. *)
Definition step (acc : list task * state) (ev : event) : list task * state :=
  match ev with
  | calls_connect targetId =>
      match connect_spawn targetId acc.2 with
      | (k, st) => (acc.1 ++ [k], st)
      end
  | calls_disconnect targetId => spawn_disconnect acc targetId
  | calls_disconnectAll => foldl spawn_disconnect acc (connections_keys acc.2)
  | settles i s =>
      match acc.1 !! i with
      | Some k =>
          match resume k s acc.2 with
          | Some (k, st) => (<[i := k]> acc.1, st)
          | None => acc
          end
      | None => acc
      end
  end.

Definition run_events (evs : list event) (st : state) : list task * state :=
  foldl step ([], st) evs.

(** [connect(t)] is called twice in a row, before any promise settles, and
    the two calls then resume as [schedule] says. *)
Definition connect_twice (targetId : string)
    (schedule : list (nat * settlement)) (st : state) : list task * state :=
  run_events (calls_connect targetId :: calls_connect targetId
              :: map (λ p, settles p.1 p.2) schedule) st.

(** The number of [CDP(...)] calls for a target, that is of channels the
    client has asked to open to it. *)
Definition opens_channel (targetId : string) (c : call) : bool :=
  match c with
  | CDP_new _ _ target => bool_decide (target = targetId)
  | _ => false
  end.

Definition opens (targetId : string) (cs : list call) : nat :=
  length (List.filter (opens_channel targetId) cs).

(** ** Operations that run one after the other *)

(** The public operations, each with the results of the library calls it
    awaits. *)
Inductive operation :=
| do_listTargets (reply : outcome (list CDPTarget))
| do_connect (targetId : string) (opened : outcome chan) (en : enabled)
| do_disconnect (targetId : string) (closed : outcome unit)
| do_disconnectAll (closed : string → outcome unit)
| do_getDocument (targetId : string) (reply : outcome DOMNode)
| do_querySelector (targetId selector : string) (document : outcome DOMNode)
    (reply : outcome (option Z))
| do_querySelectorAll (targetId selector : string)
    (document : outcome DOMNode) (reply : outcome (option (list Z)))
| do_getNodeAttributes (targetId : string) (nodeId : Z)
    (reply : outcome (list string))
| do_getOuterHTML (targetId : string) (nodeId : Z) (reply : outcome string)
| do_evaluate (targetId expression : string) (reply : outcome evaluate_reply)
| do_screenshot (targetId : string) (options : option screenshot_options)
    (reply : outcome string).

(** The state when the operation has settled. *)
Definition run (op : operation) (st : state) : state :=
  match op with
  | do_listTargets reply => (listTargets reply st).2
  | do_connect targetId opened en => (connect targetId opened en st).2
  | do_disconnect targetId closed => (disconnect targetId closed st).2
  | do_disconnectAll closed => (disconnectAll closed st).2
  | do_getDocument targetId reply => (getDocument targetId reply st).2
  | do_querySelector targetId selector document reply =>
      (querySelector targetId selector document reply st).2
  | do_querySelectorAll targetId selector document reply =>
      (querySelectorAll targetId selector document reply st).2
  | do_getNodeAttributes targetId nodeId reply =>
      (getNodeAttributes targetId nodeId reply st).2
  | do_getOuterHTML targetId nodeId reply =>
      (getOuterHTML targetId nodeId reply st).2
  | do_evaluate targetId expression reply =>
      (evaluate targetId expression reply st).2
  | do_screenshot targetId options reply =>
      (screenshot targetId options reply st).2
  end.

(** The states of a client: it is new, an operation has run from its call
    to its end, or calls of [connect], [disconnect] and [disconnectAll] have
    overlapped up to some point. *)
Inductive reachable : state → Prop :=
| reachable_new (host : string) (port : Z) :
    reachable {| this := new_CDPClient host port; objects := ∅; calls := [] |}
| reachable_run (op : operation) (st : state) :
    reachable st → reachable (run op st)
| reachable_events (evs : list event) (st : state) :
    reachable st → reachable (run_events evs st).2.

(** ** Predicates of the statements *)

(** Every entry of the map refers to an object whose [connected] is true. *)
Definition entries_connected (st : state) : Prop :=
  ∀ t r, connections (this st) !! t = Some r →
         ∃ o, objects st !! r = Some o ∧ connected o = true.

(** No object is the entry of two keys: [connect] stores a new object. *)
Definition entries_distinct (st : state) : Prop :=
  ∀ t1 t2 r, connections (this st) !! t1 = Some r →
             connections (this st) !! t2 = Some r → t1 = t2.

Definition invariant (st : state) : Prop :=
  entries_connected st ∧ entries_distinct st.

(** The map and the connection objects of two states are the same. *)
Definition same_sessions (st st' : state) : Prop :=
  this st' = this st ∧ objects st' = objects st.

(** The reference [p.2] is an object, and it is the entry of [p.1] or of no
    key. *)
Definition owned (st : state) (p : string * ref) : Prop :=
  is_Some (objects st !! p.2) ∧
  (connections (this st) !! p.1 = Some p.2
   ∨ ∀ t, connections (this st) !! t ≠ Some p.2).

(** What a suspended [disconnect] holds is owned. *)
Definition task_owned (st : state) (k : task) : Prop :=
  match k with
  | await_close targetId r => owned st (targetId, r)
  | _ => True
  end.

(** The invariant of the event loop: the map is as above and every suspended
    [disconnect] holds an owned reference. *)
Definition pool_invariant (acc : list task * state) : Prop :=
  invariant acc.2 ∧ Forall (task_owned acc.2) acc.1.

(** The replies of the protocol to a query that matches nothing: node id [0]
    (or no id) for [DOM.querySelector], an empty (or no) array for
    [DOM.querySelectorAll]. *)
Definition no_node (reply : option Z) : Prop :=
  reply = Some 0%Z ∨ reply = None.

Definition no_nodes (reply : option (list Z)) : Prop :=
  reply = Some [] ∨ reply = None.

(** The error of the [catch] clause of [evaluate]. *)
Definition evaluate_failed (expression original : string) : js_error :=
  CDPError "Failed to evaluate JavaScript"
           (Some [("originalError", DString original);
                  ("expression", DString expression)]).

(** A flat sequence that alternates names and values. *)
Definition alternating (pairs : list (string * string)) : list string :=
  mbind (λ p, [p.1; p.2]) pairs.

(** The mapping the specification describes: the pairs folded from left to
    right, a later name overwriting an earlier one. *)
Definition fold_pairwise (pairs : list (string * string))
    : gmap string attribute_value :=
  foldl (λ m p, <[p.1 := value p.2]> m) ∅ pairs.

(** The loop of [getNodeAttributes], read two elements at a time. *)
Fixpoint decode_pairs (attributes : list string)
    (result : gmap string attribute_value) : gmap string attribute_value :=
  match attributes with
  | name :: v :: attributes =>
      decode_pairs attributes (set_property name (value v) result)
  | [name] => set_property name undefined result
  | [] => result
  end.

Definition page_targets (targets : list CDPTarget) : list CDPTarget :=
  filter (λ t, type t = "page") targets.

(** ** Inputs of the examples *)

(** Every [enable] succeeds. *)
Definition all_enabled : enabled :=
  {| DOM_enable := Fulfilled (); Runtime_enable := Fulfilled ();
     Page_enable := Fulfilled (); Network_enable := Fulfilled () |}.

(** [Runtime.enable] is rejected. *)
Definition runtime_fails : enabled :=
  {| DOM_enable := Fulfilled ();
     Runtime_enable := Rejected (Error "Runtime.enable timed out");
     Page_enable := Fulfilled (); Network_enable := Fulfilled () |}.

(** The client after one successful [connect("A")] on channel [1]. *)
Definition connected_A : state :=
  (connect "A" (Fulfilled 1) all_enabled initial).2.

Definition session_A : CDPConnection :=
  {| targetId := "A"; client := 1; connected := true |}.

Definition document_root : DOMNode :=
  {| nodeId := 1; nodeType := 9; nodeName := "#document"; children := [];
     attributes := None |}.

(** The reply to ["null.x"]: the expression threw inside the target. *)
Definition null_x_threw : outcome evaluate_reply :=
  Fulfilled {| result_value := JUndefined;
               exceptionDetails := Some {| text := "Uncaught TypeError: Cannot read properties of null (reading 'x')" |} |}.

Definition target (id type : string) : CDPTarget :=
  {| id := id; type := type; title := "window"; url := "file:///index.html";
     webSocketDebuggerUrl := None; devtoolsFrontendUrl := None |}.

Definition no_tools : tools :=
  {| cdpClient := None; connectedTargetId := None; store := ∅; log := [] |}.

(** Both channels open and every [enable] succeeds; the call at position
    [0] is served first. *)
Definition both_succeed : list (nat * settlement) :=
  [(0, client_settles (Fulfilled 1)); (1, client_settles (Fulfilled 2));
   (0, enable_settles all_enabled); (1, enable_settles all_enabled)].

(** ** Further predicates and inputs *)

(** The operations that talk to a session or list the targets: all but
    [connect], [disconnect] and [disconnectAll]. *)
Definition reads_only (op : operation) : bool :=
  match op with
  | do_connect _ _ _ | do_disconnect _ _ | do_disconnectAll _ => false
  | _ => true
  end.

(** What a [disconnect] called on [targetId] holds when it suspends, and the
    [close] call it has made. *)
Definition held (st : state) (targetId : string) : option (string * ref) :=
  match connections_get targetId st with
  | Some (r, connection) =>
      if connected connection then Some (targetId, r) else None
  | None => None
  end.

Definition close_call (st : state) (targetId : string) : option call :=
  match connections_get targetId st with
  | Some (_, connection) =>
      if connected connection
      then Some (Send (client connection) close) else None
  | None => None
  end.

(** The [close] calls of [disconnectAll]: one for each key, on the channel of
    its entry. *)
Definition close_calls (st : state) : list call :=
  omap (close_call st) (connections_keys st).

(** The error is a [CDPError]. *)
Definition is_CDPError (e : js_error) : Prop :=
  name e = "CDPError" ∧ code e = Some "CDP_ERROR".

(** A promise is fulfilled, or rejected with a [CDPError]. *)
Definition rejects_with_CDPError {A} (o : outcome A) : Prop :=
  match o with
  | Fulfilled _ => True
  | Rejected e => is_CDPError e
  end.

(** The client after [connect("A")] on channel [1] and [connect("B")] on
    channel [2]. *)
Definition connected_A_B : state :=
  (connect "B" (Fulfilled 2) all_enabled connected_A).2.


(** The error a promise is rejected with, if it is. *)
Definition rejection {A} (o : outcome A) : option js_error :=
  match o with
  | Fulfilled _ => None
  | Rejected e => Some e
  end.

(** The error an operation is rejected with, if it is. *)
Definition run_rejection (op : operation) (st : state) : option js_error :=
  match op with
  | do_listTargets reply => rejection (listTargets reply st).1
  | do_connect targetId opened en => rejection (connect targetId opened en st).1
  | do_disconnect targetId closed => rejection (disconnect targetId closed st).1
  | do_disconnectAll closed => rejection (disconnectAll closed st).1
  | do_getDocument targetId reply => rejection (getDocument targetId reply st).1
  | do_querySelector targetId selector document reply =>
      rejection (querySelector targetId selector document reply st).1
  | do_querySelectorAll targetId selector document reply =>
      rejection (querySelectorAll targetId selector document reply st).1
  | do_getNodeAttributes targetId nodeId reply =>
      rejection (getNodeAttributes targetId nodeId reply st).1
  | do_getOuterHTML targetId nodeId reply =>
      rejection (getOuterHTML targetId nodeId reply st).1
  | do_evaluate targetId expression reply =>
      rejection (evaluate targetId expression reply st).1
  | do_screenshot targetId options reply =>
      rejection (screenshot targetId options reply st).1
  end.

(** The error of the [catch] clauses of [querySelector] and
    [querySelectorAll]. *)
Definition query_failed (selector : string) (error : js_error) : js_error :=
  CDPError ("Failed to query selector " +:+ dquote +:+ selector +:+ dquote)
           (Some [originalError error]).

Definition query_all_failed (selector : string) (error : js_error)
    : js_error :=
  CDPError ("Failed to query selector all " +:+ dquote +:+ selector
            +:+ dquote)
           (Some [originalError error]).

(** The error of the [catch] clause of [listTargets]. *)
Definition list_failed (cl : CDPClient) (error : js_error) : js_error :=
  CDPError "Failed to list CDP targets. Make sure Electron is running with --inspect flag."
           (Some [originalError error; ("host", DString (host cl));
                  ("port", DNumber (port cl))]).

(** The event is not a call of [disconnect] or [disconnectAll]. *)
Definition no_disconnect (ev : event) : bool :=
  match ev with
  | calls_disconnect _ | calls_disconnectAll => false
  | _ => true
  end.

(** The call is not suspended in [disconnect]. *)
Definition not_closing (k : task) : Prop :=
  match k with
  | await_close _ _ => False
  | _ => True
  end.

(** ** Tool results ([ToolResult], types/index.ts) *)

(** What [JSON.stringify(value, null, 2)] is applied to in the tools.  The
    rendering itself is not modelled: a text is a literal string or the
    rendering of one of these values. *)
Inductive json_value :=
| targets_json (targets : list CDPTarget)
| document_json (document : DOMNode)
| element_json (nodeId : Z) (selector : string)
    (attributes : gmap string attribute_value) (outerHTML : string)
| elements_json (count showing : nat)
    (elements : list (Z * gmap string attribute_value))
| result_json (result : js_value).

Inductive rendered :=
| literal (s : string)
| JSON_stringify (v : json_value).

Inductive content_item :=
| text_content (t : rendered)
| image_content (data mimeType : string).

Record ToolResult := {
  content : list content_item;
  isError : option bool
}.

(** [{ content: [{ type: 'text', text }] }] *)
Definition text_result (t : rendered) : ToolResult :=
  {| content := [text_content t]; isError := None |}.

(** The [catch] clause of the handlers:
    [{ content: [{ type: 'text', text: `Error: ${error.message}` }],
       isError: true }] *)
Definition error_result (error : js_error) : ToolResult :=
  {| content := [text_content (literal ("Error: " +:+ message error))];
     isError := Some true |}.

(** ** resetConnection (tools/dom/index.ts, 174-222) *)

(** A string that is not [null] and not empty. *)
Definition truthy (s : option string) : option string :=
  match s with
  | Some t => if decide (t = EmptyString) then None else Some t
  | None => None
  end.

Definition forget (ts : tools) : tools :=
  {| cdpClient := None; connectedTargetId := None;
     store := store ts; log := log ts |}.

Definition resetConnection (closed : outcome unit)
    (listed : outcome (list CDPTarget)) (opened : outcome chan)
    (en : enabled) (ts : tools) : ToolResult * tools :=
  let ts :=
    match cdpClient ts, truthy (connectedTargetId ts) with
    | Some cl, Some targetId =>
        tools_state (connectedTargetId ts)
          (disconnect targetId closed (client_state cl ts)).2
    | _, _ => ts
    end in
  match ensureConnected listed opened en (forget ts) with
  | (Fulfilled targetId, ts) =>
      (text_result
         (literal ("Connection reset successfully. Connected to target: "
                   +:+ targetId)), ts)
  | (Rejected error, ts) =>
      ({| content :=
            [text_content
               (literal ("Connection reset. Reconnect failed: "
                         +:+ message error))];
          isError := Some true |}, forget ts)
  end.

(** ** Strings as JavaScript cuts them

    A [string] holds the UTF-8 bytes of a text, as the literals of this file
    do, whereas JavaScript counts and cuts a string in UTF-16 code units.  A
    character of one, two or three bytes is one code unit; a character of
    four bytes, one beyond U+FFFF, is two code units, a surrogate pair.  A
    surrogate on its own, which a JavaScript string may hold, is written in
    three bytes like every code point of its size. *)

(** The number of bytes of the character whose first byte is [lead].  A byte
    10xxxxxx, which starts no character, counts as a character of its own. *)
Definition utf8_width (lead : Ascii.ascii) : nat :=
  let b := Ascii.N_of_ascii lead in
  if (b <? 192)%N then 1
  else if (b <? 224)%N then 2
  else if (b <? 240)%N then 3
  else 4.

(** The number of code units of that character. *)
Definition code_units (lead : Ascii.ascii) : nat :=
  if decide (utf8_width lead = 4) then 2 else 1.

(** The code units of [s], whose first [inside] bytes end a character that
    has been counted. *)
Fixpoint length_from (inside : nat) (s : string) : nat :=
  match s with
  | EmptyString => 0
  | String b s =>
      match inside with
      | S inside => length_from inside s
      | O => code_units b + length_from (utf8_width b - 1) s
      end
  end.

(** [s.length] *)
Definition js_length (s : string) : nat := length_from 0 s.

(** The first half of the surrogate pair of the four-byte character that
    starts with [b0] and goes on in [rest]: the code unit
    [0xD7C0 + (code point >> 10)], which the first three bytes determine,
    in its three bytes.  (A byte that a truncated text lacks is read as
    10000000.) *)
Definition high_surrogate (b0 : Ascii.ascii) (rest : string) : string :=
  let b1 := match rest with
            | String b _ => Ascii.N_of_ascii b
            | EmptyString => 128%N
            end in
  let b2 := match rest with
            | String _ (String b _) => Ascii.N_of_ascii b
            | _ => 128%N
            end in
  let top := N.lor (N.shiftl (N.land (Ascii.N_of_ascii b0) 7) 8)
               (N.lor (N.shiftl (N.land b1 63) 2)
                      (N.shiftr (N.land b2 63) 4)) in
  let unit := (55232 + top)%N in
  String (Ascii.ascii_of_N 237)
    (String (Ascii.ascii_of_N (N.lor 128 (N.land (N.shiftr unit 6) 63)))
       (String (Ascii.ascii_of_N (N.lor 128 (N.land unit 63))) EmptyString)).

(** The first [n] code units of [s], whose first [inside] bytes end a
    character that has been taken.  A cut between the two halves of a
    surrogate pair leaves the first half. *)
Fixpoint substring_from (n inside : nat) (s : string) : string :=
  match s with
  | EmptyString => EmptyString
  | String b s =>
      match inside with
      | S inside => String b (substring_from n inside s)
      | O =>
          match n with
          | O => EmptyString
          | S m =>
              if decide (utf8_width b = 4) then
                match m with
                | O => high_surrogate b s
                | S m => String b (substring_from m 3 s)
                end
              else String b (substring_from m (utf8_width b - 1) s)
          end
      end
  end.

(** [s.substring(0, n)] *)
Definition substring_0 (n : nat) (s : string) : string :=
  substring_from n 0 s.


(** ** The DOM inspection tools (tools/dom/index.ts, 415-758) *)

Module dom_tools.

(** [new CDPClient(args.host, args.port)]: a missing argument takes the
    default of the constructor.  [args.host || args.port] is truthy for a
    host that is not empty or a port that is not [0]. *)
Definition custom_client (host : option string) (port : option Z)
    : option CDPClient :=
  if bool_decide (truthy host ≠ None)
     || bool_decide (port ≠ None ∧ port ≠ Some 0%Z)
  then Some (new_CDPClient (default "localhost" host) (default 9222%Z port))
  else None.

Definition listElectronTargets (host : option string) (port : option Z)
    (reply : outcome (list CDPTarget)) (st : state) : ToolResult * state :=
  match custom_client host port with
  | Some customClient =>
      match listTargets reply {| this := customClient; objects := objects st;
                                 calls := calls st |} with
      | (Fulfilled targets, st') =>
          (text_result (JSON_stringify (targets_json targets)),
           {| this := this st; objects := objects st'; calls := calls st' |})
      | (Rejected error, st') =>
          (error_result error,
           {| this := this st; objects := objects st'; calls := calls st' |})
      end
  | None =>
      match listTargets reply st with
      | (Fulfilled targets, st) =>
          (text_result (JSON_stringify (targets_json targets)), st)
      | (Rejected error, st) => (error_result error, st)
      end
  end.

Definition connectToTarget (targetId : string) (opened : outcome chan)
    (en : enabled) (st : state) : ToolResult * state :=
  match connect targetId opened en st with
  | (Fulfilled _, st) =>
      (text_result
         (literal ("Successfully connected to target " +:+ targetId)), st)
  | (Rejected error, st) => (error_result error, st)
  end.

(** [args.depth] is not read. *)
Definition getDOMTree (targetId : string) (depth : option Z)
    (reply : outcome DOMNode) (st : state) : ToolResult * state :=
  match getDocument targetId reply st with
  | (Fulfilled document, st) =>
      (text_result (JSON_stringify (document_json document)), st)
  | (Rejected error, st) => (error_result error, st)
  end.

(** [if (!nodeId)]: [null] and [0] are falsy, as in [or_null]. *)
Definition querySelector (targetId selector : string)
    (document : outcome DOMNode) (found : outcome (option Z))
    (attrs : outcome (list string)) (html : outcome string) (st : state)
    : ToolResult * state :=
  match querySelector targetId selector document found st with
  | (Rejected error, st) => (error_result error, st)
  | (Fulfilled found, st) =>
      match or_null found with
      | None =>
          (text_result
             (literal ("No element found matching selector: " +:+ selector)),
           st)
      | Some nodeId =>
          match getNodeAttributes targetId nodeId attrs st with
          | (Rejected error, st) => (error_result error, st)
          | (Fulfilled attributes, st) =>
              match getOuterHTML targetId nodeId html st with
              | (Rejected error, st) => (error_result error, st)
              | (Fulfilled outerHTML, st) =>
                  (text_result
                     (JSON_stringify
                        (element_json nodeId selector attributes
                           (substring_0 500 outerHTML))), st)
              end
          end
      end
  end.

(** [nodeIds.slice(0, 10).map(async (nodeId) => ...)]: every call of
    [getNodeAttributes] is made before one of them settles; [attrs i] is the
    reply to the call for the node at position [i].  As in [connect], the
    rejection that [Promise.all] reports is taken in array order. *)
Fixpoint each_attributes (targetId : string) (nodeIds : list Z)
    (attrs : nat → outcome (list string)) (i : nat) (st : state)
    : list (outcome (Z * gmap string attribute_value)) * state :=
  match nodeIds with
  | [] => ([], st)
  | nodeId :: nodeIds =>
      let '(o, st) := getNodeAttributes targetId nodeId (attrs i) st in
      let '(os, st) := each_attributes targetId nodeIds attrs (S i) st in
      (match o with
       | Fulfilled attributes => Fulfilled (nodeId, attributes)
       | Rejected error => Rejected error
       end :: os, st)
  end.

Definition querySelectorAll (targetId selector : string)
    (document : outcome DOMNode) (found : outcome (option (list Z)))
    (attrs : nat → outcome (list string)) (st : state)
    : ToolResult * state :=
  match querySelectorAll targetId selector document found st with
  | (Rejected error, st) => (error_result error, st)
  | (Fulfilled nodeIds, st) =>
      if decide (length nodeIds = 0)
      then (text_result
              (literal ("No elements found matching selector: "
                        +:+ selector)), st)
      else
        let '(promises, st) :=
          each_attributes targetId (take 10 nodeIds) attrs 0 st in
        match Promise_all promises with
        | Rejected error => (error_result error, st)
        | Fulfilled details =>
            (text_result
               (JSON_stringify
                  (elements_json (length nodeIds) (length details) details)),
             st)
        end
  end.

Definition executeJavaScript (targetId code : string)
    (reply : outcome evaluate_reply) (st : state) : ToolResult * state :=
  match evaluate targetId code reply st with
  | (Fulfilled result, st) =>
      (text_result (JSON_stringify (result_json result)), st)
  | (Rejected error, st) => (error_result error, st)
  end.

Definition format_name (f : image_format) : string :=
  match f with
  | png => "png"
  | jpeg => "jpeg"
  end.

Definition takeScreenshot (targetId : string) (format : option image_format)
    (quality : option Z) (reply : outcome string) (st : state)
    : ToolResult * state :=
  match screenshot targetId (Some {| format := format; quality := quality |})
          reply st with
  | (Fulfilled base64Data, st) =>
      ({| content := [image_content base64Data
                        ("image/" +:+ format_name (default png format))];
          isError := None |}, st)
  | (Rejected error, st) => (error_result error, st)
  end.

End dom_tools.

(** The result of a handler that failed with the message [s]. *)
Definition error_text (s : string) : ToolResult :=
  {| content := [text_content (literal ("Error: " +:+ s))];
     isError := Some true |}.

(** The error of the [catch] clause of [getNodeAttributes]. *)
Definition attributes_failed (nodeId : Z) (error : js_error) : js_error :=
  CDPError ("Failed to get attributes for node " +:+ pretty nodeId)
           (Some [originalError error]).

(** What [getNodeAttributes] settles to on a connected session, and what
    the call for one node of the [query_selector_all] tool settles to. *)
Definition node_attributes (nodeId : Z) (reply : outcome (list string))
    : outcome (gmap string attribute_value) :=
  match reply with
  | Fulfilled attributes => Fulfilled (decode_attributes attributes)
  | Rejected error => Rejected (attributes_failed nodeId error)
  end.

Definition node_details (nodeId : Z) (reply : outcome (list string))
    : outcome (Z * gmap string attribute_value) :=
  match reply with
  | Fulfilled attributes => Fulfilled (nodeId, decode_attributes attributes)
  | Rejected error => Rejected (attributes_failed nodeId error)
  end.

(** ** The permissions manager (lib/permissions.ts) *)

Module permissions.

Inductive PermissionType :=
| accessibility
| screen_capture
| input_monitoring
| camera
| microphone.

#[global] Instance PermissionType_eq_dec : EqDecision PermissionType.
Proof. solve_decision. Defined.

(** The strings of the type [PermissionType]. *)
Definition type_name (type : PermissionType) : string :=
  match type with
  | accessibility => "accessibility"
  | screen_capture => "screen-capture"
  | input_monitoring => "input-monitoring"
  | camera => "camera"
  | microphone => "microphone"
  end.

Definition permissionMap (type : PermissionType) : string :=
  match type with
  | accessibility => "accessibility"
  | screen_capture => "screen"
  | input_monitoring => "input-monitoring"
  | camera => "camera"
  | microphone => "microphone"
  end.

(** The functions of node-mac-permissions that ask for access. *)
Inductive ask :=
| askForAccessibilityAccess
| askForScreenCaptureAccess
| askForInputMonitoringAccess
| askForCameraAccess
| askForMicrophoneAccess.

(** The calls to node-mac-permissions and to the console, in their order. *)
Inductive os_call :=
| getAuthStatus (macType : string)
| asks (f : ask)
| console_error (msg : string) (error : js_error).

(** [PermissionStatus] is a cast of what the library returns: a string. *)
Definition checkPermission (type : PermissionType) (reply : outcome string)
    (log : list os_call) : string * list os_call :=
  match reply with
  | Fulfilled status => (status, log ++ [getAuthStatus (permissionMap type)])
  | Rejected error =>
      ("not-determined",
       log ++ [getAuthStatus (permissionMap type);
               console_error ("Error checking " +:+ type_name type
                              +:+ " permission:") error])
  end.

Record PermissionInfo := {
  type : PermissionType;
  status : string;
  canRequest : bool
}.

Definition getPermissionInfo (type : PermissionType) (reply : outcome string)
    (log : list os_call) : PermissionInfo * list os_call :=
  let '(status, log) := checkPermission type reply log in
  ({| type := type; status := status;
      canRequest := bool_decide (status = "not-determined") |}, log).

(** The [switch] of [requestPermission]. *)
Definition ask_for (type : PermissionType) : ask :=
  match type with
  | accessibility => askForAccessibilityAccess
  | screen_capture => askForScreenCaptureAccess
  | input_monitoring => askForInputMonitoringAccess
  | camera => askForCameraAccess
  | microphone => askForMicrophoneAccess
  end.

(** [current] and [after] are the replies to the two status queries and
    [asked] is how the request settles; a reply that is not awaited is not
    read. *)
Definition requestPermission (type : PermissionType)
    (current : outcome string) (asked : outcome unit)
    (after : outcome string) (log : list os_call) : string * list os_call :=
  let '(currentStatus, log) := checkPermission type current log in
  if decide (currentStatus = "authorized") then ("authorized", log)
  else if decide (currentStatus = "denied" ∨ currentStatus = "restricted")
  then (currentStatus, log)
  else
    match asked with
    | Fulfilled _ => checkPermission type after (log ++ [asks (ask_for type)])
    | Rejected error =>
        ("denied",
         log ++ [asks (ask_for type);
                 console_error ("Error requesting " +:+ type_name type
                                +:+ " permission:") error])
    end.

(** [Map.prototype.set] on a map that keeps the order of insertion: the
    value of a key that is present is replaced where it stands. *)
Fixpoint Map_set {K V} `{EqDecision K} (k : K) (v : V) (m : list (K * V))
    : list (K * V) :=
  match m with
  | [] => [(k, v)]
  | (k', v') :: m =>
      if decide (k = k') then (k, v) :: m else (k', v') :: Map_set k v m
  end.

(** [replies i] is the reply to the status query at position [i] of
    [required]. *)
Fixpoint checkAllPermissions_loop (required : list PermissionType)
    (replies : nat → outcome string) (i : nat)
    (results : list (PermissionType * PermissionInfo)) (log : list os_call)
    : list (PermissionType * PermissionInfo) * list os_call :=
  match required with
  | [] => (results, log)
  | type :: required =>
      let '(info, log) := getPermissionInfo type (replies i) log in
      checkAllPermissions_loop required replies (S i)
        (Map_set type info results) log
  end.

Definition checkAllPermissions (required : list PermissionType)
    (replies : nat → outcome string) (log : list os_call)
    : list (PermissionType * PermissionInfo) * list os_call :=
  checkAllPermissions_loop required replies 0 [] log.

Record verification := {
  granted : bool;
  missing : list PermissionType;
  details : list (PermissionType * PermissionInfo)
}.

Definition verifyPermissions (required : list PermissionType)
    (replies : nat → outcome string) (log : list os_call)
    : verification * list os_call :=
  let '(details, log) := checkAllPermissions required replies log in
  let missing :=
    (filter (λ p, status p.2 ≠ "authorized") details).*1 in
  ({| granted := bool_decide (length missing = 0); missing := missing;
      details := details |}, log).

End permissions.

(** The status that [requestPermission] returns without asking. *)
Definition settled_status (current : outcome string) : option string :=
  match current with
  | Fulfilled s =>
      if decide (s = "authorized" ∨ s = "denied" ∨ s = "restricted")
      then Some s else None
  | Rejected _ => None
  end.

(** The requests for access among the calls. *)
Definition asked_calls (l : list permissions.os_call) : list permissions.ask :=
  omap (λ c, match c with
             | permissions.asks f => Some f
             | _ => None
             end) l.

(** The status that [checkPermission] returns for a reply. *)
Definition status_of (reply : outcome string) : string :=
  match reply with
  | Fulfilled status => status
  | Rejected _ => "not-determined"
  end.

(** The entries that [checkAllPermissions] makes for permissions that are
    all different: one per permission, in the order of [required]. *)
Fixpoint permission_infos (required : list permissions.PermissionType)
    (replies : nat → outcome string) (i : nat)
    : list (permissions.PermissionType * permissions.PermissionInfo) :=
  match required with
  | [] => []
  | type :: required =>
      (type, {| permissions.type := type;
                permissions.status := status_of (replies i);
                permissions.canRequest :=
                  bool_decide (status_of (replies i) = "not-determined") |})
      :: permission_infos required replies (S i)
  end.

(** The status queries that [checkAllPermissions] makes. *)
Definition status_queries (l : list permissions.os_call) : list string :=
  omap (λ c, match c with
             | permissions.getAuthStatus macType => Some macType
             | _ => None
             end) l.

(** The entry that [getPermissionInfo] makes for a reply. *)
Definition permission_info (type : permissions.PermissionType)
    (reply : outcome string) : permissions.PermissionInfo :=
  {| permissions.type := type;
     permissions.status := status_of reply;
     permissions.canRequest :=
       bool_decide (status_of reply = "not-determined") |}.

(** ** Permission instructions (lib/permissions.ts, 141-179) *)

Module instructions.

(** The template strings after [.trim()]. *)
Definition getPermissionInstructions (type : permissions.PermissionType)
    : string :=
  match type with
  | permissions.accessibility =>
"To grant Accessibility permission:
1. Open System Settings (System Preferences on older macOS)
2. Go to Privacy & Security → Accessibility
3. Enable access for your terminal app (Terminal, iTerm2, VS Code, etc.)
4. You may need to restart the application"
  | permissions.screen_capture =>
"To grant Screen Recording permission:
1. Open System Settings (System Preferences on older macOS)
2. Go to Privacy & Security → Screen Recording
3. Enable access for your terminal app (Terminal, iTerm2, VS Code, etc.)
4. You may need to restart the application"
  | permissions.input_monitoring =>
"To grant Input Monitoring permission:
1. Open System Settings (System Preferences on older macOS)
2. Go to Privacy & Security → Input Monitoring
3. Enable access for your terminal app (Terminal, iTerm2, VS Code, etc.)
4. You may need to restart the application"
  | permissions.camera =>
"To grant Camera permission:
1. Open System Settings (System Preferences on older macOS)
2. Go to Privacy & Security → Camera
3. Enable access for your terminal app"
  | permissions.microphone =>
"To grant Microphone permission:
1. Open System Settings (System Preferences on older macOS)
2. Go to Privacy & Security → Microphone
3. Enable access for your terminal app"
  end.

End instructions.

(** ** The accessibility manager (lib/accessibility.ts) *)

Module accessibility.

Definition AccessibilityError (msg : string)
    (ds : option (list (string * detail))) : js_error :=
  let super := ElectronMCPError msg "ACCESSIBILITY_ERROR" ds in
  {| name := "AccessibilityError"; message := message super;
     code := code super; details := details super |}.

Inductive button := button_left | button_right | button_middle.

(** The calls to robotjs.  Coordinates are taken as integers. *)
Inductive robot_call :=
| moveMouse (x y : Z)
| mouseClick (b : button) (double : option bool)
| mouseToggle (down : bool)
| dragMouse (x y : Z)
| typeString (text : string).

(** The calls to node-mac-permissions, the console and robotjs, in their
    order. *)
Inductive device_call :=
| os (c : permissions.os_call)
| robot (c : robot_call).

Definition os_calls (l : list permissions.os_call) : list device_call :=
  map os l.

(** [permissionsManager.checkPermission] on the log of this manager. *)
Definition checkPermission (type : permissions.PermissionType)
    (reply : outcome string) (log : list device_call)
    : string * list device_call :=
  let '(status, calls) := permissions.checkPermission type reply [] in
  (status, log ++ os_calls calls).

Definition verifyPermissions (reply : outcome string)
    (log : list device_call) : outcome unit * list device_call :=
  let '(status, log) := checkPermission permissions.accessibility reply log in
  if decide (status = "authorized") then (Fulfilled (), log)
  else (Rejected
          (AccessibilityError
             ("Accessibility permission not granted. "
              +:+ instructions.getPermissionInstructions
                    permissions.accessibility) None), log).

(** The statements of a [try] block that call robotjs one after the other:
    a call that throws ends the block.  [replies i] is what the call at
    position [i] does. *)
Fixpoint robot_calls (cs : list robot_call) (replies : nat → outcome unit)
    (i : nat) (log : list device_call) : outcome unit * list device_call :=
  match cs with
  | [] => (Fulfilled (), log)
  | c :: cs =>
      match replies i with
      | Fulfilled _ => robot_calls cs replies (S i) (log ++ [robot c])
      | Rejected error => (Rejected error, log ++ [robot c])
      end
  end.

(** [this.verifyPermissions(); try { calls } catch (error) { throw new
    AccessibilityError(msg, { originalError: error.message }) }] *)
Definition guarded (cs : list robot_call) (msg : string)
    (status : outcome string) (replies : nat → outcome unit)
    (log : list device_call) : outcome unit * list device_call :=
  match verifyPermissions status log with
  | (Rejected e, log) => (Rejected e, log)
  | (Fulfilled _, log) =>
      match robot_calls cs replies 0 log with
      | (Fulfilled _, log) => (Fulfilled (), log)
      | (Rejected error, log) =>
          (Rejected (AccessibilityError msg (Some [originalError error])),
           log)
      end
  end.

(** [`${x}`] for a number that may be [undefined]. *)
Definition show (x : option Z) : string :=
  match x with
  | Some z => pretty z
  | None => "undefined"
  end.

Definition moveMouse_ (x y : Z) :=
  guarded [moveMouse x y]
    ("Failed to move mouse to (" +:+ pretty x +:+ ", " +:+ pretty y +:+ ")").

(** [if (x !== undefined && y !== undefined) robot.moveMouse(x, y);
    robot.mouseClick(button)] *)
Definition click (x y : option Z) (b : button) :=
  guarded (match x, y with
           | Some x, Some y => [moveMouse x y]
           | _, _ => []
           end ++ [mouseClick b None])
    ("Failed to click at (" +:+ show x +:+ ", " +:+ show y +:+ ")").

Definition doubleClick (x y : option Z) :=
  guarded (match x, y with
           | Some x, Some y => [moveMouse x y]
           | _, _ => []
           end ++ [mouseClick button_left (Some true)])
    "Failed to double click".

Definition drag (fromX fromY toX toY : Z) :=
  guarded [moveMouse fromX fromY; mouseToggle true; dragMouse toX toY;
           mouseToggle false]
    ("Failed to drag from (" +:+ pretty fromX +:+ ", " +:+ pretty fromY
     +:+ ") to (" +:+ pretty toX +:+ ", " +:+ pretty toY +:+ ")").

Definition typeText (text : string) :=
  guarded [typeString text]
    ("Failed to type text: " +:+ dquote +:+ text +:+ dquote).

End accessibility.

(** The calls to robotjs among the calls. *)
Definition robot_log (l : list accessibility.device_call)
    : list accessibility.robot_call :=
  omap (λ c, match c with
             | accessibility.robot c => Some c
             | _ => None
             end) l.

(** The five operations of the accessibility manager that move the pointer
    or type. *)
Inductive device_operation :=
| do_moveMouse (x y : Z)
| do_click (x y : option Z) (b : accessibility.button)
| do_doubleClick (x y : option Z)
| do_drag (fromX fromY toX toY : Z)
| do_typeText (text : string).

Definition run_device (op : device_operation) (status : outcome string)
    (replies : nat → outcome unit) (log : list accessibility.device_call)
    : outcome unit * list accessibility.device_call :=
  match op with
  | do_moveMouse x y => accessibility.moveMouse_ x y status replies log
  | do_click x y b => accessibility.click x y b status replies log
  | do_doubleClick x y => accessibility.doubleClick x y status replies log
  | do_drag fromX fromY toX toY =>
      accessibility.drag fromX fromY toX toY status replies log
  | do_typeText text => accessibility.typeText text status replies log
  end.

(** What the permission gate of the accessibility manager throws. *)
Definition denied_error : js_error :=
  accessibility.AccessibilityError
    ("Accessibility permission not granted. "
     +:+ instructions.getPermissionInstructions permissions.accessibility)
    None.


(** A robotjs whose every call throws. *)
Definition robot_throws (i : nat) : outcome unit :=
  Rejected {| name := "Error"; message := "no display"; code := None;
              details := None |}.

(** * Properties *)

(** ** Sessions that are connected, and those that are not *)

Section session.
Variables (targetId : string) (st : state).

Lemma isConnected_true :
  isConnected targetId st = true ↔
  ∃ r connection, connections_get targetId st = Some (r, connection)
                  ∧ connected connection = true.
Proof.
  unfold isConnected. split.
  - destruct (connections_get targetId st) as [[r o]|]; [|done].
    intros Ho. by exists r, o.
  - by intros (r & o & -> & Ho).
Qed.

Lemma connections_get_Some (r : ref) (o : CDPConnection) :
  connections_get targetId st = Some (r, o) ↔
  connections (this st) !! targetId = Some r ∧ objects st !! r = Some o.
Proof.
  unfold connections_get. split.
  - destruct (connections (this st) !! targetId) as [r'|]; [|done]. simpl.
    destruct (objects st !! r') as [o'|] eqn:Ho; [|done]. simpl.
    intros [= <- <-]. by split.
  - intros [-> Ho]. simpl. by rewrite Ho.
Qed.

Lemma getConnection_connected (r : ref) (connection : CDPConnection) :
  connections_get targetId st = Some (r, connection) →
  connected connection = true →
  getConnection targetId st = (Fulfilled connection, st).
Proof. intros Hget Hc. unfold getConnection. by rewrite Hget, Hc. Qed.

Lemma getConnection_not_connected :
  isConnected targetId st = false →
  getConnection targetId st = (Rejected (not_connected targetId), st).
Proof.
  unfold isConnected, getConnection.
  destruct (connections_get targetId st) as [[r o]|]; [|done].
  by intros ->.
Qed.

Lemma connect_call_not_connected :
  isConnected targetId st = false →
  connect_call targetId st
  = (inr (), issue (CDP_new (host (this st)) (port (this st)) targetId) st).
Proof.
  unfold isConnected, connect_call.
  destruct (connections_get targetId st) as [[r o]|]; [|done]. by intros ->.
Qed.

End session.

(** Runs a session operation up to the first reply, on a connection that is
    known, or known to be missing. *)
Ltac run_connected H Hc :=
  unfold bind, try_catch, await, ret, throw;
  rewrite (getConnection_connected _ _ _ _ H Hc); simpl.

Ltac run_not_connected H :=
  unfold bind; rewrite (getConnection_not_connected _ _ H); reflexivity.

(** C8. [connect(targetId)] on a target whose session is connected returns
    at once: whatever the library would answer, the promise is fulfilled and
    the state, the log of library calls included, is the one before the
    call. *)
Theorem connect_idempotent (targetId : string) (st : state)
    (opened : outcome chan) (en : enabled) :
  isConnected targetId st = true →
  connect targetId opened en st = (Fulfilled (), st).
Proof.
  intros (r & o & Hget & Hc)%isConnected_true.
  unfold connect, connect_call. by rewrite Hget, Hc.
Qed.

Lemma connect_idempotent_witness :
  isConnected "A" connected_A = true ∧
  connect "A" (Fulfilled 2) all_enabled connected_A = (Fulfilled (), connected_A).
Proof.
  split; [reflexivity | apply connect_idempotent; reflexivity].
Defined.

(** C6. On a target without a connected session, each of the seven session
    operations is rejected with the [CDPError] "Not connected to target ...
    Call connect() first." and leaves the state as it was: no library call is
    made, so no channel is opened. *)
Theorem not_connected_fails_fast (targetId : string) (st : state) :
  isConnected targetId st = false →
  (∀ reply, getDocument targetId reply st
            = (Rejected (not_connected targetId), st)) ∧
  (∀ selector document reply,
     querySelector targetId selector document reply st
     = (Rejected (not_connected targetId), st)) ∧
  (∀ selector document reply,
     querySelectorAll targetId selector document reply st
     = (Rejected (not_connected targetId), st)) ∧
  (∀ nodeId reply, getNodeAttributes targetId nodeId reply st
                   = (Rejected (not_connected targetId), st)) ∧
  (∀ nodeId reply, getOuterHTML targetId nodeId reply st
                   = (Rejected (not_connected targetId), st)) ∧
  (∀ expression reply, evaluate targetId expression reply st
                       = (Rejected (not_connected targetId), st)) ∧
  (∀ options reply, screenshot targetId options reply st
                    = (Rejected (not_connected targetId), st)).
Proof.
  intros H. repeat split; intros.
  - unfold getDocument. run_not_connected H.
  - unfold querySelector. run_not_connected H.
  - unfold querySelectorAll. run_not_connected H.
  - unfold getNodeAttributes. run_not_connected H.
  - unfold getOuterHTML. run_not_connected H.
  - unfold evaluate. run_not_connected H.
  - unfold screenshot. run_not_connected H.
Qed.

Lemma not_connected_fails_fast_witness :
  isConnected "B" connected_A = false ∧
  evaluate "B" "1+1" (Fulfilled {| result_value := JNumber 2;
                                   exceptionDetails := None |}) connected_A
  = (Rejected (not_connected "B"), connected_A) ∧
  name (not_connected "B") = "CDPError" ∧
  message (not_connected "B")
  = "Not connected to target B. Call connect() first.".
Proof.
  split; [reflexivity |]. split; [|split; reflexivity].
  apply (not_connected_fails_fast "B" connected_A); reflexivity.
Defined.

(** C7. On a connected session a query that matches nothing succeeds:
    [querySelector] is fulfilled with [null] and [querySelectorAll] with the
    empty array, after the two library calls each of them makes. *)
Theorem zero_match_is_success (targetId selector : string) (st : state)
    (r : ref) (connection : CDPConnection) (root : DOMNode)
    (none : option Z) (nones : option (list Z)) :
  connections_get targetId st = Some (r, connection) →
  connected connection = true →
  no_node none → no_nodes nones →
  let c := client connection in
  let asked := issue (Send c (DOM_getDocument None)) st in
  querySelector targetId selector (Fulfilled root) (Fulfilled none) st
  = (Fulfilled None,
     issue (Send c (DOM_querySelector (nodeId root) selector)) asked) ∧
  querySelectorAll targetId selector (Fulfilled root) (Fulfilled nones) st
  = (Fulfilled [],
     issue (Send c (DOM_querySelectorAll (nodeId root) selector)) asked).
Proof.
  intros Hget Hc Hn Hns c asked. split.
  - unfold querySelector. run_connected Hget Hc.
    by destruct Hn as [-> | ->].
  - unfold querySelectorAll. run_connected Hget Hc.
    by destruct Hns as [-> | ->].
Qed.

Lemma zero_match_is_success_witness :
  (querySelector "A" "#missing" (Fulfilled document_root)
     (Fulfilled (Some 0%Z)) connected_A).1 = Fulfilled None ∧
  (querySelectorAll "A" "#missing" (Fulfilled document_root)
     (Fulfilled (Some [])) connected_A).1 = Fulfilled [].
Proof.
  pose proof (zero_match_is_success "A" "#missing" connected_A 0 session_A
                document_root (Some 0%Z) (Some [])
                eq_refl eq_refl (or_introl eq_refl) (or_introl eq_refl))
    as [H1 H2].
  rewrite H1, H2. split; reflexivity.
Defined.

(** ** evaluate *)

(** C3, as amended.  When the expression throws inside the target,
    [evaluate] is rejected with a [CDPError] "Failed to evaluate JavaScript"
    whose detail [originalError] is the text the target reported (or
    "JavaScript execution failed" when that text is empty).  A transport
    failure is rejected with the same class, code and message, its
    [originalError] being the message of the failure: the two differ in
    that detail only, not in the kind of the error. *)
Theorem evaluate_failure_kinds (targetId expression : string) (st : state)
    (r : ref) (connection : CDPConnection) :
  connections_get targetId st = Some (r, connection) →
  connected connection = true →
  let sent := issue (Send (client connection)
                          (Runtime_evaluate expression true true)) st in
  (∀ v d, evaluate targetId expression
            (Fulfilled {| result_value := v; exceptionDetails := Some d |}) st
          = (Rejected (evaluate_failed expression (exception_message d)),
             sent)) ∧
  (∀ error, evaluate targetId expression (Rejected error) st
            = (Rejected (evaluate_failed expression (message error)), sent)) ∧
  (∀ original, name (evaluate_failed expression original) = "CDPError"
               ∧ code (evaluate_failed expression original) = Some "CDP_ERROR"
               ∧ message (evaluate_failed expression original)
                 = "Failed to evaluate JavaScript").
Proof.
  intros Hget Hc sent. repeat split; intros.
  - unfold evaluate. by run_connected Hget Hc.
  - unfold evaluate. by run_connected Hget Hc.
Qed.

Lemma evaluate_failure_kinds_witness :
  (evaluate "A" "null.x" null_x_threw connected_A).1
  = Rejected (evaluate_failed "null.x"
      "Uncaught TypeError: Cannot read properties of null (reading 'x')").
Proof.
  pose proof (evaluate_failure_kinds "A" "null.x" connected_A 0 session_A
                eq_refl eq_refl) as [H _].
  unfold null_x_threw. rewrite H. reflexivity.
Defined.

(** C3 as stated fails: for ["null.x"], which throws inside the target, and
    for a dropped connection, [evaluate] is rejected with errors of one and
    the same class, [CDPError], with the same code and message. *)
Lemma evaluate_script_error_counterexample :
  ∃ e1 e2,
    (evaluate "A" "null.x" null_x_threw connected_A).1 = Rejected e1 ∧
    (evaluate "A" "null.x" (Rejected (Error "WebSocket is not open"))
       connected_A).1 = Rejected e2 ∧
    ¬ (name e1 ≠ name e2) ∧ name e1 = "CDPError" ∧ code e1 = code e2
    ∧ message e1 = message e2.
Proof.
  eexists _, _. split; [reflexivity|]. split; [reflexivity|].
  split; [|done]. by intros H.
Qed.

(** ** getNodeAttributes *)

Lemma attributes_loop_pairs (fuel : nat) (attributes : list string) (i : nat)
    (result : gmap string attribute_value) :
  length attributes - i ≤ fuel →
  attributes_loop fuel attributes i result
  = decode_pairs (drop i attributes) result.
Proof.
  revert i result. induction fuel as [|fuel IH]; intros i result Hfuel.
  - rewrite drop_ge by lia. done.
  - simpl. destruct (attributes !! i) as [name|] eqn:Hi.
    + rewrite IH by lia.
      rewrite (drop_S _ _ _ Hi). unfold index.
      replace (i + 2) with (S (S i)) by lia.
      replace (i + 1) with (S i) by lia.
      destruct (attributes !! S i) as [v|] eqn:Hv.
      * by rewrite (drop_S _ _ _ Hv).
      * apply lookup_ge_None in Hv.
        rewrite (drop_ge _ (S i)) by lia.
        rewrite drop_ge by lia. done.
    + apply lookup_ge_None in Hi. by rewrite drop_ge.
Qed.

Lemma decode_attributes_pairs (attributes : list string) :
  decode_attributes attributes = decode_pairs attributes ∅.
Proof.
  unfold decode_attributes. rewrite attributes_loop_pairs by lia.
  by rewrite drop_0.
Qed.

Lemma decode_pairs_alternating (pairs : list (string * string))
    (rest : list string) (result : gmap string attribute_value) :
  decode_pairs (alternating pairs ++ rest) result
  = decode_pairs rest
      (foldl (λ m p, set_property p.1 (value p.2) m) result pairs).
Proof.
  revert result. induction pairs as [|[n v] pairs IH]; intros result; [done|].
  simpl. apply IH.
Qed.

(** Assignments that skip [__proto__] build what plain insertions build,
    without that key. *)
Lemma set_property_delete (name : string) (v : attribute_value)
    (result : gmap string attribute_value) :
  set_property name v (delete "__proto__" result)
  = delete "__proto__" (<[name := v]> result).
Proof.
  unfold set_property. destruct (decide (name = "__proto__")) as [-> | Hne].
  - by rewrite delete_insert_eq.
  - by rewrite delete_insert_ne.
Qed.

Lemma foldl_set_property (pairs : list (string * string))
    (result : gmap string attribute_value) :
  foldl (λ m p, set_property p.1 (value p.2) m)
        (delete "__proto__" result) pairs
  = delete "__proto__" (foldl (λ m p, <[p.1 := value p.2]> m) result pairs).
Proof.
  revert result. induction pairs as [|[n v] pairs IH]; intros result; [done|].
  simpl. rewrite set_property_delete. apply IH.
Qed.

Lemma decode_attributes_fold (pairs : list (string * string)) :
  decode_attributes (alternating pairs)
  = delete "__proto__" (fold_pairwise pairs).
Proof.
  rewrite decode_attributes_pairs.
  rewrite <- (app_nil_r (alternating pairs)).
  rewrite decode_pairs_alternating. simpl.
  rewrite <- (delete_empty (M := gmap string) "__proto__") at 1.
  apply foldl_set_property.
Qed.

Lemma decode_attributes_unpaired (pairs : list (string * string))
    (name : string) :
  decode_attributes (alternating pairs ++ [name])
  = delete "__proto__" (<[name := undefined]> (fold_pairwise pairs)).
Proof.
  rewrite decode_attributes_pairs, decode_pairs_alternating. simpl.
  rewrite <- (delete_empty (M := gmap string) "__proto__") at 1.
  rewrite foldl_set_property. apply set_property_delete.
Qed.

Lemma even_alternating (l : list string) :
  Nat.Even (length l) → ∃ pairs, l = alternating pairs.
Proof.
  remember (length l) as n eqn:Hn. revert l Hn.
  induction n as [n IH] using lt_wf_ind. intros l Hn [k Hk].
  destruct l as [|a [|b l]]; simpl in Hn.
  - by exists [].
  - lia.
  - destruct (IH (length l) ltac:(lia) l eq_refl) as [pairs ->].
    { exists (k - 1). lia. }
    by exists ((a, b) :: pairs).
Qed.

Lemma odd_snoc (l : list string) :
  Nat.Odd (length l) →
  ∃ pairs name, l = alternating pairs ++ [name].
Proof.
  intros [k Hk].
  destruct (decide (l = [])) as [-> | Hne]; [simpl in Hk; lia|].
  destruct (exists_last Hne) as (rest & name & ->).
  rewrite length_app in Hk. simpl in Hk.
  destruct (even_alternating rest) as [pairs ->]; [exists k; lia|].
  by exists pairs, name.
Qed.

(** C5.  The claim fails at the attribute name [__proto__].  On a connected
    session, an even-length payload, which always alternates names and
    values, is decoded to the mapping obtained by folding its pairs without
    the key [__proto__]: the payload [["id"; "foo"; "class"; "bar"]] gives
    [{id: "foo", class: "bar"}] as the claim says, but the payload
    [["__proto__"; "x"; "id"; "foo"]] gives [{id: "foo"}], which is not the
    fold of its pairs. *)
Theorem getNodeAttributes_drops_proto (targetId : string) (nodeId : Z)
    (st : state) (r : ref) (connection : CDPConnection) :
  connections_get targetId st = Some (r, connection) →
  connected connection = true →
  (∀ pairs,
     getNodeAttributes targetId nodeId (Fulfilled (alternating pairs)) st
     = (Fulfilled (delete "__proto__" (fold_pairwise pairs)),
        issue (Send (client connection) (DOM_getAttributes nodeId)) st)) ∧
  (∀ attributes, Nat.Even (length attributes) →
                 ∃ pairs, attributes = alternating pairs) ∧
  (getNodeAttributes targetId nodeId
     (Fulfilled ["id"; "foo"; "class"; "bar"]) st).1
  = Fulfilled (<["class" := value "bar"]> {["id" := value "foo"]}) ∧
  (getNodeAttributes targetId nodeId
     (Fulfilled ["__proto__"; "x"; "id"; "foo"]) st).1
  = Fulfilled {["id" := value "foo"]} ∧
  fold_pairwise [("__proto__", "x"); ("id", "foo")] !! "__proto__"
  = Some (value "x").
Proof.
  intros Hget Hc.
  assert (∀ pairs,
     getNodeAttributes targetId nodeId (Fulfilled (alternating pairs)) st
     = (Fulfilled (delete "__proto__" (fold_pairwise pairs)),
        issue (Send (client connection) (DOM_getAttributes nodeId)) st)) as H.
  { intros pairs. unfold getNodeAttributes. run_connected Hget Hc.
    by rewrite decode_attributes_fold. }
  split; [exact H|]. split; [apply even_alternating|].
  split; [|split; [|reflexivity]].
  - change ["id"; "foo"; "class"; "bar"]
      with (alternating [("id", "foo"); ("class", "bar")]).
    rewrite H. reflexivity.
  - change ["__proto__"; "x"; "id"; "foo"]
      with (alternating [("__proto__", "x"); ("id", "foo")]).
    rewrite H. reflexivity.
Qed.

Lemma getNodeAttributes_drops_proto_witness :
  (getNodeAttributes "A" 7 (Fulfilled ["__proto__"; "x"; "id"; "foo"])
     connected_A).1
  = Fulfilled {["id" := value "foo"]}.
Proof.
  apply (getNodeAttributes_drops_proto "A" 7 connected_A 0 session_A);
    reflexivity.
Defined.

(** C4, as amended.  On a connected session an odd-length payload is not
    rejected: [getNodeAttributes] is fulfilled with a mapping in which every
    name other than [__proto__] is bound as in the mapping folded from the
    pairs before the last element, with the last element, a name without a
    value, bound to [undefined].  (What becomes of the name [__proto__] is
    the matter of C5.) *)
Theorem getNodeAttributes_odd_payload (targetId : string) (nodeId : Z)
    (st : state) (r : ref) (connection : CDPConnection)
    (attributes : list string) :
  connections_get targetId st = Some (r, connection) →
  connected connection = true →
  Nat.Odd (length attributes) →
  ∃ pairs name result,
    attributes = alternating pairs ++ [name] ∧
    getNodeAttributes targetId nodeId (Fulfilled attributes) st
    = (Fulfilled result,
       issue (Send (client connection) (DOM_getAttributes nodeId)) st) ∧
    ∀ n, n ≠ "__proto__" →
         result !! n = <[name := undefined]> (fold_pairwise pairs) !! n.
Proof.
  intros Hget Hc (pairs & name & ->)%odd_snoc.
  exists pairs, name,
    (delete "__proto__" (<[name := undefined]> (fold_pairwise pairs))).
  split; [done|]. split.
  - unfold getNodeAttributes. run_connected Hget Hc.
    by rewrite decode_attributes_unpaired.
  - intros n Hn. by rewrite lookup_delete_ne.
Qed.

Lemma getNodeAttributes_odd_payload_witness :
  ∃ pairs name result,
    ["id"; "foo"; "class"] = alternating pairs ++ [name] ∧
    getNodeAttributes "A" 7 (Fulfilled ["id"; "foo"; "class"]) connected_A
    = (Fulfilled result, issue (Send 1 (DOM_getAttributes 7)) connected_A) ∧
    ∀ n, n ≠ "__proto__" →
         result !! n = <[name := undefined]> (fold_pairwise pairs) !! n.
Proof.
  apply (getNodeAttributes_odd_payload "A" 7 connected_A 0
           session_A).
  - reflexivity.
  - reflexivity.
  - exists 1. reflexivity.
Defined.

(** C4 as stated fails: the payload [["id"]] has odd length and
    [getNodeAttributes] is fulfilled, with [{id: undefined}], not rejected. *)
Lemma getNodeAttributes_odd_counterexample :
  length ["id"] = 1 ∧
  (getNodeAttributes "A" 7 (Fulfilled ["id"]) connected_A).1
  = Fulfilled {["id" := undefined]} ∧
  ¬ ∃ e, (getNodeAttributes "A" 7 (Fulfilled ["id"]) connected_A).1
         = Rejected e.
Proof.
  split; [reflexivity|]. split; [reflexivity|].
  intros [e He]. discriminate He.
Qed.

(** ** ensureConnected *)

Lemma listTargets_fulfilled (targets : list CDPTarget) (st : state) :
  listTargets (Fulfilled targets) st
  = (Fulfilled targets,
     issue (CDP_List (host (this st)) (port (this st))) st).
Proof.
  unfold listTargets, try_catch, bind, await, ret. simpl. f_equal. f_equal.
  induction targets as [|[] targets IH]; [done|]. simpl. by rewrite IH.
Qed.

Lemma all_enabled_iff (en : enabled) :
  (∃ l, Promise_all (enable_promises en) = Fulfilled l) ↔ en = all_enabled.
Proof.
  split.
  - destruct en as [[[]|?] [[]|?] [[]|?] [[]|?]]; simpl; intros [l Hl];
      done.
  - intros ->. by eexists.
Qed.

Lemma connections_get_new (t : string) (o : CDPConnection) (st : state) :
  connections_get t (connections_set t o st)
  = Some (fresh (dom (objects st)), o).
Proof.
  unfold connections_get. simpl. rewrite lookup_insert_eq. simpl.
  by rewrite lookup_insert_eq.
Qed.

Lemma opens_app (targetId : string) (cs1 cs2 : list call) :
  opens targetId (cs1 ++ cs2) = opens targetId cs1 + opens targetId cs2.
Proof. unfold opens. by rewrite List.filter_app, length_app. Qed.

Lemma opens_CDP_new (targetId h : string) (p : Z) :
  opens targetId [CDP_new h p targetId] = 1.
Proof. unfold opens. simpl. by rewrite bool_decide_eq_true_2. Qed.

Lemma opens_enable_calls (t : string) (c : chan) :
  opens t (enable_calls c) = 0.
Proof. reflexivity. Qed.

(** The library calls of a [connect] that runs alone. *)
Lemma connect_calls (t : string) (opened : outcome chan) (en : enabled)
    (st : state) :
  calls (connect t opened en st).2
  = calls st
    ++ (if isConnected t st then []
        else CDP_new (host (this st)) (port (this st)) t
             :: match opened with
                | Fulfilled c => enable_calls c
                | Rejected _ => []
                end).
Proof.
  unfold connect, connect_call, isConnected.
  destruct (connections_get t st) as [[r o]|]; [destruct (connected o)|];
    simpl; rewrite ?app_nil_r; try done;
    (destruct opened as [c|e]; simpl; [|done]);
    unfold connect_on_enabled;
    destruct (Promise_all (enable_promises en)); simpl;
    by rewrite <- app_assoc.
Qed.

(** C9. When no remembered target is connected, [ensureConnected] lists
    the targets once and keeps those of type "page", in their order.  If none
    is left it is rejected with the error "No Electron targets found. Make
    sure your Electron app is running with --inspect=9222 flag." after that
    one library call, none of them a [CDP(...)].  Otherwise it remembers the
    id of the first page target and connects to it and to no other target:
    the outcome and state are those of [connect] on that id and no channel
    is opened to another target.  When that target has no connected session,
    the calls after the listing are one [CDP(...)] to it and, once the
    channel is open, the four [enable]s on that channel; the result is its id
    exactly when the channel opens and every [enable] succeeds, and the
    client then holds a connected session of it on that channel. *)
Theorem ensureConnected_first_page (ts : tools) (cl : CDPClient)
    (targets : list CDPTarget) (opened : outcome chan) (en : enabled) :
  cl = default (new_CDPClient "localhost" 9222) (cdpClient ts) →
  remembered_connected (connectedTargetId ts) (client_state cl ts) = None →
  let listed := issue (CDP_List (host cl) (port cl)) (client_state cl ts) in
  let run := ensureConnected (Fulfilled targets) opened en ts in
  match page_targets targets with
  | [] =>
      run = (Rejected no_targets_found,
             tools_state (connectedTargetId ts) listed)
      ∧ log (tools_state (connectedTargetId ts) listed)
        = log ts ++ [CDP_List (host cl) (port cl)]
  | first :: _ =>
      head (page_targets targets) = Some first ∧
      run = (match (connect (id first) opened en listed).1 with
             | Fulfilled _ => Fulfilled (id first)
             | Rejected e => Rejected e
             end,
             tools_state (Some (id first))
               (connect (id first) opened en listed).2) ∧
      connectedTargetId run.2 = Some (id first) ∧
      (∀ t, t ≠ id first → opens t (log run.2) = opens t (log ts)) ∧
      (isConnected (id first) (client_state cl ts) = true →
       run = (Fulfilled (id first), tools_state (Some (id first)) listed)) ∧
      (isConnected (id first) (client_state cl ts) = false →
       log run.2
       = log ts
         ++ [CDP_List (host cl) (port cl);
             CDP_new (host cl) (port cl) (id first)]
         ++ match opened with
            | Fulfilled c => enable_calls c
            | Rejected _ => []
            end ∧
       (run.1 = Fulfilled (id first)
        ↔ ∃ c, opened = Fulfilled c ∧ en = all_enabled) ∧
       ∀ c, opened = Fulfilled c → en = all_enabled →
         ∃ cl' r,
           cdpClient run.2 = Some cl' ∧
           connections_get (id first) (client_state cl' run.2)
           = Some (r, {| targetId := id first; client := c;
                         connected := true |}) ∧
           isConnected (id first) (client_state cl' run.2) = true)
  end.
Proof.
  intros Hcl Hrem listed run.
  assert (run
          = match page_targets targets with
            | [] => (Rejected no_targets_found,
                     tools_state (connectedTargetId ts) listed)
            | first :: _ =>
                (match (connect (id first) opened en listed).1 with
                 | Fulfilled _ => Fulfilled (id first)
                 | Rejected e => Rejected e
                 end,
                 tools_state (Some (id first))
                   (connect (id first) opened en listed).2)
            end) as Hrun.
  { subst run. unfold ensureConnected.
    replace (match cdpClient ts with
             | Some cl0 => cl0
             | None => new_CDPClient "localhost" 9222
             end) with cl by (rewrite Hcl; by destruct (cdpClient ts)).
    rewrite Hrem, listTargets_fulfilled. fold listed.
    fold (page_targets targets).
    destruct (page_targets targets) as [|first rest]; [done|]. simpl.
    by destruct (connect (id first) opened en _) as [[] ?]. }
  clearbody run. subst run.
  destruct (page_targets targets) as [|first rest]; [done|].
  split; [done|]. split; [done|]. split; [done|].
  cbn [fst snd]. split; [|split].
  - intros t Ht. cbn [log tools_state]. rewrite connect_calls.
    rewrite opens_app. subst listed. cbn [calls issue client_state].
    rewrite opens_app.
    assert (opens t [CDP_new (host cl) (port cl) (id first)] = 0) as Hnew.
    { unfold opens. simpl. by rewrite bool_decide_eq_false_2. }
    change (opens t [CDP_List (host cl) (port cl)]) with 0.
    destruct (isConnected _ _); [change (opens t []) with 0; lia|].
    change (CDP_new ?h ?p ?i :: ?l) with ([CDP_new h p i] ++ l).
    rewrite opens_app. cbn [this issue client_state].
    rewrite Hnew.
    destruct opened; [rewrite opens_enable_calls|change (opens t []) with 0];
      lia.
  - intros Hc. unfold connect, connect_call.
    change (connections_get (id first) listed)
      with (connections_get (id first) (client_state cl ts)).
    unfold isConnected in Hc.
    destruct (connections_get (id first) (client_state cl ts)) as [[r o]|];
      [|done].
    by rewrite Hc.
  - intros Hc.
    assert (isConnected (id first) listed = false) as Hc' by exact Hc.
    split; [|split].
    + cbn [log tools_state]. rewrite connect_calls, Hc'.
      subst listed. cbn [calls issue client_state this].
      by rewrite <- app_assoc.
    + unfold connect. rewrite (connect_call_not_connected _ _ Hc').
      destruct opened as [c|e]; simpl.
      * unfold connect_on_enabled.
        destruct (Promise_all (enable_promises en)) as [l|e] eqn:HP; simpl.
        -- split; [|done]. intros _. exists c. split; [done|].
           apply all_enabled_iff. by exists l.
        -- split; [done|]. intros (c' & _ & Hen).
           apply all_enabled_iff in Hen as [l Hl]. congruence.
      * split; [done|]. by intros (c' & Hc'' & _).
    + intros c -> ->. unfold connect.
      rewrite (connect_call_not_connected _ _ Hc'). simpl.
      eexists _, _. split; [reflexivity|].
      unfold isConnected, client_state. cbn [store log tools_state].
      match goal with
      | |- connections_get ?t ?st = _ ∧ _ =>
          change st with
            (connections_set t
               {| targetId := t; client := c; connected := true |}
               (issue_all (enable_calls c)
                  (issue (CDP_new (host (this listed)) (port (this listed))
                            t) listed)))
      end.
      rewrite connections_get_new. split; reflexivity.
Qed.

(** Targets of types webview, page, page: the first page, ["p1"], is
    chosen, and the calls are the listing, the [CDP(...)] to ["p1"] and the
    four [enable]s. *)
Lemma ensureConnected_first_page_witness :
  let run :=
    ensureConnected
      (Fulfilled [target "w" "webview"; target "p1" "page";
                  target "p2" "page"])
      (Fulfilled 1) all_enabled no_tools in
  run.1 = Fulfilled "p1" ∧
  log run.2
  = [CDP_List "localhost" 9222; CDP_new "localhost" 9222 "p1"]
    ++ enable_calls 1.
Proof.
  pose proof (ensureConnected_first_page no_tools
                (new_CDPClient "localhost" 9222)
                [target "w" "webview"; target "p1" "page"; target "p2" "page"]
                (Fulfilled 1) all_enabled eq_refl eq_refl) as H.
  simpl in H. destruct H as (_ & _ & _ & _ & _ & H).
  destruct (H eq_refl) as (Hlog & Hiff & _).
  split; [|exact Hlog]. apply Hiff. exists 1. split; reflexivity.
Defined.

(** ** connect: failure of an enable call *)

Lemma Promise_all_rejected {A} (ps : list (outcome A)) (e : js_error) :
  Rejected e ∈ ps →
  ∃ error, Promise_all ps = Rejected error ∧ Rejected error ∈ ps.
Proof.
  induction ps as [|[a|e'] ps IH]; intros Hin.
  - by apply elem_of_nil in Hin.
  - apply elem_of_cons in Hin as [Heq|Hin]; [done|].
    destruct (IH Hin) as (error & Hall & Herr).
    exists error. simpl. rewrite Hall. split; [done|]. by right.
  - exists e'. split; [done|]. by left.
Qed.

(** C2, as amended.  When the channel to a target without a connected
    session is open and at least one of the four [enable] calls fails,
    [connect] is rejected with the [CDPError] "Failed to connect to target
    ..." that carries the message of a failed call.  The map and the
    connection objects are those before the call, so no session of the
    target is tracked or handed to the caller.  The calls made are the
    [CDP(...)] and the four [enable]s. *)
Theorem connect_enable_failure (targetId : string) (st : state)
    (client : chan) (en : enabled) (e : js_error) :
  isConnected targetId st = false →
  Rejected e ∈ enable_promises en →
  ∃ error st',
    connect targetId (Fulfilled client) en st
    = (Rejected (connect_catch targetId error), st') ∧
    Rejected error ∈ enable_promises en ∧
    this st' = this st ∧ objects st' = objects st ∧
    isConnected targetId st' = false ∧
    calls st' = calls st
                ++ CDP_new (host (this st)) (port (this st)) targetId
                   :: enable_calls client.
Proof.
  intros Hnc Hin.
  destruct (Promise_all_rejected _ _ Hin) as (error & Hall & Herr).
  exists error. eexists. unfold connect.
  rewrite (connect_call_not_connected _ _ Hnc). simpl.
  unfold connect_on_enabled. rewrite Hall.
  split; [reflexivity|]. split; [done|]. simpl.
  split; [done|]. split; [done|]. split; [exact Hnc|].
  by rewrite <- app_assoc.
Qed.

Lemma connect_enable_failure_witness :
  ∃ error st',
    connect "A" (Fulfilled 1) runtime_fails initial
    = (Rejected (connect_catch "A" error), st') ∧
    Rejected error ∈ enable_promises runtime_fails ∧
    this st' = this initial ∧ objects st' = objects initial ∧
    isConnected "A" st' = false ∧
    calls st' = calls initial
                ++ CDP_new (host (this initial)) (port (this initial)) "A"
                   :: enable_calls 1.
Proof.
  apply (connect_enable_failure "A" initial 1 runtime_fails
           (Error "Runtime.enable timed out")).
  - reflexivity.
  - right; left.
Defined.

(** C2 as stated fails: [Runtime.enable] is rejected on channel [1], the
    [connect] is rejected, and no [close] has been sent on channel [1]: the
    channel stays open. *)
Lemma connect_enable_failure_counterexample :
  let run := connect "A" (Fulfilled 1) runtime_fails initial in
  run.1 = Rejected (connect_catch "A" (Error "Runtime.enable timed out")) ∧
  calls run.2 = [CDP_new "localhost" 9222 "A"; Send 1 (enable DOM);
                 Send 1 (enable Runtime); Send 1 (enable Page);
                 Send 1 (enable Network)] ∧
  ¬ Send 1 close ∈ calls run.2.
Proof.
  split; [reflexivity|]. split; [reflexivity|].
  simpl. intros H. repeat (apply elem_of_cons in H as [H|H]; [discriminate H|]).
  by apply elem_of_nil in H.
Qed.

(** ** Two concurrent calls of connect *)

(** Resuming a call opens nothing. *)
Lemma resume_opens (targetId : string) (k k' : task) (s : settlement)
    (st st' : state) :
  resume k s st = Some (k', st') →
  opens targetId (calls st') = opens targetId (calls st).
Proof.
  destruct k as [t|t c|t r|o], s as [opened|en|closed]; simpl; try done.
  - destruct opened as [c|e]; simpl; intros [= <- <-]; [|done].
    simpl. rewrite opens_app. change (opens targetId (enable_calls c)) with 0.
    lia.
  - unfold connect_on_enabled.
    destruct (Promise_all (enable_promises en)); by intros [= <- <-].
  - destruct closed; by intros [= <- <-].
Qed.

Lemma settles_opens (targetId : string) (schedule : list (nat * settlement))
    (acc : list task * state) :
  opens targetId
    (calls (foldl step acc (map (λ p, settles p.1 p.2) schedule)).2)
  = opens targetId (calls acc.2).
Proof.
  revert acc. induction schedule as [|[i s] schedule IH]; intros acc; [done|].
  simpl. rewrite IH. destruct (acc.1 !! i) as [k|]; [|done].
  destruct (resume k s acc.2) as [[k' st']|] eqn:Hr; [|done].
  by eapply resume_opens.
Qed.

Lemma connect_spawn_not_connected (targetId : string) (st : state) :
  isConnected targetId st = false →
  connect_spawn targetId st
  = (await_CDP targetId,
     issue (CDP_new (host (this st)) (port (this st)) targetId) st).
Proof.
  intros H. unfold connect_spawn. by rewrite connect_call_not_connected.
Qed.

(** C1, as amended.  On a target without a connected session, a second
    [connect] that is called while the first is suspended does not wait for
    the first: it finds no entry in the map, calls [CDP(...)] itself and
    suspends on its own promise.  However the two calls are then resumed, the
    log counts two [CDP(...)] calls for the target more than before: two
    channels are asked for, one per call. *)
Theorem connect_twice_opens_twice (targetId : string) (st : state)
    (schedule : list (nat * settlement)) :
  isConnected targetId st = false →
  let open := CDP_new (host (this st)) (port (this st)) targetId in
  run_events [calls_connect targetId; calls_connect targetId] st
  = ([await_CDP targetId; await_CDP targetId], issue open (issue open st)) ∧
  opens targetId (calls (connect_twice targetId schedule st).2)
  = opens targetId (calls st) + 2.
Proof.
  intros Hnc open.
  assert (isConnected targetId (issue open st) = false) as Hnc' by exact Hnc.
  assert (run_events [calls_connect targetId; calls_connect targetId] st
          = ([await_CDP targetId; await_CDP targetId],
             issue open (issue open st))) as Hcalls.
  { unfold run_events. simpl.
    rewrite (connect_spawn_not_connected _ _ Hnc). simpl. fold open.
    by rewrite (connect_spawn_not_connected _ _ Hnc'). }
  split; [exact Hcalls|].
  unfold connect_twice, run_events in *.
  change (foldl step ([], st)
            (calls_connect targetId :: calls_connect targetId
             :: map (λ p, settles p.1 p.2) schedule))
    with (foldl step
            (foldl step ([], st)
               [calls_connect targetId; calls_connect targetId])
            (map (λ p, settles p.1 p.2) schedule)).
  rewrite Hcalls, settles_opens. simpl.
  rewrite <- app_assoc, opens_app. simpl.
  change [open; open] with ([open] ++ [open]). rewrite opens_app.
  unfold open. rewrite opens_CDP_new. lia.
Qed.

Lemma connect_twice_opens_twice_witness :
  opens "A" (calls (connect_twice "A" both_succeed initial).2)
  = opens "A" (calls initial) + 2.
Proof.
  apply (connect_twice_opens_twice "A" initial both_succeed). reflexivity.
Defined.

(** C1 as stated fails: two concurrent [connect("A")] on the fresh client
    both settle fulfilled, two channels were opened, not one, the map tracks
    the channel of the call that finished last and the other channel, [1], is
    neither tracked nor closed. *)
Lemma connect_twice_counterexample :
  let run := connect_twice "A" both_succeed initial in
  run.1 = [settled (Fulfilled ()); settled (Fulfilled ())] ∧
  opens "A" (calls run.2) = 2 ∧
  ¬ opens "A" (calls run.2) = 1 ∧
  client <$> (snd <$> connections_get "A" run.2) = Some 2 ∧
  ¬ Send 1 close ∈ calls run.2.
Proof.
  split; [reflexivity|]. split; [reflexivity|]. split; [by vm_compute|].
  split; [reflexivity|].
  simpl. intros H. repeat (apply elem_of_cons in H as [H|H]; [discriminate H|]).
  by apply elem_of_nil in H.
Qed.

(** ** The invariant of the map *)

Lemma same_sessions_invariant (st st' : state) :
  same_sessions st st' → invariant st → invariant st'.
Proof.
  intros [Ht Ho] [Hc Hd]. unfold invariant, entries_connected, entries_distinct.
  rewrite Ht, Ho. by split.
Qed.

Lemma owned_same (st st' : state) (p : string * ref) :
  same_sessions st st' → owned st p → owned st' p.
Proof. intros [Ht Ho]. unfold owned. by rewrite Ht, Ho. Qed.

(** A session operation only adds to the log. *)
Ltac session_only_logs :=
  unfold bind, try_catch, await, ret, throw;
  match goal with
  | |- context [getConnection ?t ?st] =>
      unfold getConnection;
      destruct (connections_get t st) as [[? [? ? []]]|]; simpl; try done
  end;
  repeat match goal with
         | |- context [match ?o with Fulfilled _ => _ | Rejected _ => _ end] =>
             destruct o; simpl; try done
         | |- context [match ?o with Some _ => _ | None => _ end] =>
             destruct o; simpl; try done
         end.

Lemma session_operation_same (op : operation) (st : state) :
  match op with
  | do_connect _ _ _ | do_disconnect _ _ | do_disconnectAll _ => True
  | _ => same_sessions st (run op st)
  end.
Proof.
  destruct op; try done; simpl.
  - unfold listTargets, try_catch, bind, await, ret. by destruct reply.
  - unfold getDocument. session_only_logs.
  - unfold querySelector. session_only_logs.
  - unfold querySelectorAll. session_only_logs.
  - unfold getNodeAttributes. session_only_logs.
  - unfold getOuterHTML. session_only_logs.
  - unfold evaluate. session_only_logs.
  - unfold screenshot. session_only_logs.
Qed.

Section connections_set.
Variables (targetId : string) (o : CDPConnection) (st : state).
Hypothesis Hinv : invariant st.

(** The reference of the new object is not in use. *)
Lemma fresh_unused :
  objects st !! fresh (dom (objects st)) = None
  ∧ ∀ t, connections (this st) !! t ≠ Some (fresh (dom (objects st))).
Proof.
  assert (objects st !! fresh (dom (objects st)) = None) as Hfresh.
  { apply not_elem_of_dom. apply is_fresh. }
  split; [done|]. intros t Ht.
  destruct (proj1 Hinv t _ Ht) as (o' & Ho' & _). congruence.
Qed.

Lemma connections_set_invariant :
  connected o = true → invariant (connections_set targetId o st).
Proof.
  intros Ho. destruct fresh_unused as [Hfresh Hunused].
  destruct Hinv as [Hc Hd].
  set (r := fresh (dom (objects st))) in *.
  split.
  - intros t r'. simpl. fold r. intros Ht.
    destruct (decide (targetId = t)) as [<-|Hne].
    + rewrite lookup_insert_eq in Ht. injection Ht as <-.
      exists o. by rewrite lookup_insert_eq.
    + rewrite lookup_insert_ne in Ht by done.
      destruct (Hc t r' Ht) as (o' & Ho' & Hco').
      exists o'. split; [|done].
      rewrite lookup_insert_ne; [done|]. intros <-. by eapply Hunused.
  - intros t1 t2 r'. simpl. fold r. intros H1 H2.
    destruct (decide (targetId = t1)) as [<-|Hne1],
             (decide (targetId = t2)) as [<-|Hne2]; [done| | |].
    + rewrite lookup_insert_eq in H1. injection H1 as <-.
      rewrite lookup_insert_ne in H2 by done. by destruct (Hunused t2).
    + rewrite lookup_insert_eq in H2. injection H2 as <-.
      rewrite lookup_insert_ne in H1 by done. by destruct (Hunused t1).
    + rewrite lookup_insert_ne in H1, H2 by done. by eapply Hd.
Qed.

Lemma connections_set_owned (q : string * ref) :
  owned st q → owned (connections_set targetId o st) q.
Proof.
  destruct fresh_unused as [Hfresh Hunused]. destruct Hinv as [Hc Hd].
  set (r := fresh (dom (objects st))) in *.
  intros [[oq Hoq] Hq].
  assert (q.2 ≠ r) as Hne by congruence.
  split; simpl; fold r.
  - exists oq. by rewrite lookup_insert_ne.
  - destruct (decide (targetId = q.1)) as [Heq|Hneq].
    + right. intros t Ht.
      destruct (decide (targetId = t)) as [<-|Hnet].
      * rewrite lookup_insert_eq in Ht. congruence.
      * rewrite lookup_insert_ne in Ht by done.
        destruct Hq as [Hq|Hq]; [|by eapply Hq].
        destruct Hnet. rewrite Heq. by eapply Hd.
    + destruct Hq as [Hq|Hq].
      * left. by rewrite lookup_insert_ne.
      * right. intros t Ht.
        destruct (decide (targetId = t)) as [<-|Hnet].
        -- rewrite lookup_insert_eq in Ht. congruence.
        -- rewrite lookup_insert_ne in Ht by done. by eapply Hq.
Qed.

End connections_set.

Lemma connect_on_enabled_invariant (targetId : string) (client : chan)
    (en : enabled) (st : state) :
  invariant st → invariant (connect_on_enabled targetId client en st).2.
Proof.
  intros Hinv. unfold connect_on_enabled.
  destruct (Promise_all (enable_promises en)); simpl; [|done].
  by apply connections_set_invariant.
Qed.

Lemma connect_invariant (targetId : string) (opened : outcome chan)
    (en : enabled) (st : state) :
  invariant st → invariant (connect targetId opened en st).2.
Proof.
  intros Hinv. unfold connect, connect_call.
  assert (invariant
            (match connect_on_client targetId opened
                     (issue (CDP_new (host (this st)) (port (this st))
                                     targetId) st) with
             | (inl o, st) => (o, st)
             | (inr client, st) => connect_on_enabled targetId client en st
             end).2) as Hnew.
  { destruct opened as [client|e]; simpl; [|done].
    by apply connect_on_enabled_invariant. }
  destruct (connections_get targetId st) as [[r o]|]; [|done].
  by destruct (connected o).
Qed.

(** A [connect] that is rejected leaves the map as it was. *)
Lemma connect_rejected_same (targetId : string) (opened : outcome chan)
    (en : enabled) (st st' : state) (e : js_error) :
  connect targetId opened en st = (Rejected e, st') → same_sessions st st'.
Proof.
  unfold connect, connect_call.
  assert ((match connect_on_client targetId opened
                   (issue (CDP_new (host (this st)) (port (this st))
                                   targetId) st) with
           | (inl o, st) => (o, st)
           | (inr client, st) => connect_on_enabled targetId client en st
           end) = (Rejected e, st') → same_sessions st st') as Hnew.
  { destruct opened as [client|e0]; simpl; [|by intros [= _ <-]].
    unfold connect_on_enabled.
    destruct (Promise_all (enable_promises en)); simpl; [done|].
    by intros [= _ <-]. }
  destruct (connections_get targetId st) as [[r o]|]; [|done].
  by destruct (connected o).
Qed.

Section disconnect_on_closed.
Variables (targetId : string) (r : ref) (closed : outcome unit) (st : state).
Hypothesis Hinv : invariant st.

Lemma disconnect_on_closed_connections :
  connections (this (disconnect_on_closed targetId r closed st).2)
  = delete targetId (connections (this st)).
Proof. by destruct closed. Qed.

Lemma disconnect_on_closed_invariant :
  owned st (targetId, r) →
  invariant (disconnect_on_closed targetId r closed st).2.
Proof.
  destruct Hinv as [Hc Hd]. intros [_ Hown].
  assert (∀ t r', t ≠ targetId → connections (this st) !! t = Some r' →
                  r' ≠ r) as Hother.
  { intros t r' Hne Ht ->. destruct Hown as [Hown|Hown]; simpl in Hown.
    - by destruct Hne; eapply Hd.
    - by eapply Hown. }
  split.
  - intros t r'. rewrite disconnect_on_closed_connections.
    intros [Hne Ht]%lookup_delete_Some.
    destruct (Hc t r' Ht) as (o & Ho & Hco). exists o. split; [|done].
    destruct closed; simpl; [|done].
    rewrite lookup_alter_ne; [done|]. intros <-. by eapply Hother.
  - intros t1 t2 r'. rewrite disconnect_on_closed_connections.
    intros [_ H1]%lookup_delete_Some [_ H2]%lookup_delete_Some.
    by eapply Hd.
Qed.

Lemma disconnect_on_closed_owned (q : string * ref) :
  owned st q → owned (disconnect_on_closed targetId r closed st).2 q.
Proof.
  destruct Hinv as [Hc Hd]. intros [[oq Hoq] Hq]. split.
  - destruct closed; simpl; [|by exists oq].
    destruct (decide (r = q.2)) as [->|Hne].
    + rewrite lookup_alter_eq, Hoq. by eexists.
    + rewrite lookup_alter_ne by done. by exists oq.
  - rewrite disconnect_on_closed_connections.
    destruct (decide (q.1 = targetId)) as [Heq|Hne].
    + right. intros t [Hne Ht]%lookup_delete_Some.
      destruct Hq as [Hq|Hq]; [|by eapply Hq].
      destruct Hne. rewrite <- Heq. by eapply Hd.
    + destruct Hq as [Hq|Hq].
      * left. by rewrite lookup_delete_ne.
      * right. intros t [_ Ht]%lookup_delete_Some. by eapply Hq.
Qed.

End disconnect_on_closed.

(** What [disconnect] holds when it suspends is owned. *)
Lemma disconnect_call_owned (targetId : string) (st st' : state) (r : ref)
    (o : CDPConnection) :
  disconnect_call targetId st = (inr (r, o), st') → owned st (targetId, r).
Proof.
  unfold disconnect_call.
  destruct (connections_get targetId st) as [[r' o']|] eqn:Hget; [|done].
  destruct (connected o'); [|done]. intros [= <- <- _].
  apply connections_get_Some in Hget as [Ht Ho]. split; [by eexists | by left].
Qed.

Lemma disconnect_call_same (targetId : string) (st : state) :
  same_sessions st (disconnect_call targetId st).2.
Proof.
  unfold disconnect_call.
  destruct (connections_get targetId st) as [[r o]|]; [|done].
  by destruct (connected o).
Qed.

Lemma disconnect_invariant (targetId : string) (closed : outcome unit)
    (st : state) :
  invariant st → invariant (disconnect targetId closed st).2.
Proof.
  intros Hinv. unfold disconnect.
  pose proof (disconnect_call_same targetId st) as Hs.
  destruct (disconnect_call targetId st) as [[o|[r c]] st'] eqn:Hcall.
  - by eapply same_sessions_invariant.
  - apply disconnect_on_closed_invariant.
    + by eapply same_sessions_invariant.
    + eapply owned_same; [exact Hs|]. by eapply disconnect_call_owned.
Qed.

Lemma same_sessions_trans (st1 st2 st3 : state) :
  same_sessions st1 st2 → same_sessions st2 st3 → same_sessions st1 st3.
Proof. intros [H1 H2] [H3 H4]. split; congruence. Qed.

Lemma disconnectAll_step_fold (st0 : state) (keys : list string)
    (acc : list (string * ref) * state) :
  same_sessions st0 acc.2 → Forall (owned st0) acc.1 →
  same_sessions st0 (foldl disconnectAll_step acc keys).2
  ∧ Forall (owned st0) (foldl disconnectAll_step acc keys).1.
Proof.
  revert acc. induction keys as [|t keys IH]; intros [pending st] Hs Hp;
    [done|].
  simpl in *. unfold disconnectAll_step at 2 4. simpl.
  pose proof (disconnect_call_same t st) as Hs'.
  destruct (disconnect_call t st) as [[o|[r c]] st'] eqn:Hcall; simpl in *.
  - apply IH; simpl; [|done]. by eapply same_sessions_trans.
  - apply IH; simpl; [by eapply same_sessions_trans|].
    apply Forall_app. split; [done|]. apply Forall_singleton.
    apply disconnect_call_owned in Hcall.
    destruct Hs as [Ht Ho]. unfold owned in *. by rewrite <- Ht, <- Ho.
Qed.

Lemma disconnectAll_resume_invariant (closed : string → outcome unit)
    (pending : list (string * ref)) (st : state) :
  invariant st → Forall (owned st) pending →
  invariant (disconnectAll_resume closed pending st).
Proof.
  revert st. induction pending as [|[t r] pending IH]; intros st Hinv Hp;
    [done|].
  apply Forall_cons in Hp as [Hown Hp]. simpl. apply IH.
  - by apply disconnect_on_closed_invariant.
  - eapply Forall_impl; [exact Hp|]. intros q Hq.
    by apply disconnect_on_closed_owned.
Qed.

Lemma disconnectAll_invariant (closed : string → outcome unit) (st : state) :
  invariant st → invariant (disconnectAll closed st).2.
Proof.
  intros Hinv. unfold disconnectAll, disconnectAll_call.
  destruct (disconnectAll_step_fold st (connections_keys st) ([], st))
    as [Hs Hp]; [done | done |].
  destruct (foldl disconnectAll_step ([], st) (connections_keys st))
    as [pending st']. simpl in *.
  apply disconnectAll_resume_invariant.
  - by eapply same_sessions_invariant.
  - eapply Forall_impl; [exact Hp|]. intros q. by apply owned_same.
Qed.

Lemma run_invariant (op : operation) (st : state) :
  invariant st → invariant (run op st).
Proof.
  intros Hinv. pose proof (session_operation_same op st) as Hs.
  destruct op; try (by eapply same_sessions_invariant); simpl.
  - by apply connect_invariant.
  - by apply disconnect_invariant.
  - by apply disconnectAll_invariant.
Qed.


(** ** The invariant under interleaving *)

Lemma task_owned_same (st st' : state) (k : task) :
  same_sessions st st' → task_owned st k → task_owned st' k.
Proof. intros Hs. destruct k; try done. by apply owned_same. Qed.

Lemma pool_same (tasks : list task) (st st' : state) (k : task) :
  same_sessions st st' → task_owned st' k → pool_invariant (tasks, st) →
  pool_invariant (tasks ++ [k], st').
Proof.
  intros Hs Hk [Hinv Hown]. split; simpl in *.
  - by eapply same_sessions_invariant.
  - apply Forall_app. split; [|by apply Forall_singleton].
    eapply Forall_impl; [exact Hown|]. intros k'. by apply task_owned_same.
Qed.

Lemma connect_spawn_pool (targetId : string) (acc : list task * state) :
  pool_invariant acc →
  pool_invariant (step acc (calls_connect targetId)).
Proof.
  destruct acc as [tasks st]. intros Hp. simpl.
  unfold connect_spawn, connect_call.
  destruct (connections_get targetId st) as [[r o]|].
  - destruct (connected o); by apply (pool_same tasks st).
  - by apply (pool_same tasks st).
Qed.

Lemma spawn_disconnect_pool (targetId : string) (acc : list task * state) :
  pool_invariant acc → pool_invariant (spawn_disconnect acc targetId).
Proof.
  destruct acc as [tasks st]. intros Hp.
  unfold spawn_disconnect, disconnect_spawn. simpl.
  pose proof (disconnect_call_same targetId st) as Hs.
  destruct (disconnect_call targetId st) as [[o|[r c]] st'] eqn:Hcall.
  - by apply (pool_same tasks st).
  - apply (pool_same tasks st); [done| |done]. simpl.
    eapply owned_same; [exact Hs|]. by eapply disconnect_call_owned.
Qed.

Lemma resume_pool (tasks : list task) (st st' : state) (i : nat)
    (k k' : task) (s : settlement) :
  tasks !! i = Some k → resume k s st = Some (k', st') →
  pool_invariant (tasks, st) → pool_invariant (<[i := k']> tasks, st').
Proof.
  intros Hi Hr [Hinv Hown]. simpl in *.
  pose proof (Forall_lookup_1 _ _ _ _ Hown Hi) as Hk.
  destruct k as [t|t c|t r|o], s as [opened|en|closed]; simpl in Hr;
    try done.
  - assert (same_sessions st st' ∧ task_owned st' k') as [Hs Hk'].
    { destruct opened; simpl in Hr; injection Hr as <- <-; by split. }
    split; simpl; [by eapply same_sessions_invariant|].
    apply Forall_insert; [|done].
    eapply Forall_impl; [exact Hown|]. intros k0. by apply task_owned_same.
  - pose proof (connect_on_enabled_invariant t c en st Hinv) as Hinv'.
    unfold connect_on_enabled in *.
    destruct (Promise_all (enable_promises en)); simpl in *;
      injection Hr as <- <-; (split; simpl; [done|]);
      (apply Forall_insert; [|done]).
    + eapply Forall_impl; [exact Hown|]. intros k0 Hk0.
      destruct k0; try done. by apply connections_set_owned.
    + done.
  - pose proof (disconnect_on_closed_invariant t r closed st Hinv Hk) as Hinv'.
    pose proof (disconnect_on_closed_owned t r closed st Hinv) as Hown'.
    destruct (disconnect_on_closed t r closed st) as [o st''].
    injection Hr as <- <-. split; simpl in *; [done|].
    apply Forall_insert; [|done].
    eapply Forall_impl; [exact Hown|]. intros k0 Hk0.
    destruct k0; try done. by apply Hown'.
Qed.

Lemma step_pool (acc : list task * state) (ev : event) :
  pool_invariant acc → pool_invariant (step acc ev).
Proof.
  intros Hp. destruct ev as [t|t| |i s].
  - by apply connect_spawn_pool.
  - by apply spawn_disconnect_pool.
  - simpl. generalize (connections_keys acc.2). intros keys.
    revert acc Hp. induction keys as [|t keys IH]; intros acc Hp; [done|].
    simpl. apply IH. by apply spawn_disconnect_pool.
  - simpl. destruct (acc.1 !! i) as [k|] eqn:Hi; [|done].
    destruct (resume k s acc.2) as [[k' st']|] eqn:Hr; [|done].
    destruct acc as [tasks st]. by eapply resume_pool.
Qed.

(** Calls of [connect], [disconnect] and [disconnectAll] that overlap keep
    the invariant, at every point of every interleaving. *)
Lemma run_events_invariant (evs : list event) (st : state) :
  invariant st → invariant (run_events evs st).2.
Proof.
  intros Hinv. unfold run_events.
  assert (pool_invariant ([], st)) as Hp by (split; [done | constructor]).
  revert Hp. generalize (([], st) : list task * state).
  induction evs as [|ev evs IH]; intros acc Hp; [apply Hp|].
  simpl. apply IH. by apply step_pool.
Qed.

Lemma reachable_invariant (st : state) : reachable st → invariant st.
Proof.
  induction 1 as [h p|op st _ IH|evs st _ IH].
  - split; intros t; intros; simpl in *; by rewrite lookup_empty in *.
  - by apply run_invariant.
  - by apply run_events_invariant.
Qed.

(** ** What the invariant gives *)

Lemma elem_of_connections_keys (targetId : string) (st : state) :
  targetId ∈ connections_keys st ↔
  is_Some (connections (this st) !! targetId).
Proof.
  unfold connections_keys. rewrite list_elem_of_fmap. split.
  - intros ([t r] & -> & Hin). apply elem_of_map_to_list in Hin. by exists r.
  - intros [r Hr]. exists (targetId, r). split; [done|].
    by apply elem_of_map_to_list.
Qed.

Lemma omap_id {A} (f : A → option A) (l : list A) :
  (∀ x, x ∈ l → f x = Some x) → omap f l = l.
Proof.
  induction l as [|a l IH]; intros Hf; [done|]. simpl.
  rewrite (Hf a) by by left. f_equal. apply IH. intros x Hx. apply Hf.
  by right.
Qed.

Lemma invariant_isConnected (st : state) (t : string) :
  invariant st →
  isConnected t st = true ↔ is_Some (connections (this st) !! t).
Proof.
  intros [Hc _]. rewrite isConnected_true. split.
  - intros (r & o & [Hr _]%connections_get_Some & _). by exists r.
  - intros [r Hr]. destruct (Hc t r Hr) as (o & Ho & Hco).
    exists r, o. split; [|done]. by apply connections_get_Some.
Qed.

Lemma invariant_getActiveConnections (st : state) :
  invariant st → getActiveConnections st = connections_keys st.
Proof.
  intros Hinv. unfold getActiveConnections. apply omap_id. intros t Ht.
  apply elem_of_connections_keys, invariant_isConnected, isConnected_true in Ht
    as (r & o & -> & ->); done.
Qed.

(** C10. In every state that the public operations reach, whatever the
    library answers and also when calls of [connect], [disconnect] and
    [disconnectAll] overlap, every entry of the map refers to a connection
    whose [connected] is true; so [isConnected(t)] is true exactly for the keys of
    the map and [getActiveConnections()] is the list of the keys.  A
    [connect] that is rejected leaves the map as it was, and [disconnect] of
    an id that is not a key leaves the whole state as it was. *)
Theorem connected_entries_invariant (st : state) :
  reachable st →
  (∀ t r, connections (this st) !! t = Some r →
          ∃ o, objects st !! r = Some o ∧ connected o = true) ∧
  (∀ t, isConnected t st = true ↔ is_Some (connections (this st) !! t)) ∧
  getActiveConnections st = connections_keys st ∧
  (∀ t, t ∈ getActiveConnections st ↔ is_Some (connections (this st) !! t)) ∧
  (∀ t opened en e st',
     connect t opened en st = (Rejected e, st') →
     connections (this st') = connections (this st)) ∧
  (∀ t closed, connections (this st) !! t = None →
               disconnect t closed st = (Fulfilled (), st)).
Proof.
  intros Hinv%reachable_invariant.
  split; [exact (proj1 Hinv)|].
  split; [intros t; by apply invariant_isConnected|].
  split; [by apply invariant_getActiveConnections|].
  split; [|split].
  - intros t. rewrite invariant_getActiveConnections by done.
    apply elem_of_connections_keys.
  - intros t opened en e st' Hrun.
    apply connect_rejected_same in Hrun as [-> _]. done.
  - intros t closed Hnone. unfold disconnect, disconnect_call, connections_get.
    by rewrite Hnone.
Qed.

Lemma connected_entries_invariant_witness :
  isConnected "A" (run (do_connect "A" (Fulfilled 1) all_enabled) initial)
  = true
  ↔ is_Some (connections
               (this (run (do_connect "A" (Fulfilled 1) all_enabled) initial))
             !! "A").
Proof.
  apply (connected_entries_invariant
           (run (do_connect "A" (Fulfilled 1) all_enabled) initial)).
  apply reachable_run. apply reachable_new.
Defined.

(** * Further properties of the client *)

(** ** connect and disconnect *)

Lemma connected_A_reachable : reachable connected_A.
Proof.
  apply (reachable_run (do_connect "A" (Fulfilled 1) all_enabled)).
  apply reachable_new.
Qed.

Lemma connected_A_B_reachable : reachable connected_A_B.
Proof.
  apply (reachable_run (do_connect "B" (Fulfilled 2) all_enabled)).
  apply connected_A_reachable.
Qed.

Lemma connections_get_same (t : string) (st st' : state) :
  same_sessions st st' → connections_get t st' = connections_get t st.
Proof. intros [Ht Ho]. unfold connections_get. by rewrite Ht, Ho. Qed.

Lemma isConnected_same (t : string) (st st' : state) :
  same_sessions st st' → isConnected t st' = isConnected t st.
Proof.
  intros Hs. unfold isConnected. by rewrite (connections_get_same _ _ _ Hs).
Qed.

Lemma connections_get_other (t t' : string) (o : CDPConnection) (st : state) :
  invariant st → t' ≠ t →
  connections_get t' (connections_set t o st) = connections_get t' st.
Proof.
  intros Hinv Hne. destruct (fresh_unused st Hinv) as [Hfresh Hunused].
  unfold connections_get. simpl. rewrite lookup_insert_ne by done.
  destruct (connections (this st) !! t') as [r|] eqn:Hr; [|done]. simpl.
  rewrite lookup_insert_ne; [done|]. intros <-. by eapply Hunused.
Qed.

(** X1. On a target without a connected session, [connect] is fulfilled
    exactly when the channel opens and all four [enable] calls succeed, and
    exactly then the target is connected afterwards.  In that case the entry
    holds the new channel, the library calls made are the [CDP(...)] and the
    four [enable]s, and every other target is as it was. *)
Theorem connect_fulfilled_iff (targetId : string) (st : state)
    (opened : outcome chan) (en : enabled) :
  reachable st → isConnected targetId st = false →
  let run := connect targetId opened en st in
  (run.1 = Fulfilled () ↔ ∃ c, opened = Fulfilled c ∧ en = all_enabled) ∧
  (isConnected targetId run.2 = true ↔ run.1 = Fulfilled ()) ∧
  (∀ c, opened = Fulfilled c → en = all_enabled →
        (∃ r, connections_get targetId run.2
              = Some (r, {| targetId := targetId; client := c;
                            connected := true |})) ∧
        calls run.2
        = calls st ++ CDP_new (host (this st)) (port (this st)) targetId
                      :: enable_calls c) ∧
  (∀ t, t ≠ targetId → connections_get t run.2 = connections_get t st).
Proof.
  intros Hinv%reachable_invariant Hnc run. subst run. unfold connect.
  rewrite (connect_call_not_connected _ _ Hnc).
  destruct opened as [c|e]; simpl.
  - unfold connect_on_enabled.
    destruct (Promise_all (enable_promises en)) as [l|e] eqn:Hall; simpl.
    + assert (en = all_enabled) as -> by (apply all_enabled_iff; eauto).
      split; [split; [eauto | done]|]. split.
      { unfold isConnected. by rewrite connections_get_new. }
      split.
      * intros c' [= <-] _. split; [by rewrite connections_get_new; eauto|].
        by rewrite <- app_assoc.
      * intros t Hne. by rewrite connections_get_other.
    + assert (en ≠ all_enabled) as Hen.
      { intros ->. discriminate Hall. }
      split; [split; [done | by intros (c' & _ & Hc')]|].
      split; [split; [|done]|].
      { intros Hc. rewrite (isConnected_same _ st) in Hc by done. congruence. }
      split; [by intros c' _ Hc' | done].
  - split; [split; [done | by intros (c' & Hc' & _)]|].
    split; [split; [|done]|].
    { intros Hc. rewrite (isConnected_same _ st) in Hc by done. congruence. }
    split; [by intros c' Hc' | done].
Qed.

Lemma connect_fulfilled_iff_witness :
  isConnected "B" (connect "B" (Fulfilled 2) all_enabled connected_A).2 = true
  ↔ (connect "B" (Fulfilled 2) all_enabled connected_A).1 = Fulfilled ().
Proof.
  apply (connect_fulfilled_iff "B" connected_A (Fulfilled 2) all_enabled).
  - apply connected_A_reachable.
  - reflexivity.
Defined.

Lemma invariant_connections_get (t : string) (st : state) :
  invariant st →
  match connections_get t st with
  | Some (r, o) => connections (this st) !! t = Some r ∧ connected o = true
  | None => connections (this st) !! t = None
  end.
Proof.
  intros [Hc _]. destruct (connections_get t st) as [[r o]|] eqn:Hget.
  - apply connections_get_Some in Hget as [Hr Ho]. split; [done|].
    destruct (Hc t r Hr) as (o' & Ho' & Hco'). congruence.
  - destruct (connections (this st) !! t) as [r|] eqn:Hr; [|done].
    destruct (Hc t r Hr) as (o' & Ho' & _).
    unfold connections_get in Hget. rewrite Hr in Hget. simpl in Hget.
    by rewrite Ho' in Hget.
Qed.

Lemma disconnect_on_closed_get_other (t t' : string) (r : ref)
    (closed : outcome unit) (st : state) :
  invariant st → connections (this st) !! t = Some r → t' ≠ t →
  connections_get t' (disconnect_on_closed t r closed st).2
  = connections_get t' st.
Proof.
  intros [Hc Hd] Hr Hne. unfold connections_get.
  rewrite disconnect_on_closed_connections, lookup_delete_ne by done.
  destruct (connections (this st) !! t') as [r'|] eqn:Hr'; [|done]. simpl.
  destruct closed; simpl; [|done].
  rewrite lookup_alter_ne; [done|]. intros <-. destruct Hne. by eapply Hd.
Qed.

(** X2. [disconnect] never rejects, also when [close()] does.  Afterwards
    the target is not a key of the map and is not connected, every other
    target is as it was, and the only library call made is one [close] on the
    channel of the entry, or none when the target had no entry. *)
Theorem disconnect_removes (targetId : string) (closed : outcome unit)
    (st : state) :
  reachable st →
  let run := disconnect targetId closed st in
  run.1 = Fulfilled () ∧
  connections (this run.2) = delete targetId (connections (this st)) ∧
  isConnected targetId run.2 = false ∧
  (∀ t, t ≠ targetId → connections_get t run.2 = connections_get t st) ∧
  calls run.2 = calls st ++ match connections_get targetId st with
                            | Some (_, connection) =>
                                [Send (client connection) close]
                            | None => []
                            end.
Proof.
  intros Hinv%reachable_invariant run. subst run.
  pose proof (invariant_connections_get targetId st Hinv) as Hget.
  unfold disconnect, disconnect_call.
  destruct (connections_get targetId st) as [[r o]|] eqn:Hg.
  - destruct Hget as [Hr ->].
    set (st1 := issue (Send (client o) close) st).
    assert (invariant st1) as Hinv1 by done.
    split; [by destruct closed|].
    split; [by rewrite disconnect_on_closed_connections|].
    split.
    { unfold isConnected, connections_get.
      by rewrite disconnect_on_closed_connections, lookup_delete_eq. }
    split.
    { intros t Hne. by rewrite disconnect_on_closed_get_other. }
    by destruct closed.
  - simpl. split; [done|]. split; [by rewrite delete_id|].
    split; [unfold isConnected; by rewrite Hg|].
    split; [done|]. by rewrite app_nil_r.
Qed.

Lemma disconnect_removes_witness :
  isConnected "A"
    (disconnect "A" (Rejected (Error "socket closed")) connected_A_B).2
  = false ∧
  connections_get "B"
    (disconnect "A" (Rejected (Error "socket closed")) connected_A_B).2
  = connections_get "B" connected_A_B.
Proof.
  pose proof (disconnect_removes "A" (Rejected (Error "socket closed"))
                connected_A_B connected_A_B_reachable)
    as (_ & _ & H1 & H2 & _).
  split; [exact H1 | apply H2; discriminate].
Defined.

(** ** disconnectAll *)

Lemma issue_all_cons (c : call) (cs : list call) (st : state) :
  issue_all cs (issue c st) = issue_all (c :: cs) st.
Proof. unfold issue_all, issue. simpl. by rewrite <- app_assoc. Qed.

Lemma issue_all_nil (st : state) : issue_all [] st = st.
Proof. destruct st. unfold issue_all. simpl. by rewrite app_nil_r. Qed.

(** The calls of [disconnect] that [disconnectAll] makes: what each holds
    and the [close] calls, as the state before them tells. *)
Lemma disconnectAll_step_run (st0 : state) (keys : list string)
    (acc : list (string * ref) * state) :
  same_sessions st0 acc.2 →
  foldl disconnectAll_step acc keys
  = (acc.1 ++ omap (held st0) keys,
     issue_all (omap (close_call st0) keys) acc.2).
Proof.
  revert acc. induction keys as [|t keys IH]; intros [pending st] Hs.
  - simpl. by rewrite app_nil_r, issue_all_nil.
  - simpl in *. unfold disconnectAll_step at 2, disconnect_call. simpl.
    rewrite (connections_get_same t st0 st Hs).
    assert (held st0 t
            = match connections_get t st0 with
              | Some (r, o) => if connected o then Some (t, r) else None
              | None => None
              end) as -> by done.
    assert (close_call st0 t
            = match connections_get t st0 with
              | Some (_, o) =>
                  if connected o then Some (Send (client o) close) else None
              | None => None
              end) as -> by done.
    destruct (connections_get t st0) as [[r o]|].
    + destruct (connected o).
      * rewrite IH by done. simpl.
        by rewrite <- app_assoc, issue_all_cons.
      * by rewrite IH.
    + by rewrite IH.
Qed.

Lemma disconnectAll_resume_connections (closed : string → outcome unit)
    (pending : list (string * ref)) (st : state) :
  connections (this (disconnectAll_resume closed pending st))
  = foldl (λ m p, delete p.1 m) (connections (this st)) pending
  ∧ calls (disconnectAll_resume closed pending st) = calls st.
Proof.
  revert st. induction pending as [|[t r] pending IH]; intros st; [done|].
  simpl. destruct (IH (disconnect_on_closed t r (closed t) st).2) as [-> ->].
  rewrite disconnect_on_closed_connections. split; [done|].
  by destruct (closed t).
Qed.

Lemma lookup_foldl_delete (pending : list (string * ref))
    (m : gmap string ref) (t : string) :
  foldl (λ m p, delete p.1 m) m pending !! t
  = if decide (t ∈ pending.*1) then None else m !! t.
Proof.
  revert m. induction pending as [|[t' r] pending IH]; intros m; [done|].
  simpl. rewrite IH.
  destruct (decide (t ∈ pending.*1)) as [Hin|Hnin].
  - rewrite decide_True; [done | by right].
  - destruct (decide (t = t')) as [->|Hne].
    + rewrite decide_True by by left. by rewrite lookup_delete_eq.
    + rewrite decide_False.
      * by rewrite lookup_delete_ne.
      * intros [?|?]%elem_of_cons; done.
Qed.

Lemma held_keys (st : state) (keys : list string) :
  invariant st →
  (∀ t, t ∈ keys → is_Some (connections (this st) !! t)) →
  (omap (held st) keys).*1 = keys
  ∧ length (omap (close_call st) keys) = length keys.
Proof.
  intros Hinv. induction keys as [|t keys IH]; intros Hkeys; [done|].
  destruct IH as [IH1 IH2]; [intros t' Ht'; apply Hkeys; by right|].
  pose proof (invariant_connections_get t st Hinv) as Hget.
  destruct (Hkeys t) as [r Hr]; [by left|].
  assert (held st t = Some (t, r)
          ∧ ∃ c, close_call st t = Some c) as [Hh [c Hc]].
  { unfold held, close_call.
    destruct (connections_get t st) as [[r' o]|]; [|congruence].
    destruct Hget as [Hr' ->]. split; [congruence | by eexists]. }
  change (omap (held st) (t :: keys))
    with (match held st t with
          | Some y => y :: omap (held st) keys
          | None => omap (held st) keys
          end).
  change (omap (close_call st) (t :: keys))
    with (match close_call st t with
          | Some y => y :: omap (close_call st) keys
          | None => omap (close_call st) keys
          end).
  rewrite Hh, Hc, fmap_cons, IH1. simpl. by rewrite IH2.
Qed.

(** X3. [disconnectAll] never rejects and leaves the map empty, whatever
    the [close] calls answer: no target is connected afterwards.  It sends
    one [close] per entry of the map and nothing else, and a second
    [disconnectAll] changes nothing and makes no call. *)
Theorem disconnectAll_empties (closed : string → outcome unit) (st : state) :
  reachable st →
  let run := disconnectAll closed st in
  run.1 = Fulfilled () ∧
  connections (this run.2) = ∅ ∧
  getActiveConnections run.2 = [] ∧
  (∀ t, isConnected t run.2 = false) ∧
  calls run.2 = calls st ++ close_calls st ∧
  length (close_calls st) = size (connections (this st)) ∧
  (∀ closed', disconnectAll closed' run.2 = (Fulfilled (), run.2)).
Proof.
  intros Hinv%reachable_invariant run. subst run.
  destruct (held_keys st (connections_keys st) Hinv) as [Hheld Hlen].
  { intros t. by apply elem_of_connections_keys. }
  unfold disconnectAll, disconnectAll_call.
  rewrite (disconnectAll_step_run st) by done. simpl.
  set (pending := omap (held st) (connections_keys st)) in *.
  set (st1 := issue_all (omap (close_call st) (connections_keys st)) st).
  destruct (disconnectAll_resume_connections closed pending st1)
    as [Hconn Hcalls].
  assert (connections (this (disconnectAll_resume closed pending st1)) = ∅)
    as Hempty.
  { apply map_empty. intros t. rewrite Hconn, lookup_foldl_delete, Hheld.
    destruct (decide (t ∈ connections_keys st)) as [Hin|Hnin]; [done|].
    simpl. destruct (connections (this st) !! t) as [r|] eqn:Hr; [|done].
    destruct Hnin. apply elem_of_connections_keys. by exists r. }
  assert (connections_keys (disconnectAll_resume closed pending st1) = [])
    as Hkeys.
  { unfold connections_keys. by rewrite Hempty, map_to_list_empty. }
  split; [done|]. split; [done|].
  split; [unfold getActiveConnections; by rewrite Hkeys|].
  split.
  { intros t. unfold isConnected, connections_get.
    by rewrite Hempty, lookup_empty. }
  split; [by rewrite Hcalls|].
  split.
  { unfold close_calls. rewrite Hlen. unfold connections_keys.
    by rewrite length_fmap, length_map_to_list. }
  intros closed'. unfold disconnectAll, disconnectAll_call. by rewrite Hkeys.
Qed.

Lemma disconnectAll_empties_witness :
  connections
    (this (disconnectAll (λ _, Rejected (Error "socket closed"))
             connected_A_B).2) = ∅ ∧
  length (close_calls connected_A_B) = 2.
Proof.
  pose proof (disconnectAll_empties (λ _, Rejected (Error "socket closed"))
                connected_A_B connected_A_B_reachable)
    as (_ & H1 & _ & _ & _ & H2 & _).
  split; [exact H1 | exact H2].
Defined.

(** X4. Round trip: on a target that is not a key of the map, a successful
    [connect] followed by [disconnect] leaves the map as it was and every
    target as connected as before; the channel that was opened has received
    the four [enable]s and one [close]. *)
Theorem connect_disconnect_round_trip (targetId : string) (c : chan)
    (closed : outcome unit) (st : state) :
  reachable st → connections (this st) !! targetId = None →
  let st1 := (connect targetId (Fulfilled c) all_enabled st).2 in
  let st2 := (disconnect targetId closed st1).2 in
  isConnected targetId st1 = true ∧
  connections (this st2) = connections (this st) ∧
  (∀ t, connections_get t st2 = connections_get t st) ∧
  calls st2 = calls st ++ CDP_new (host (this st)) (port (this st)) targetId
                          :: enable_calls c ++ [Send c close].
Proof.
  intros Hinv%reachable_invariant Hnone st1 st2.
  assert (connections_get targetId st = None) as Hget.
  { unfold connections_get. by rewrite Hnone. }
  assert (isConnected targetId st = false) as Hnc.
  { unfold isConnected. by rewrite Hget. }
  set (st0 := issue_all (enable_calls c)
                (issue (CDP_new (host (this st)) (port (this st)) targetId)
                   st)).
  set (o := {| targetId := targetId; client := c; connected := true |}).
  assert (st1 = connections_set targetId o st0) as Hst1.
  { subst st1. unfold connect. by rewrite connect_call_not_connected. }
  assert (invariant st0) as Hinv0 by done.
  destruct (fresh_unused st0 Hinv0) as [Hfresh Hunused].
  assert (st2 = (disconnect_on_closed targetId (fresh (dom (objects st0)))
                   closed (issue (Send c close) st1)).2) as Hst2.
  { subst st2. unfold disconnect, disconnect_call.
    by rewrite Hst1, connections_get_new. }
  split; [rewrite Hst1; unfold isConnected; by rewrite connections_get_new|].
  assert (connections (this st2) = connections (this st)) as Hconn.
  { rewrite Hst2, disconnect_on_closed_connections, Hst1. simpl.
    by rewrite delete_insert_eq, delete_id. }
  split; [exact Hconn|]. split.
  - intros t. unfold connections_get. rewrite Hconn.
    destruct (connections (this st) !! t) as [r|] eqn:Hr; [|done]. simpl.
    assert (r ≠ fresh (dom (objects st0))) as Hne.
    { intros ->. by eapply Hunused. }
    rewrite Hst2, Hst1. destruct closed; simpl.
    + by rewrite lookup_alter_ne, lookup_insert_ne.
    + by rewrite lookup_insert_ne.
  - rewrite Hst2, Hst1. destruct closed; simpl;
      by rewrite <- !app_assoc.
Qed.

Lemma connect_disconnect_round_trip_witness :
  connections
    (this (disconnect "B" (Fulfilled ())
             (connect "B" (Fulfilled 2) all_enabled connected_A).2).2)
  = connections (this connected_A).
Proof.
  apply (connect_disconnect_round_trip "B" 2 (Fulfilled ()) connected_A).
  - apply connected_A_reachable.
  - reflexivity.
Defined.

(** ** What the operations on a session leave alone, and how they fail *)

(** X5. [listTargets] and the seven operations on a session never change
    the map or a connection object, whatever the library answers: every
    target is as connected after the operation as before, and
    [getActiveConnections()] returns the same list. *)
Theorem reads_keep_sessions (op : operation) (st : state) :
  reads_only op = true →
  this (run op st) = this st ∧ objects (run op st) = objects st ∧
  (∀ t, isConnected t (run op st) = isConnected t st) ∧
  getActiveConnections (run op st) = getActiveConnections st.
Proof.
  intros Hop. pose proof (session_operation_same op st) as Hs.
  assert (same_sessions st (run op st)) as [Ht Ho] by by destruct op.
  split; [done|]. split; [done|]. split.
  - intros t. by apply isConnected_same.
  - unfold getActiveConnections, connections_keys, connections_get.
    by rewrite Ht, Ho.
Qed.

Lemma reads_keep_sessions_witness :
  getActiveConnections
    (run (do_evaluate "A" "null.x" null_x_threw) connected_A_B)
  = getActiveConnections connected_A_B.
Proof.
  apply (reads_keep_sessions (do_evaluate "A" "null.x" null_x_threw)).
  reflexivity.
Defined.

(** Case analysis of a session operation: the connection, then each reply. *)
Ltac session_cases :=
  unfold bind, try_catch, await, ret, throw;
  match goal with
  | |- context [getConnection ?t ?st] =>
      unfold getConnection;
      destruct (connections_get t st) as [[? [? ? []]]|]; simpl
  end;
  repeat match goal with
         | |- context [match ?o with Fulfilled _ => _ | Rejected _ => _ end] =>
             destruct o; simpl
         | |- context [match ?o with Some _ => _ | None => _ end] =>
             destruct o; simpl
         end.

(** X6. Whatever the state and whatever the library answers, an operation
    of the client that is rejected is rejected with a [CDPError] (class
    [CDPError], code [CDP_ERROR]); [disconnect] and [disconnectAll] are never
    rejected. *)
Theorem rejections_are_CDPError (op : operation) (st : state)
    (e : js_error) :
  run_rejection op st = Some e →
  is_CDPError e ∧
  match op with
  | do_disconnect _ _ | do_disconnectAll _ => False
  | _ => True
  end.
Proof.
  destruct op; simpl.
  - unfold listTargets, try_catch, bind, await, ret.
    destruct reply; simpl; [done|]. by intros [= <-].
  - unfold connect, connect_call, connect_on_client, connect_on_enabled.
    destruct (connections_get targetId0 st) as [[? [? ? []]]|]; simpl;
      try done;
      (destruct opened; simpl; try (by intros [= <-]));
      (destruct en as [[[]|?] [[]|?] [[]|?] [[]|?]]; simpl; try done;
       by intros [= <-]).
  - unfold disconnect, disconnect_call.
    destruct (connections_get targetId0 st) as [[? [? ? []]]|]; simpl;
      try done.
    by destruct closed.
  - unfold disconnectAll. by destruct (disconnectAll_call st).
  - unfold getDocument. session_cases; try done; by intros [= <-].
  - unfold querySelector. session_cases; try done; by intros [= <-].
  - unfold querySelectorAll. session_cases; try done; by intros [= <-].
  - unfold getNodeAttributes. session_cases; try done; by intros [= <-].
  - unfold getOuterHTML. session_cases; try done; by intros [= <-].
  - unfold evaluate. session_cases; try done; by intros [= <-].
  - unfold screenshot. session_cases; try done; by intros [= <-].
Qed.

Lemma rejections_are_CDPError_witness :
  is_CDPError (not_connected "B").
Proof.
  apply (rejections_are_CDPError
           (do_getOuterHTML "B" 3 (Fulfilled "<p></p>")) connected_A
           (not_connected "B")).
  reflexivity.
Defined.

(** X7. [querySelector] is never fulfilled with node id [0].  On a
    connected session, a reply with a node id other than [0] is returned as
    it is, the query having been sent for the node id of the document root;
    and when the implicit [DOM.getDocument] is rejected, the selector query
    is not sent and the operation is rejected with "Failed to query selector
    ..." carrying the message of that rejection. *)
Theorem querySelector_result (targetId selector : string) (st : state)
    (r : ref) (connection : CDPConnection) :
  connections_get targetId st = Some (r, connection) →
  connected connection = true →
  let c := client connection in
  let asked := issue (Send c (DOM_getDocument None)) st in
  (∀ document reply,
     (querySelector targetId selector document reply st).1
     ≠ Fulfilled (Some 0%Z)) ∧
  (∀ root n, n ≠ 0%Z →
     querySelector targetId selector (Fulfilled root) (Fulfilled (Some n)) st
     = (Fulfilled (Some n),
        issue (Send c (DOM_querySelector (nodeId root) selector)) asked)) ∧
  (∀ error reply,
     querySelector targetId selector (Rejected error) reply st
     = (Rejected (query_failed selector error), asked)) ∧
  (∀ error reply,
     querySelectorAll targetId selector (Rejected error) reply st
     = (Rejected (query_all_failed selector error), asked)).
Proof.
  intros Hget Hc c asked. repeat split; intros.
  - unfold querySelector. run_connected Hget Hc.
    destruct document as [root|e]; simpl; [|done].
    destruct reply as [[n|]|e]; simpl; try done.
    unfold or_null. destruct (decide (n = 0%Z)); [done|]. congruence.
  - unfold querySelector. run_connected Hget Hc.
    unfold or_null. by rewrite decide_False.
  - unfold querySelector. by run_connected Hget Hc.
  - unfold querySelectorAll. by run_connected Hget Hc.
Qed.

Lemma querySelector_result_witness :
  querySelector "A" "#save" (Fulfilled document_root) (Fulfilled (Some 12%Z))
    connected_A
  = (Fulfilled (Some 12%Z),
     issue (Send 1 (DOM_querySelector 1 "#save"))
       (issue (Send 1 (DOM_getDocument None)) connected_A)).
Proof.
  pose proof (querySelector_result "A" "#save" connected_A 0 session_A
                eq_refl eq_refl) as (_ & H & _).
  apply (H document_root 12%Z). discriminate.
Defined.

(** X8. On a connected session, [evaluate] is fulfilled exactly when the
    reply arrives and carries no [exceptionDetails], and then with
    [result.value] as it is.  An exception whose text is empty is reported
    as "JavaScript execution failed". *)
Theorem evaluate_fulfilled_iff (targetId expression : string) (st : state)
    (r : ref) (connection : CDPConnection) (reply : outcome evaluate_reply)
    (v : js_value) :
  connections_get targetId st = Some (r, connection) →
  connected connection = true →
  ((evaluate targetId expression reply st).1 = Fulfilled v ↔
   ∃ res, reply = Fulfilled res ∧ exceptionDetails res = None
          ∧ result_value res = v) ∧
  (evaluate targetId expression
     (Fulfilled {| result_value := v;
                   exceptionDetails := Some {| text := EmptyString |} |})
     st).1
  = Rejected (evaluate_failed expression "JavaScript execution failed").
Proof.
  intros Hget Hc. split.
  - unfold evaluate. run_connected Hget Hc.
    destruct reply as [[v' [d|]]|e]; simpl; split; try done.
    + intros (res & Heq & Hn & _). injection Heq as <-. discriminate Hn.
    + intros [= <-]. by eexists.
    + intros (res & Heq & _ & Hv). injection Heq as <-. simpl in Hv.
      congruence.
    + by intros (res & ? & _).
  - unfold evaluate. by run_connected Hget Hc.
Qed.

Lemma evaluate_fulfilled_iff_witness :
  (evaluate "A" "1+1"
     (Fulfilled {| result_value := JNumber 2; exceptionDetails := None |})
     connected_A).1 = Fulfilled (JNumber 2).
Proof.
  apply (evaluate_fulfilled_iff "A" "1+1" connected_A 0 session_A
           (Fulfilled {| result_value := JNumber 2;
                         exceptionDetails := None |}) (JNumber 2)
           eq_refl eq_refl).
  by eexists.
Defined.

(** ** The decoding of attributes *)

Lemma fold_pairs_lookup_notin (pairs : list (string * string))
    (m : gmap string attribute_value) (n : string) :
  n ∉ pairs.*1 →
  foldl (λ m p, <[p.1 := value p.2]> m) m pairs !! n = m !! n.
Proof.
  revert m. induction pairs as [|[n' v'] pairs IH]; intros m Hn; [done|].
  apply not_elem_of_cons in Hn as [Hne Hn]. simpl.
  rewrite IH by done. by rewrite lookup_insert_ne.
Qed.

(** X9. In the mapping decoded from a payload of name/value pairs, the
    name [__proto__] has no entry, whether it occurs in the payload or not.
    A name that does not occur has no entry, and a name other than
    [__proto__] that occurs is bound to the value of its last occurrence. *)
Theorem decode_attributes_lookup (pairs : list (string * string))
    (n : string) :
  decode_attributes (alternating pairs) !! "__proto__" = None ∧
  (n ∉ pairs.*1 → decode_attributes (alternating pairs) !! n = None) ∧
  (n ≠ "__proto__" →
   ∀ before v after,
     pairs = before ++ (n, v) :: after → n ∉ after.*1 →
     decode_attributes (alternating pairs) !! n = Some (value v)).
Proof.
  rewrite decode_attributes_fold. unfold fold_pairwise.
  split; [apply lookup_delete_eq|]. split.
  - intros Hn. apply lookup_delete_None. right.
    by rewrite fold_pairs_lookup_notin.
  - intros Hne before v after -> Hn. rewrite lookup_delete_ne by done.
    rewrite foldl_app. simpl.
    rewrite fold_pairs_lookup_notin by done. by rewrite lookup_insert_eq.
Qed.

Lemma decode_attributes_lookup_witness :
  decode_attributes ["class"; "a"; "id"; "x"; "class"; "b"] !! "class"
  = Some (value "b").
Proof.
  pose proof (decode_attributes_lookup
                [("class", "a"); ("id", "x"); ("class", "b")] "class")
    as (_ & _ & H).
  apply (H ltac:(discriminate) [("class", "a"); ("id", "x")] "b" []);
    [reflexivity|].
  apply not_elem_of_nil.
Defined.

(** ** Calls that overlap *)

Lemma disconnect_spawn_connected (t : string) (st : state) (r : ref)
    (o : CDPConnection) :
  connections_get t st = Some (r, o) → connected o = true →
  disconnect_spawn t st
  = (await_close t r, issue (Send (client o) close) st).
Proof.
  intros Hget Hc. unfold disconnect_spawn, disconnect_call.
  by rewrite Hget, Hc.
Qed.

(** X11. [disconnect] does not notice a [disconnect] of the same target
    that is in flight: of two overlapping calls on a connected target each
    sends [close] on the same channel, and in whichever order the two
    [close] promises settle, and however, both calls are fulfilled and the
    target is no longer a key of the map. *)
Theorem disconnect_twice_closes_twice (t : string) (st : state) (r : ref)
    (o : CDPConnection) (c0 c1 : outcome unit) :
  reachable st → connections_get t st = Some (r, o) →
  let closing := issue (Send (client o) close)
                   (issue (Send (client o) close) st) in
  run_events [calls_disconnect t; calls_disconnect t] st
  = ([await_close t r; await_close t r], closing) ∧
  ∀ i j, (i = 0 ∧ j = 1) ∨ (i = 1 ∧ j = 0) →
    let final := run_events [calls_disconnect t; calls_disconnect t;
                             settles i (close_settles c0);
                             settles j (close_settles c1)] st in
    final.1 = [settled (Fulfilled ()); settled (Fulfilled ())] ∧
    connections (this final.2) = delete t (connections (this st)) ∧
    calls final.2 = calls closing.
Proof.
  intros Hinv%reachable_invariant Hget closing.
  pose proof (invariant_connections_get t st Hinv) as Hi.
  rewrite Hget in Hi. destruct Hi as [_ Hc].
  assert (connections_get t (issue (Send (client o) close) st)
          = Some (r, o)) as Hget' by exact Hget.
  assert (run_events [calls_disconnect t; calls_disconnect t] st
          = ([await_close t r; await_close t r], closing)) as Hcalls.
  { unfold run_events, spawn_disconnect. simpl. unfold spawn_disconnect. simpl.
    rewrite (disconnect_spawn_connected _ _ _ _ Hget Hc). simpl.
    by rewrite (disconnect_spawn_connected _ _ _ _ Hget' Hc). }
  split; [exact Hcalls|].
  intros i j Hij final. subst final. unfold run_events in *.
  change (foldl step ([], st)
            [calls_disconnect t; calls_disconnect t;
             settles i (close_settles c0); settles j (close_settles c1)])
    with (foldl step
            (foldl step ([], st) [calls_disconnect t; calls_disconnect t])
            [settles i (close_settles c0); settles j (close_settles c1)]).
  rewrite Hcalls.
  destruct Hij as [[-> ->]|[-> ->]]; destruct c0, c1; simpl;
    (split; [done|]); (split; [by rewrite delete_delete_eq | done]).
Qed.

Lemma disconnect_twice_closes_twice_witness :
  run_events [calls_disconnect "A"; calls_disconnect "A"] connected_A
  = ([await_close "A" 0; await_close "A" 0],
     issue (Send 1 close) (issue (Send 1 close) connected_A)).
Proof.
  apply (disconnect_twice_closes_twice "A" connected_A 0 session_A
           (Fulfilled ()) (Fulfilled ()) connected_A_reachable eq_refl).
Defined.

Lemma resume_connected (t : string) (k k' : task) (s : settlement)
    (st st' : state) :
  invariant st → not_closing k → resume k s st = Some (k', st') →
  isConnected t st = true → isConnected t st' = true ∧ not_closing k'.
Proof.
  intros Hinv Hk Hr Ht.
  destruct k as [t0|t0 c|t0 r|o], s as [opened|en|closed]; simpl in Hr;
    try done.
  - destruct opened; simpl in Hr; injection Hr as <- <-; split; try done;
      by rewrite (isConnected_same t st).
  - unfold connect_on_enabled in Hr.
    destruct (Promise_all (enable_promises en)); simpl in Hr;
      injection Hr as <- <-; (split; [|done]); [|done].
    unfold isConnected in *. destruct (decide (t = t0)) as [->|Hne].
    + by rewrite connections_get_new.
    + by rewrite connections_get_other.
Qed.

Lemma step_connected (t : string) (acc : list task * state) (ev : event) :
  no_disconnect ev = true →
  invariant acc.2 → Forall not_closing acc.1 → isConnected t acc.2 = true →
  isConnected t (step acc ev).2 = true ∧ Forall not_closing (step acc ev).1.
Proof.
  intros Hev Hinv Hpool Ht. destruct acc as [tasks st].
  destruct ev as [t0|t0| |i s]; try done; simpl in *.
  - unfold connect_spawn, connect_call.
    destruct (connections_get t0 st) as [[r o]|]; [destruct (connected o)|];
      simpl; (split; [done|]); apply Forall_app; split; try done;
      by apply Forall_singleton.
  - destruct (tasks !! i) as [k|] eqn:Hi; [|done].
    destruct (resume k s st) as [[k' st']|] eqn:Hr; [|done]. simpl.
    pose proof (Forall_lookup_1 _ _ _ _ Hpool Hi) as Hk.
    destruct (resume_connected t k k' s st st' Hinv Hk Hr Ht) as [Ht' Hk'].
    split; [done|]. by apply Forall_insert.
Qed.

(** X12. [connect] never disconnects: while the only calls are calls of
    [connect], in whatever number and however they overlap and settle, a
    target that is connected stays connected. *)
Theorem connects_keep_connected (t : string) (evs : list event)
    (st : state) :
  reachable st → forallb no_disconnect evs = true →
  isConnected t st = true →
  isConnected t (run_events evs st).2 = true.
Proof.
  intros Hinv%reachable_invariant Hevs Ht. unfold run_events.
  assert (pool_invariant ([], st)) as Hp by (split; [done | constructor]).
  assert (Forall not_closing (([], st) : list task * state).1) as Hn
    by constructor.
  change (isConnected t (([], st) : list task * state).2 = true) in Ht.
  revert Hp Hn Ht. generalize (([], st) : list task * state).
  induction evs as [|ev evs IH]; intros acc Hp Hn Ht; [done|].
  simpl in Hevs. apply andb_prop in Hevs as [Hev Hevs]. simpl.
  destruct (step_connected t acc ev Hev (proj1 Hp) Hn Ht) as [Ht' Hn'].
  apply IH; [done | by apply step_pool | done | done].
Qed.

Lemma connects_keep_connected_witness :
  isConnected "A"
    (run_events [calls_connect "A"; calls_connect "B";
                 settles 1 (client_settles (Fulfilled 2));
                 settles 1 (enable_settles runtime_fails)] connected_A).2
  = true.
Proof.
  apply (connects_keep_connected "A"); [|reflexivity|reflexivity].
  apply connected_A_reachable.
Defined.

Lemma step_settles (acc : list task * state) (i : nat) (s : settlement)
    (k k' : task) (st' : state) :
  acc.1 !! i = Some k → resume k s acc.2 = Some (k', st') →
  step acc (settles i s) = (<[i := k']> acc.1, st').
Proof. intros Hi Hr. simpl. by rewrite Hi, Hr. Qed.

Lemma disconnect_on_closed_client (t : string) (r : ref)
    (closed : outcome unit) (st : state) :
  host (this (disconnect_on_closed t r closed st).2) = host (this st)
  ∧ port (this (disconnect_on_closed t r closed st).2) = port (this st)
  ∧ calls (disconnect_on_closed t r closed st).2 = calls st
  ∧ (disconnect_on_closed t r closed st).1 = Fulfilled ().
Proof. by destruct closed. Qed.

Lemma resume_close (t : string) (r : ref) (closed : outcome unit)
    (st : state) :
  resume (await_close t r) (close_settles closed) st
  = Some (settled (Fulfilled ()), (disconnect_on_closed t r closed st).2).
Proof. by destruct closed. Qed.

Lemma isConnected_deleted (t : string) (r : ref) (closed : outcome unit)
    (st : state) :
  isConnected t (disconnect_on_closed t r closed st).2 = false.
Proof.
  unfold isConnected, connections_get.
  by rewrite disconnect_on_closed_connections, lookup_delete_eq.
Qed.

(** X13. A [disconnect] that resumes late removes a session it did not
    close.  Two calls of [disconnect(t)] overlap on a connected target; the
    first settles, then a [connect(t)] opens channel [c2] and is fulfilled,
    so that [t] is connected on [c2]; when the second [disconnect] resumes
    it deletes the key [t]: the target is no longer connected although no
    [close] was sent for the new session. *)
Theorem late_disconnect_drops_new_session (t : string) (st : state)
    (r : ref) (o : CDPConnection) (c2 : chan) (c0 c1 : outcome unit) :
  reachable st → connections_get t st = Some (r, o) →
  let evs := [calls_disconnect t; calls_disconnect t;
              settles 0 (close_settles c0); calls_connect t;
              settles 2 (client_settles (Fulfilled c2));
              settles 2 (enable_settles all_enabled)] in
  let before := run_events evs st in
  let after := run_events (evs ++ [settles 1 (close_settles c1)]) st in
  before.1 = [settled (Fulfilled ()); await_close t r;
              settled (Fulfilled ())] ∧
  (∃ r2, connections_get t before.2
         = Some (r2, {| targetId := t; client := c2; connected := true |})) ∧
  after.1 = [settled (Fulfilled ()); settled (Fulfilled ());
             settled (Fulfilled ())] ∧
  isConnected t after.2 = false ∧
  calls after.2
  = calls st ++ [Send (client o) close; Send (client o) close;
                 CDP_new (host (this st)) (port (this st)) t]
             ++ enable_calls c2.
Proof.
  intros Hinv%reachable_invariant Hget evs before after.
  pose proof (invariant_connections_get t st Hinv) as Hi.
  rewrite Hget in Hi. destruct Hi as [_ Hc].
  set (st1 := issue (Send (client o) close) st).
  set (st2 := issue (Send (client o) close) st1).
  set (st3 := (disconnect_on_closed t r c0 st2).2).
  set (st4 := issue (CDP_new (host (this st)) (port (this st)) t) st3).
  set (st5 := issue_all (enable_calls c2) st4).
  set (new := {| targetId := t; client := c2; connected := true |}).
  set (st6 := connections_set t new st5).
  set (st7 := (disconnect_on_closed t r c1 st6).2).
  destruct (disconnect_on_closed_client t r c0 st2) as (Hh & Hp & Hcalls3 & Ho3).
  destruct (disconnect_on_closed_client t r c1 st6) as (_ & _ & Hcalls7 & Ho7).
  fold st3 in Hh, Hp, Hcalls3. fold st7 in Hcalls7.
  assert (before = ([settled (Fulfilled ()); await_close t r;
                     settled (Fulfilled ())], st6)) as Hbefore.
  { subst before evs. unfold run_events. cbn [foldl].
    assert (step ([], st) (calls_disconnect t) = ([await_close t r], st1))
      as ->.
    { simpl. unfold spawn_disconnect. simpl.
      by rewrite (disconnect_spawn_connected _ _ _ _ Hget Hc). }
    assert (step ([await_close t r], st1) (calls_disconnect t)
            = ([await_close t r; await_close t r], st2)) as ->.
    { simpl. unfold spawn_disconnect. simpl.
      by rewrite (disconnect_spawn_connected t st1 r o Hget Hc). }
    rewrite (step_settles ([await_close t r; await_close t r], st2) 0
               (close_settles c0) (await_close t r) (settled (Fulfilled ()))
               st3); [|reflexivity | apply resume_close].
    assert (step (<[0:=settled (Fulfilled ())]>
                    ([await_close t r; await_close t r], st2).1, st3)
              (calls_connect t)
            = ([settled (Fulfilled ()); await_close t r; await_CDP t], st4))
      as ->.
    { simpl. rewrite connect_spawn_not_connected;
        [|apply isConnected_deleted].
      fold st3. by rewrite Hh, Hp. }
    rewrite (step_settles
               ([settled (Fulfilled ()); await_close t r; await_CDP t], st4)
               2 (client_settles (Fulfilled c2)) (await_CDP t)
               (await_enable t c2) st5); [|reflexivity..].
    by rewrite (step_settles
                  (<[2:=await_enable t c2]>
                     [settled (Fulfilled ()); await_close t r; await_CDP t],
                   st5)
                  2 (enable_settles all_enabled) (await_enable t c2)
                  (settled (Fulfilled ())) st6); [|reflexivity..]. }
  assert (after = ([settled (Fulfilled ()); settled (Fulfilled ());
                    settled (Fulfilled ())], st7)) as Hafter.
  { subst after. unfold run_events in *. rewrite foldl_app.
    fold before. rewrite Hbefore. cbn [foldl].
    by rewrite (step_settles
                  ([settled (Fulfilled ()); await_close t r;
                    settled (Fulfilled ())], st6)
                  1 (close_settles c1) (await_close t r)
                  (settled (Fulfilled ())) st7);
      [|reflexivity | apply resume_close]. }
  rewrite Hbefore, Hafter. simpl.
  split; [done|]. split.
  { eexists. unfold st6. by rewrite connections_get_new. }
  split; [done|]. split; [apply isConnected_deleted|].
  rewrite Hcalls7. simpl. rewrite Hcalls3. simpl.
  by rewrite <- !app_assoc.
Qed.

Lemma late_disconnect_drops_new_session_witness :
  isConnected "A"
    (run_events [calls_disconnect "A"; calls_disconnect "A";
                 settles 0 (close_settles (Fulfilled ())); calls_connect "A";
                 settles 2 (client_settles (Fulfilled 2));
                 settles 2 (enable_settles all_enabled);
                 settles 1 (close_settles (Fulfilled ()))] connected_A).2
  = false.
Proof.
  apply (late_disconnect_drops_new_session "A" connected_A 0 session_A 2
           (Fulfilled ()) (Fulfilled ()) connected_A_reachable eq_refl).
Defined.

(** * Properties of the tools *)

(** ** ensureConnected *)

Lemma connect_fulfilled_connected (t : string) (opened : outcome chan)
    (en : enabled) (st : state) :
  (connect t opened en st).1 = Fulfilled () →
  isConnected t (connect t opened en st).2 = true.
Proof.
  unfold connect, connect_call, isConnected.
  destruct (connections_get t st) as [[r o]|] eqn:Hget.
  - destruct (connected o) eqn:Hc; simpl; [by rewrite Hget|].
    destruct opened; simpl; [|done]. unfold connect_on_enabled.
    destruct (Promise_all (enable_promises en)); simpl; [|done].
    by rewrite connections_get_new.
  - destruct opened; simpl; [|done]. unfold connect_on_enabled.
    destruct (Promise_all (enable_promises en)); simpl; [|done].
    by rewrite connections_get_new.
Qed.

Lemma ensureConnected_remembered (ts : tools) (cl : CDPClient) (t : string)
    (listed : outcome (list CDPTarget)) (opened : outcome chan)
    (en : enabled) :
  cdpClient ts = Some cl → connectedTargetId ts = Some t →
  t ≠ EmptyString → isConnected t (client_state cl ts) = true →
  ensureConnected listed opened en ts = (Fulfilled t, ts).
Proof.
  intros Hcl Ht Hne Hc. unfold ensureConnected. rewrite Hcl, Ht. simpl.
  rewrite decide_False by done. rewrite Hc.
  destruct ts. simpl in *. by rewrite Hcl, Ht.
Qed.

(** X14. When the remembered target is connected, [ensureConnected]
    returns it at once: no library call is made, the targets are not listed
    again and the state is unchanged.  So after an [ensureConnected] that
    was fulfilled with a target id that is not empty, every further
    [ensureConnected] returns the same id and changes nothing, whatever the
    library would answer. *)
Theorem ensureConnected_idempotent (ts ts' : tools) (t : string)
    (listed listed' : outcome (list CDPTarget)) (opened opened' : outcome chan)
    (en en' : enabled) :
  ensureConnected listed opened en ts = (Fulfilled t, ts') →
  t ≠ EmptyString →
  ensureConnected listed' opened' en' ts' = (Fulfilled t, ts').
Proof.
  unfold ensureConnected at 1.
  set (cl := match cdpClient ts with
             | Some cl => cl
             | None => new_CDPClient "localhost" 9222
             end).
  destruct (remembered_connected (connectedTargetId ts) (client_state cl ts))
    as [t0|] eqn:Hrem.
  - intros [= <- <-] Hne. unfold remembered_connected in Hrem.
    destruct (connectedTargetId ts) as [t1|] eqn:Ht1; [|done].
    destruct (decide (t1 = EmptyString)); [done|].
    destruct (isConnected t1 (client_state cl ts)) eqn:Hc; [|done].
    injection Hrem as ->.
    by apply (ensureConnected_remembered _ cl).
  - destruct (listTargets listed (client_state cl ts)) as [[targets|e] st1];
      [|done].
    destruct (filter (λ t, type t = "page") targets) as [|first rest];
      [done|].
    pose proof (connect_fulfilled_connected (id first) opened en st1) as Hc.
    destruct (connect (id first) opened en st1) as [[[]|e] st2]; [|done].
    intros [= <- <-] Hne.
    apply (ensureConnected_remembered _ (this st2)); try done.
    destruct st2. by apply Hc.
Qed.

Lemma ensureConnected_idempotent_witness :
  let ts' := (ensureConnected
                (Fulfilled [target "w" "webview"; target "p1" "page"])
                (Fulfilled 1) all_enabled no_tools).2 in
  ensureConnected (Rejected (Error "ECONNREFUSED")) (Rejected (Error "x"))
    runtime_fails ts' = (Fulfilled "p1", ts').
Proof.
  apply (ensureConnected_idempotent no_tools _ "p1"
           (Fulfilled [target "w" "webview"; target "p1" "page"]) _
           (Fulfilled 1) _ all_enabled _).
  - reflexivity.
  - discriminate.
Defined.

(** X15. When no remembered target is connected and discovery or the
    connection fails, [ensureConnected] is rejected with the error of the
    failed step.  A failed [listTargets] leaves the remembered id as it was
    and opens nothing; a failed [connect] leaves the id of the first page
    target remembered although that target is not connected. *)
Theorem ensureConnected_failures (ts : tools) (cl : CDPClient)
    (opened : outcome chan) (en : enabled) :
  cl = default (new_CDPClient "localhost" 9222) (cdpClient ts) →
  remembered_connected (connectedTargetId ts) (client_state cl ts) = None →
  let listed := issue (CDP_List (host cl) (port cl)) (client_state cl ts) in
  (∀ error,
     ensureConnected (Rejected error) opened en ts
     = (Rejected (list_failed cl error),
        tools_state (connectedTargetId ts) listed)) ∧
  (∀ targets first rest error,
     page_targets targets = first :: rest →
     (connect (id first) opened en listed).1 = Rejected error →
     ∃ ts', ensureConnected (Fulfilled targets) opened en ts
            = (Rejected error, ts') ∧
            connectedTargetId ts' = Some (id first) ∧
            (isConnected (id first) listed = false →
             isConnected (id first)
               (client_state (default cl (cdpClient ts')) ts') = false)).
Proof.
  intros Hcl Hrem listed. split.
  - intros error. unfold ensureConnected.
    replace (match cdpClient ts with
             | Some cl0 => cl0
             | None => new_CDPClient "localhost" 9222
             end) with cl by (rewrite Hcl; by destruct (cdpClient ts)).
    by rewrite Hrem.
  - intros targets first rest error Hpage Hconn. unfold ensureConnected.
    replace (match cdpClient ts with
             | Some cl0 => cl0
             | None => new_CDPClient "localhost" 9222
             end) with cl by (rewrite Hcl; by destruct (cdpClient ts)).
    rewrite Hrem, listTargets_fulfilled. fold listed.
    fold (page_targets targets). rewrite Hpage.
    change (issue (CDP_List (host (this (client_state cl ts)))
                     (port (this (client_state cl ts))))
              (client_state cl ts)) with listed.
    pose proof (connect_rejected_same (id first) opened en listed) as Hsame.
    destruct (connect (id first) opened en listed) as [[[]|e] st2];
      [done|]. simpl in Hconn. injection Hconn as ->.
    eexists. split; [done|]. split; [done|]. simpl.
    intros Hnc. destruct st2 as [this2 objs2 calls2].
    destruct (Hsame _ _ eq_refl) as [Ht Ho]. simpl in *.
    unfold client_state. simpl.
    rewrite <- Hnc. unfold isConnected, connections_get. simpl.
    by rewrite Ht, Ho.
Qed.

Lemma ensureConnected_failures_witness :
  ensureConnected (Rejected (Error "ECONNREFUSED")) (Fulfilled 1) all_enabled
    no_tools
  = (Rejected (list_failed (new_CDPClient "localhost" 9222)
                 (Error "ECONNREFUSED")),
     tools_state None (issue (CDP_List "localhost" 9222) initial)).
Proof.
  pose proof (ensureConnected_failures no_tools
                (new_CDPClient "localhost" 9222) (Fulfilled 1) all_enabled
                eq_refl eq_refl) as [H _].
  apply H.
Defined.

(** ** resetConnection *)

Lemma connect_new_client (t : string) (opened : outcome chan) (en : enabled)
    (st : state) :
  connections (this st) = ∅ →
  connect t opened en st
  = match opened with
    | Fulfilled c =>
        connect_on_enabled t c en
          (issue_all (enable_calls c)
             (issue (CDP_new (host (this st)) (port (this st)) t) st))
    | Rejected e =>
        (Rejected (connect_catch t e),
         issue (CDP_new (host (this st)) (port (this st)) t) st)
    end.
Proof.
  intros Hempty. unfold connect. rewrite connect_call_not_connected.
  - by destruct opened.
  - unfold isConnected, connections_get. by rewrite Hempty, lookup_empty.
Qed.

(** X16. [resetConnection] forgets the client and the remembered target
    and connects anew with a new client on localhost:9222.  It reports
    success exactly when the targets are listed, one of them is a page, its
    channel opens and the four [enable]s succeed; the new client then tracks
    that one session and nothing else, on the channel just opened.  In every
    other case the result is an error and both module variables are [null]
    afterwards. *)
Theorem resetConnection_result (closed : outcome unit)
    (listed : outcome (list CDPTarget)) (opened : outcome chan)
    (en : enabled) (ts : tools) :
  let run := resetConnection closed listed opened en ts in
  (isError run.1 = None ↔
   ∃ targets first rest c,
     listed = Fulfilled targets ∧ page_targets targets = first :: rest ∧
     opened = Fulfilled c ∧ en = all_enabled) ∧
  (isError run.1 ≠ None →
   isError run.1 = Some true ∧ cdpClient run.2 = None
   ∧ connectedTargetId run.2 = None) ∧
  (∀ targets first rest c,
     listed = Fulfilled targets → page_targets targets = first :: rest →
     opened = Fulfilled c → en = all_enabled →
     run.1 = text_result
               (literal ("Connection reset successfully. Connected to target: "
                         +:+ id first)) ∧
     connectedTargetId run.2 = Some (id first) ∧
     ∃ cl r, cdpClient run.2 = Some cl ∧
             connections cl = {[ id first := r ]} ∧
             host cl = "localhost" ∧ port cl = 9222%Z ∧
             store run.2 !! r
             = Some {| targetId := id first; client := c;
                       connected := true |}).
Proof.
  intros run. subst run. unfold resetConnection.
  set (ts1 := match cdpClient ts with
              | Some cl =>
                  match truthy (connectedTargetId ts) with
                  | Some targetId =>
                      tools_state (connectedTargetId ts)
                        (disconnect targetId closed (client_state cl ts)).2
                  | None => ts
                  end
              | None => ts
              end).
  unfold ensureConnected. simpl.
  destruct listed as [targets|e].
  2:{ simpl. split; [split; [done | by intros (? & ? & ? & ? & ? & _)]|].
      split; [done|]. by intros. }
  rewrite listTargets_fulfilled. fold (page_targets targets).
  destruct (page_targets targets) as [|first rest] eqn:Hpage.
  { simpl. split; [split; [done|]|].
    { intros (? & ? & ? & ? & [= <-] & ? & _). congruence. }
    split; [done|]. intros ? ? ? ? [= <-]. congruence. }
  rewrite connect_new_client by done.
  destruct opened as [c|e].
  2:{ simpl.
      split; [split; [done | by intros (? & ? & ? & ? & _ & _ & ? & _)]|].
      split; [done|]. by intros. }
  unfold connect_on_enabled.
  destruct (Promise_all (enable_promises en)) as [l|e] eqn:Hall; simpl.
  - assert (en = all_enabled) as -> by (apply all_enabled_iff; eauto).
    split; [split; [|done]|].
    { intros _. by exists targets, first, rest, c. }
    split; [done|].
    intros targets' first' rest' c' [= <-] Hpage' [= <-] _.
    rewrite Hpage in Hpage'. injection Hpage' as <- <-.
    split; [done|]. split; [done|].
    eexists _, _. split; [done|]. simpl.
    split; [by rewrite insert_empty|]. split; [done|]. split; [done|].
    by rewrite lookup_insert_eq.
  - assert (en ≠ all_enabled) as Hen by (intros ->; discriminate Hall).
    split; [split; [done | by intros (? & ? & ? & ? & _ & _ & _ & ?)]|].
    split; [done|]. by intros.
Qed.

(** ** The DOM inspection tools *)

(** X17. [list_electron_targets] never touches the client of the module:
    its map, host and port and the connection objects are as before.  It
    lists on the client of the module unless a host that is not empty or a
    port that is not [0] is given; then it lists on a new client that takes
    the given values, "localhost" for a missing host and 9222 for a missing
    port. *)
Theorem listElectronTargets_client (h : option string) (p : option Z)
    (reply : outcome (list CDPTarget)) (st : state) :
  let run := dom_tools.listElectronTargets h p reply st in
  this run.2 = this st ∧ objects run.2 = objects st ∧
  (dom_tools.custom_client h p = None ↔
   (h = None ∨ h = Some EmptyString) ∧ (p = None ∨ p = Some 0%Z)) ∧
  calls run.2
  = calls st
    ++ [match dom_tools.custom_client h p with
        | Some _ => CDP_List (default "localhost" h) (default 9222%Z p)
        | None => CDP_List (host (this st)) (port (this st))
        end].
Proof.
  intros run. subst run.
  assert (dom_tools.custom_client h p = None ↔
          (h = None ∨ h = Some EmptyString) ∧ (p = None ∨ p = Some 0%Z))
    as Hcustom.
  { unfold dom_tools.custom_client.
    destruct (bool_decide (truthy h ≠ None)
              || bool_decide (p ≠ None ∧ p ≠ Some 0%Z)) eqn:Hor.
    - split; [done|]. intros [Hh Hp].
      apply orb_true_iff in Hor as [H1|H2].
      + apply bool_decide_eq_true in H1. by destruct Hh as [-> | ->].
      + apply bool_decide_eq_true in H2 as [H2 H3].
        by destruct Hp as [-> | ->].
    - split; [|done]. intros _.
      apply orb_false_elim in Hor as [H1 H2].
      apply bool_decide_eq_false in H1, H2. split.
      + destruct h as [s|]; [|by left]. right. unfold truthy in H1.
        destruct (decide (s = EmptyString)) as [->|]; [done|]. by destruct H1.
      + destruct p as [z|]; [|by left]. right.
        destruct (decide (z = 0%Z)) as [->|]; [done|].
        destruct H2. split; congruence. }
  unfold dom_tools.listElectronTargets.
  destruct (dom_tools.custom_client h p) as [cl|] eqn:Hcl.
  - assert (cl = new_CDPClient (default "localhost" h) (default 9222%Z p))
      as ->.
    { unfold dom_tools.custom_client in Hcl.
      destruct (_ || _); congruence. }
    by destruct reply.
  - destruct reply as [targets|e]; [by rewrite listTargets_fulfilled | done].
Qed.

(** X18. The text of a failed tool call gives the message of the
    [CDPError] only.  On a connected session, whatever error the library
    rejects with, and whatever exception the evaluated code throws, the
    result of [get_dom_tree], [execute_javascript] and
    [take_electron_screenshot] is the same error text; so is that of
    [connect_to_electron_target] when the channel cannot be opened.  The
    cause is in the details of the error, which the tools do not show. *)
Theorem tool_errors_hide_cause (t : string) (st : state) (r : ref)
    (conn : CDPConnection) :
  connections_get t st = Some (r, conn) → connected conn = true →
  (∀ depth e, (dom_tools.getDOMTree t depth (Rejected e) st).1
              = error_text ("Failed to get document for target " +:+ t)) ∧
  (∀ code e, (dom_tools.executeJavaScript t code (Rejected e) st).1
             = error_text "Failed to evaluate JavaScript") ∧
  (∀ code v d,
     (dom_tools.executeJavaScript t code
        (Fulfilled {| result_value := v; exceptionDetails := Some d |}) st).1
     = error_text "Failed to evaluate JavaScript") ∧
  (∀ f q e, (dom_tools.takeScreenshot t f q (Rejected e) st).1
            = error_text "Failed to capture screenshot") ∧
  (∀ t' e en, isConnected t' st = false →
              (dom_tools.connectToTarget t' (Rejected e) en st).1
              = error_text ("Failed to connect to target " +:+ t')).
Proof.
  intros Hget Hc. repeat split; intros.
  - unfold dom_tools.getDOMTree, getDocument. by run_connected Hget Hc.
  - unfold dom_tools.executeJavaScript, evaluate. by run_connected Hget Hc.
  - unfold dom_tools.executeJavaScript, evaluate. by run_connected Hget Hc.
  - unfold dom_tools.takeScreenshot, screenshot. by run_connected Hget Hc.
  - unfold dom_tools.connectToTarget, connect.
    by rewrite connect_call_not_connected.
Qed.

Lemma tool_errors_hide_cause_witness :
  (dom_tools.executeJavaScript "A" "null.x" null_x_threw connected_A).1
  = error_text "Failed to evaluate JavaScript".
Proof.
  pose proof (tool_errors_hide_cause "A" connected_A 0 session_A
                eq_refl eq_refl) as (_ & _ & H & _).
  apply H.
Defined.





(** Three euro signs are nine bytes and three code units; a cut in the
    middle of an emoji (U+1F600, code units D83D DE00) leaves D83D. *)
Lemma substring_0_examples :
  substring_0 2 "€€€" = "€€" ∧ js_length "€€€" = 3 ∧
  String.length "€€€" = 9 ∧
  substring_0 3 "a😀b" = "a😀" ∧
  substring_0 2 "a😀b"
  = "a" +:+ String (Ascii.ascii_of_N 237) (String (Ascii.ascii_of_N 160)
              (String (Ascii.ascii_of_N 189) EmptyString)).
Proof. repeat split; reflexivity. Qed.

Lemma getNodeAttributes_connected_run (t : string) (n : Z)
    (reply : outcome (list string)) (st : state) (r : ref)
    (conn : CDPConnection) :
  connections_get t st = Some (r, conn) → connected conn = true →
  getNodeAttributes t n reply st
  = (node_attributes n reply,
     issue (Send (client conn) (DOM_getAttributes n)) st).
Proof.
  intros Hget Hc. unfold getNodeAttributes. run_connected Hget Hc.
  by destruct reply.
Qed.




Lemma issue_all_calls (cs : list call) (st : state) :
  calls (issue_all cs st) = calls st ++ cs.
Proof. done. Qed.

Lemma each_attributes_run (t : string) (ids : list Z)
    (attrs : nat → outcome (list string)) (i : nat) (st : state) (r : ref)
    (conn : CDPConnection) :
  connections_get t st = Some (r, conn) → connected conn = true →
  (dom_tools.each_attributes t ids attrs i st).2
  = issue_all (map (λ n, Send (client conn) (DOM_getAttributes n)) ids) st
  ∧ ((∀ k, k < length ids → ∃ a, attrs (i + k) = Fulfilled a) →
     ∃ details,
       Promise_all (dom_tools.each_attributes t ids attrs i st).1
       = Fulfilled details ∧ details.*1 = ids).
Proof.
  intros Hget Hc. revert i st Hget.
  induction ids as [|n ids IH]; intros i st Hget.
  - simpl. rewrite issue_all_nil. split; [done|]. intros _. by exists [].
  - simpl.
    rewrite (getNodeAttributes_connected_run t n (attrs i) st r conn)
      by done.
    destruct (IH (S i) (issue (Send (client conn) (DOM_getAttributes n)) st)
                Hget) as [IH1 IH2].
    destruct (dom_tools.each_attributes t ids attrs (S i)
                (issue (Send (client conn) (DOM_getAttributes n)) st))
      as [os st'].
    simpl in *. split; [by rewrite IH1, issue_all_cons|].
    intros Hall. destruct (Hall 0) as [a Ha]; [lia|].
    rewrite Nat.add_0_r in Ha. rewrite Ha. simpl.
    destruct IH2 as (details & -> & Hd).
    { intros k Hk. destruct (Hall (S k)) as [a' Ha']; [lia|].
      exists a'. by rewrite <- Ha', Nat.add_succ_r. }
    eexists. split; [done|]. by rewrite fmap_cons, Hd.
Qed.

(** X20. The [query_selector_all] tool on a connected session asks for
    the attributes of the first ten matches at most, one call per node and
    in their order, whatever the replies to these calls.  With no match the
    result is the text "No elements found matching selector: ..." and is not
    an error; when every attribute call succeeds the result counts all the
    matches and shows the first ten of them. *)
Theorem querySelectorAll_tool (t selector : string) (st : state) (r : ref)
    (conn : CDPConnection) (root : DOMNode) (found : option (list Z))
    (attrs : nat → outcome (list string)) :
  connections_get t st = Some (r, conn) → connected conn = true →
  let c := client conn in
  let ids := or_empty found in
  let run := dom_tools.querySelectorAll t selector (Fulfilled root)
               (Fulfilled found) attrs st in
  calls run.2
  = calls st ++ Send c (DOM_getDocument None)
    :: Send c (DOM_querySelectorAll (nodeId root) selector)
    :: map (λ n, Send c (DOM_getAttributes n)) (take 10 ids) ∧
  (ids = [] →
   run.1 = text_result
             (literal ("No elements found matching selector: "
                       +:+ selector))) ∧
  (ids ≠ [] →
   (∀ i, i < length (take 10 ids) → ∃ a, attrs i = Fulfilled a) →
   ∃ details,
     run.1 = text_result
               (JSON_stringify
                  (elements_json (length ids) (length ids `min` 10) details))
     ∧ details.*1 = take 10 ids).
Proof.
  intros Hget Hc c ids run. subst run.
  unfold dom_tools.querySelectorAll. unfold querySelectorAll.
  run_connected Hget Hc. fold ids. fold c.
  set (st2 := issue (Send c (DOM_querySelectorAll (nodeId root) selector))
                (issue (Send c (DOM_getDocument None)) st)).
  destruct (decide (length ids = 0)) as [Hlen|Hlen].
  - apply length_zero_iff_nil in Hlen. rewrite Hlen. simpl.
    split; [by rewrite <- app_assoc|]. split; [done|]. done.
  - destruct (each_attributes_run t (take 10 ids) attrs 0 st2 r conn Hget Hc)
      as [Hst Hall].
    destruct (dom_tools.each_attributes t (take 10 ids) attrs 0 st2)
      as [promises st3] eqn:Heach.
    simpl in Hst, Hall. split.
    { destruct (Promise_all promises); simpl; rewrite Hst, issue_all_calls;
        simpl; by rewrite <- !app_assoc. }
    split.
    { intros Hnil. rewrite Hnil in Hlen. done. }
    intros _ Hattrs. destruct (Hall Hattrs) as (details & -> & Hd).
    exists details. split; [|done]. simpl. do 3 f_equal.
    rewrite <- (length_fmap fst details), Hd, length_take. lia.
Qed.

Lemma querySelectorAll_tool_witness :
  calls (dom_tools.querySelectorAll "A" "li" (Fulfilled document_root)
           (Fulfilled (Some [2; 3; 4; 5; 6; 7; 8; 9; 10; 11; 12; 13]%Z))
           (λ _, Rejected (Error "node gone")) connected_A).2
  = calls connected_A
    ++ Send 1 (DOM_getDocument None) :: Send 1 (DOM_querySelectorAll 1 "li")
    :: map (λ n, Send 1 (DOM_getAttributes n))
         [2; 3; 4; 5; 6; 7; 8; 9; 10; 11]%Z.
Proof.
  apply (querySelectorAll_tool "A" "li" connected_A 0 session_A
           document_root
           (Some [2; 3; 4; 5; 6; 7; 8; 9; 10; 11; 12; 13]%Z)
           (λ _, Rejected (Error "node gone")) eq_refl eq_refl).
Defined.

(** X21. The [depth] argument of the [get_dom_tree] tool has no effect:
    for every two values of it the result and the state are the same, and on
    a connected session the call that is sent asks for the whole tree
    (depth [-1]). *)
Theorem getDOMTree_ignores_depth (t : string) (st : state) (r : ref)
    (conn : CDPConnection) (reply : outcome DOMNode) :
  connections_get t st = Some (r, conn) → connected conn = true →
  (∀ depth depth',
     dom_tools.getDOMTree t depth reply st
     = dom_tools.getDOMTree t depth' reply st) ∧
  (∀ depth,
     (dom_tools.getDOMTree t depth reply st).2
     = issue (Send (client conn) (DOM_getDocument (Some (-1)%Z))) st).
Proof.
  intros Hget Hc. split; [done|]. intros depth.
  unfold dom_tools.getDOMTree, getDocument. run_connected Hget Hc.
  by destruct reply.
Qed.

Lemma getDOMTree_ignores_depth_witness :
  (dom_tools.getDOMTree "A" (Some 2%Z) (Fulfilled document_root)
     connected_A).2
  = issue (Send 1 (DOM_getDocument (Some (-1)%Z))) connected_A.
Proof.
  apply (getDOMTree_ignores_depth "A" connected_A 0 session_A
           (Fulfilled document_root) eq_refl eq_refl).
Defined.

(** X22. The [take_electron_screenshot] tool on a connected session: the
    MIME type of the image it returns names the format that was asked of the
    protocol, "png" when none is given, and the quality is passed on as it
    is, for "png" as well. *)
Theorem takeScreenshot_format (t : string) (st : state) (r : ref)
    (conn : CDPConnection) (f : option image_format) (q : option Z)
    (data : string) :
  connections_get t st = Some (r, conn) → connected conn = true →
  ∃ sent,
    dom_tools.takeScreenshot t f q (Fulfilled data) st
    = ({| content := [image_content data
                        ("image/" +:+ dom_tools.format_name sent)];
          isError := None |},
       issue (Send (client conn) (Page_captureScreenshot sent q)) st) ∧
    (f = None → sent = png) ∧ (∀ g, f = Some g → sent = g).
Proof.
  intros Hget Hc. exists (default png f). split.
  - unfold dom_tools.takeScreenshot, screenshot. by run_connected Hget Hc.
  - split; [by intros -> | by intros g ->].
Qed.

Lemma takeScreenshot_format_witness :
  ∃ sent,
    dom_tools.takeScreenshot "A" (Some jpeg) (Some 80%Z)
      (Fulfilled "/9j/4AAQSkZJRg==") connected_A
    = ({| content := [image_content "/9j/4AAQSkZJRg=="
                        ("image/" +:+ dom_tools.format_name sent)];
          isError := None |},
       issue (Send 1 (Page_captureScreenshot sent (Some 80%Z))) connected_A)
    ∧ (Some jpeg = None → sent = png)
    ∧ (∀ g, Some jpeg = Some g → sent = g).
Proof.
  apply (takeScreenshot_format "A" connected_A 0 session_A (Some jpeg)
           (Some 80%Z) "/9j/4AAQSkZJRg==" eq_refl eq_refl).
Defined.

(** * Properties of the permissions manager *)

Lemma asked_calls_app (l1 l2 : list permissions.os_call) :
  asked_calls (l1 ++ l2) = asked_calls l1 ++ asked_calls l2.
Proof. unfold asked_calls. by rewrite omap_app. Qed.

Lemma status_queries_app (l1 l2 : list permissions.os_call) :
  status_queries (l1 ++ l2) = status_queries l1 ++ status_queries l2.
Proof. unfold status_queries. by rewrite omap_app. Qed.

Lemma checkPermission_status (type : permissions.PermissionType)
    (reply : outcome string) (log : list permissions.os_call) :
  (permissions.checkPermission type reply log).1 = status_of reply
  ∧ asked_calls (permissions.checkPermission type reply log).2
    = asked_calls log
  ∧ status_queries (permissions.checkPermission type reply log).2
    = status_queries log ++ [permissions.permissionMap type].
Proof.
  destruct reply; simpl; rewrite asked_calls_app, status_queries_app;
    simpl; by rewrite app_nil_r.
Qed.

(** X23. [requestPermission] asks the system at most once, and only for
    a permission whose status is not yet settled: when the status is
    "authorized", "denied" or "restricted" it returns that status and
    nothing is asked.  Otherwise, also when the status query fails, it asks
    with the function for this permission, once, and returns the status
    queried afterwards, or "denied" when the request fails. *)
Theorem requestPermission_asks_once (type : permissions.PermissionType)
    (current : outcome string) (asked : outcome unit)
    (after : outcome string) (log : list permissions.os_call) :
  let run := permissions.requestPermission type current asked after log in
  match settled_status current with
  | Some s => run.1 = s ∧ asked_calls run.2 = asked_calls log
  | None =>
      run.1 = match asked with
              | Fulfilled _ => status_of after
              | Rejected _ => "denied"
              end ∧
      asked_calls run.2 = asked_calls log ++ [permissions.ask_for type]
  end.
Proof.
  intros run. subst run. unfold permissions.requestPermission.
  destruct (checkPermission_status type current log) as (Hs & Ha & _).
  destruct (permissions.checkPermission type current log) as [s log1].
  simpl in Hs, Ha. subst s.
  assert (∀ f,
            (permissions.checkPermission type after
               (log1 ++ [permissions.asks f])).1 = status_of after
            ∧ asked_calls (permissions.checkPermission type after
                             (log1 ++ [permissions.asks f])).2
              = asked_calls log ++ [f]) as Hafter.
  { intros f. destruct (checkPermission_status type after
                          (log1 ++ [permissions.asks f])) as (-> & -> & _).
    by rewrite asked_calls_app, Ha. }
  assert (∀ f msg e,
            asked_calls (log1 ++ [permissions.asks f;
                                  permissions.console_error msg e])
            = asked_calls log ++ [f]) as Hfail.
  { intros f msg e. by rewrite asked_calls_app, Ha. }
  unfold settled_status. destruct current as [s|e]; simpl.
  - destruct (decide (s = "authorized")) as [->|H1].
    { by rewrite decide_True by by left. }
    destruct (decide (s = "denied" ∨ s = "restricted")) as [H2|H2].
    { by rewrite decide_True by by right. }
    rewrite decide_False by (intros [?|?]; [done | by destruct H2]).
    destruct asked as [[]|e']; [apply Hafter | split; [done | apply Hfail]].
  - destruct asked as [[]|e']; [apply Hafter | split; [done | apply Hfail]].
Qed.

Lemma Map_set_fresh {K V} `{EqDecision K} (k : K) (v : V)
    (m : list (K * V)) :
  k ∉ m.*1 → permissions.Map_set k v m = m ++ [(k, v)].
Proof.
  induction m as [|[k' v'] m IH]; intros Hk; [done|].
  rewrite fmap_cons in Hk. apply not_elem_of_cons in Hk as [Hne Hk]. simpl.
  rewrite decide_False by done. by rewrite IH.
Qed.

Lemma getPermissionInfo_run (type : permissions.PermissionType)
    (reply : outcome string) (log : list permissions.os_call) :
  permissions.getPermissionInfo type reply log
  = ({| permissions.type := type;
        permissions.status := status_of reply;
        permissions.canRequest :=
          bool_decide (status_of reply = "not-determined") |},
     (permissions.checkPermission type reply log).2).
Proof. by destruct reply. Qed.

Lemma permission_infos_keys (required : list permissions.PermissionType)
    (replies : nat → outcome string) (i : nat) :
  (permission_infos required replies i).*1 = required.
Proof.
  revert i. induction required as [|t required IH]; intros i; [done|].
  simpl. by rewrite IH.
Qed.

Lemma checkAllPermissions_loop_distinct
    (required : list permissions.PermissionType)
    (replies : nat → outcome string) (i : nat)
    (results : list (permissions.PermissionType * permissions.PermissionInfo))
    (log : list permissions.os_call) :
  NoDup required → (∀ t, t ∈ required → t ∉ results.*1) →
  (permissions.checkAllPermissions_loop required replies i results log).1
  = results ++ permission_infos required replies i
  ∧ status_queries
      (permissions.checkAllPermissions_loop required replies i results log).2
    = status_queries log ++ map permissions.permissionMap required.
Proof.
  revert i results log.
  induction required as [|t required IH]; intros i results log Hnd Hfresh.
  - simpl. by rewrite !app_nil_r.
  - apply NoDup_cons in Hnd as [Ht Hnd]. simpl.
    rewrite getPermissionInfo_run.
    rewrite Map_set_fresh by (apply Hfresh; by left).
    destruct (checkPermission_status t (replies i) log) as (_ & _ & Hq).
    destruct (IH (S i)
                (results ++
                 [(t, {| permissions.type := t;
                         permissions.status := status_of (replies i);
                         permissions.canRequest :=
                           bool_decide (status_of (replies i)
                                        = "not-determined") |})])
                (permissions.checkPermission t (replies i) log).2 Hnd)
      as [-> ->].
    { intros t' Ht'. rewrite fmap_app. simpl.
      intros [Hin|Hin]%elem_of_app.
      - by apply (Hfresh t'); [right|].
      - apply list_elem_of_singleton in Hin. by subst. }
    rewrite Hq, <- !app_assoc. done.
Qed.

Lemma status_of_authorized (reply : outcome string) :
  status_of reply = "authorized" ↔ reply = Fulfilled "authorized".
Proof.
  destruct reply as [s|e]; simpl; [|done]. split; [by intros -> | congruence].
Qed.

Lemma permission_infos_missing (required : list permissions.PermissionType)
    (replies : nat → outcome string) (i : nat) (t : permissions.PermissionType) :
  t ∈ (filter (λ p, permissions.status p.2 ≠ "authorized")
         (permission_infos required replies i)).*1
  ↔ ∃ k, required !! k = Some t ∧ replies (i + k) ≠ Fulfilled "authorized".
Proof.
  revert i. induction required as [|t' required IH]; intros i.
  - cbn [permission_infos]. rewrite filter_nil.
    split; [by intros ?%elem_of_nil|]. by intros (k & ? & _).
  - cbn [permission_infos]. rewrite filter_cons. cbn [snd permissions.status].
    assert ((∃ k, (t' :: required) !! k = Some t
                  ∧ replies (i + k) ≠ Fulfilled "authorized")
            ↔ (t' = t ∧ status_of (replies i) ≠ "authorized")
              ∨ ∃ k, required !! k = Some t
                     ∧ replies (S i + k) ≠ Fulfilled "authorized") as ->.
    { split.
      - intros ([|k] & Hk & Hr).
        + left. injection Hk as ->. split; [done|].
          rewrite Nat.add_0_r in Hr. by rewrite status_of_authorized.
        + right. exists k. split; [done|].
          by replace (S i + k) with (i + S k) by lia.
      - intros [[-> Hs]|(k & Hk & Hr)].
        + exists 0. split; [done|].
          rewrite Nat.add_0_r. by rewrite <- status_of_authorized.
        + exists (S k). split; [done|].
          by replace (i + S k) with (S i + k) by lia. }
    destruct (decide (status_of (replies i) ≠ "authorized")) as [Hs|Hs].
    + rewrite fmap_cons, elem_of_cons, IH. cbn [fst].
      split; (intros [H|H]; [left | by right]); [by split | by destruct H].
    + rewrite IH. split; [by right|]. by intros [[_ H]|H].
Qed.

(** X24. [verifyPermissions] on permissions that are all different makes
    one status query per permission, in their order.  [granted] is true
    exactly when every query answers "authorized", and [missing] holds
    exactly the permissions whose query answered something else or failed;
    [details] has one entry per permission, in the order of [required]. *)
Theorem verifyPermissions_granted (required : list permissions.PermissionType)
    (replies : nat → outcome string) (log : list permissions.os_call) :
  NoDup required →
  let run := permissions.verifyPermissions required replies log in
  (permissions.details run.1).*1 = required ∧
  (permissions.granted run.1 = true ↔
   ∀ i t, required !! i = Some t → replies i = Fulfilled "authorized") ∧
  (permissions.granted run.1 = true ↔ permissions.missing run.1 = []) ∧
  (∀ t, t ∈ permissions.missing run.1 ↔
        ∃ i, required !! i = Some t ∧ replies i ≠ Fulfilled "authorized") ∧
  status_queries run.2
  = status_queries log ++ map permissions.permissionMap required.
Proof.
  intros Hnd run. subst run.
  unfold permissions.verifyPermissions, permissions.checkAllPermissions.
  destruct (checkAllPermissions_loop_distinct required replies 0 [] log Hnd)
    as [Hd Hq].
  { intros t _. apply not_elem_of_nil. }
  destruct (permissions.checkAllPermissions_loop required replies 0 [] log)
    as [details log']. simpl in Hd, Hq. subst details. simpl.
  set (missing := (filter (λ p, permissions.status p.2 ≠ "authorized")
                     (permission_infos required replies 0)).*1).
  assert (∀ t, t ∈ missing ↔
               ∃ i, required !! i = Some t
                    ∧ replies i ≠ Fulfilled "authorized") as Hmissing.
  { intros t. apply (permission_infos_missing required replies 0 t). }
  assert (bool_decide (length missing = 0) = true ↔ missing = []) as Hnil.
  { rewrite bool_decide_eq_true. apply length_zero_iff_nil. }
  split; [apply permission_infos_keys|]. split; [|split; [done|by split]].
  rewrite Hnil. split.
  - intros Hm i t Hi.
    destruct (decide (status_of (replies i) = "authorized")) as [Hs|Hs];
      [by apply status_of_authorized|].
    assert (t ∈ missing) as Hin.
    { apply Hmissing. exists i. split; [done|].
      by rewrite <- status_of_authorized. }
    rewrite Hm in Hin. by apply elem_of_nil in Hin.
  - intros Hall. destruct missing as [|t rest] eqn:Hm; [done|].
    assert (t ∈ t :: rest) as Hin by by left.
    apply Hmissing in Hin as (i & Hi & Hr). destruct Hr. by eapply Hall.
Qed.

Lemma verifyPermissions_granted_witness :
  permissions.missing
    (permissions.verifyPermissions
       [permissions.accessibility; permissions.screen_capture]
       (λ i, if decide (i = 0) then Fulfilled "authorized"
             else Rejected (Error "no such permission"))
       []).1
  = [] ↔
  permissions.granted
    (permissions.verifyPermissions
       [permissions.accessibility; permissions.screen_capture]
       (λ i, if decide (i = 0) then Fulfilled "authorized"
             else Rejected (Error "no such permission"))
       []).1
  = true.
Proof.
  symmetry.
  apply (verifyPermissions_granted
           [permissions.accessibility; permissions.screen_capture]).
  compute_done.
Defined.

Section Map_set.
Context {K V : Type} `{EqDecision K}.

Lemma Map_set_keys (k : K) (v : V) (m : list (K * V)) :
  (permissions.Map_set k v m).*1
  = if decide (k ∈ m.*1) then m.*1 else m.*1 ++ [k].
Proof.
  induction m as [|[k' v'] m IH]; [done|]. simpl.
  destruct (decide (k = k')) as [->|Hne].
  - rewrite decide_True by by left. done.
  - rewrite fmap_cons, IH. simpl.
    destruct (decide (k ∈ m.*1)) as [Hin|Hnin].
    + rewrite decide_True by by right. done.
    + rewrite decide_False; [done|]. by intros [?|?]%elem_of_cons.
Qed.

Lemma Map_set_elem (k : K) (v : V) (m : list (K * V)) (t : K) (x : V) :
  NoDup m.*1 →
  (t, x) ∈ permissions.Map_set k v m
  ↔ (t = k ∧ x = v) ∨ (t ≠ k ∧ (t, x) ∈ m).
Proof.
  induction m as [|[k' v'] m IH]; intros Hnd.
  - simpl. rewrite list_elem_of_singleton. split.
    + intros [= -> ->]. by left.
    + intros [[-> ->]|[_ Hin]]; [done|]. by apply elem_of_nil in Hin.
  - rewrite fmap_cons in Hnd. apply NoDup_cons in Hnd as [Hk' Hnd]. simpl.
    destruct (decide (k = k')) as [<-|Hne].
    + rewrite !elem_of_cons. split.
      * intros [[= -> ->]|Hin]; [by left|]. right. split; [|by right].
        intros ->. apply Hk'. apply list_elem_of_fmap. by exists (k, x).
      * intros [[-> ->]|[Hne [[= -> ->]|Hin]]]; [by left | done | by right].
    + rewrite !elem_of_cons, IH by done. split.
      * intros [[= -> ->]|[[-> ->]|[Htk Hin]]].
        -- right. split; [by intros -> | by left].
        -- by left.
        -- right. split; [done | by right].
      * intros [[-> ->]|[Htk [[= -> ->]|Hin]]].
        -- right. by left.
        -- by left.
        -- right. right. by split.
Qed.

End Map_set.

Lemma checkAllPermissions_loop_entries
    (required : list permissions.PermissionType)
    (replies : nat → outcome string) (i : nat)
    (results : list (permissions.PermissionType * permissions.PermissionInfo))
    (log : list permissions.os_call) :
  NoDup results.*1 →
  let run := permissions.checkAllPermissions_loop required replies i results
               log in
  NoDup run.1.*1 ∧
  (∀ t, t ∈ run.1.*1 ↔ t ∈ results.*1 ∨ t ∈ required) ∧
  (∀ t info, (t, info) ∈ run.1 →
     ((t, info) ∈ results ∧ t ∉ required) ∨
     ∃ k, required !! k = Some t ∧ info = permission_info t (replies (i + k))
          ∧ ∀ j, k < j → required !! j ≠ Some t) ∧
  status_queries run.2
  = status_queries log ++ map permissions.permissionMap required.
Proof.
  revert i results log.
  induction required as [|t0 required IH]; intros i results log Hnd run;
    subst run.
  - simpl. split; [done|]. split.
    { intros t. split; [by left|]. intros [?|Hin]; [done|].
      by apply elem_of_nil in Hin. }
    split; [|by rewrite app_nil_r].
    intros t info Hin. left. split; [done | apply not_elem_of_nil].
  - simpl. rewrite getPermissionInfo_run.
    fold (permission_info t0 (replies i)).
    set (results' := permissions.Map_set t0 (permission_info t0 (replies i))
                       results).
    assert (NoDup results'.*1) as Hnd'.
    { unfold results'. rewrite Map_set_keys.
      destruct (decide (t0 ∈ results.*1)); [done|].
      apply NoDup_app. split; [done|]. split; [|apply NoDup_singleton].
      intros t Ht ->%list_elem_of_singleton. done. }
    assert (∀ t, t ∈ results'.*1 ↔ t ∈ results.*1 ∨ t = t0) as Hkeys.
    { intros t. unfold results'. rewrite Map_set_keys.
      destruct (decide (t0 ∈ results.*1)) as [Hin|Hnin].
      - split; [by left|]. by intros [?| ->].
      - rewrite elem_of_app, list_elem_of_singleton. done. }
    destruct (checkPermission_status t0 (replies i) log) as (_ & _ & Hq).
    destruct (IH (S i) results'
                (permissions.checkPermission t0 (replies i) log).2 Hnd')
      as (IH1 & IH2 & IH3 & IH4).
    split; [done|]. split.
    { intros t. rewrite IH2, Hkeys, elem_of_cons. tauto. }
    split.
    2:{ rewrite IH4, Hq, <- !app_assoc. done. }
    intros t info Hin. destruct (IH3 t info Hin) as [[Hres Hnin]|Hlater].
    + apply (Map_set_elem _ _ _ _ _ Hnd) in Hres as [[-> ->]|[Hne Hres]].
      * right. exists 0. rewrite Nat.add_0_r. split; [done|]. split; [done|].
        intros [|j] Hj; [lia|]. simpl. intros Hj'.
        apply Hnin. by eapply list_elem_of_lookup_2.
      * left. split; [done|]. by intros [?|?]%elem_of_cons.
    + destruct Hlater as (k & Hk & -> & Hlast). right. exists (S k).
      split; [done|]. split; [by replace (i + S k) with (S i + k) by lia|].
      intros [|j] Hj; [lia|]. simpl. apply Hlast. lia.
Qed.

(** X25. [checkAllPermissions] queries the status once for every element
    of [required], also for one that occurs again.  The map it returns has
    one entry for each permission that occurs in [required] and no other,
    and the entry of a permission holds the status of the last query for
    it. *)
Theorem checkAllPermissions_entries
    (required : list permissions.PermissionType)
    (replies : nat → outcome string) (log : list permissions.os_call) :
  let run := permissions.checkAllPermissions required replies log in
  NoDup run.1.*1 ∧
  (∀ t, t ∈ run.1.*1 ↔ t ∈ required) ∧
  (∀ t info, (t, info) ∈ run.1 →
     ∃ k, required !! k = Some t ∧ info = permission_info t (replies k)
          ∧ ∀ j, k < j → required !! j ≠ Some t) ∧
  status_queries run.2
  = status_queries log ++ map permissions.permissionMap required.
Proof.
  intros run. subst run. unfold permissions.checkAllPermissions.
  destruct (checkAllPermissions_loop_entries required replies 0 [] log)
    as (H1 & H2 & H3 & H4); [constructor|].
  split; [done|]. split.
  { intros t. rewrite H2. split; [|by right].
    intros [Hin|?]; [|done]. by apply elem_of_nil in Hin. }
  split; [|done].
  intros t info Hin. destruct (H3 t info Hin) as [[Hnil _]|Hk]; [|done].
  by apply elem_of_nil in Hnil.
Qed.

(** ** The accessibility manager *)

Lemma robot_log_app (l k : list accessibility.device_call) :
  robot_log (l ++ k) = robot_log l ++ robot_log k.
Proof.
  induction l as [|[c|c] l IH]; cbn; [reflexivity|exact IH|].
  f_equal. exact IH.
Qed.

Lemma robot_log_os (l : list permissions.os_call) :
  robot_log (accessibility.os_calls l) = [].
Proof. induction l as [|c l IH]; [reflexivity|exact IH]. Qed.

Lemma verifyPermissions_run (reply : outcome string)
    (log : list accessibility.device_call) :
  ∃ log',
    robot_log log' = robot_log log ∧
    accessibility.verifyPermissions reply log
    = (match reply with
       | Fulfilled s =>
           if decide (s = "authorized") then Fulfilled ()
           else Rejected denied_error
       | Rejected _ => Rejected denied_error
       end, log').
Proof.
  unfold accessibility.verifyPermissions, accessibility.checkPermission.
  destruct (permissions.checkPermission permissions.accessibility reply [])
    as [status calls] eqn:E.
  exists (log ++ accessibility.os_calls calls). split.
  { rewrite robot_log_app, robot_log_os. apply app_nil_r. }
  destruct reply as [s|e]; cbn in E; injection E as <- <-.
  - destruct (decide (s = "authorized")); reflexivity.
  - destruct (decide ("not-determined" = "authorized")) as [H|_];
      [discriminate H|reflexivity].
Qed.

Lemma guarded_denied (cs : list accessibility.robot_call) (msg : string)
    (status : outcome string) (replies : nat → outcome unit)
    (log : list accessibility.device_call) :
  status ≠ Fulfilled "authorized" →
  ∃ log',
    robot_log log' = robot_log log ∧
    accessibility.guarded cs msg status replies log
    = (Rejected denied_error, log').
Proof.
  intros Hs. unfold accessibility.guarded.
  destruct (verifyPermissions_run status log) as (log' & Hlog & ->).
  exists log'. split; [exact Hlog|].
  destruct status as [s|e]; [|reflexivity].
  destruct (decide (s = "authorized")) as [->|_]; [|reflexivity].
  contradiction Hs. reflexivity.
Qed.

Lemma guarded_authorized (cs : list accessibility.robot_call) (msg : string)
    (replies : nat → outcome unit) (log : list accessibility.device_call) :
  ∃ log',
    robot_log log' = robot_log log ∧
    accessibility.guarded cs msg (Fulfilled "authorized") replies log
    = match accessibility.robot_calls cs replies 0 log' with
      | (Fulfilled _, log) => (Fulfilled (), log)
      | (Rejected error, log) =>
          (Rejected (accessibility.AccessibilityError msg
                       (Some [originalError error])), log)
      end.
Proof.
  unfold accessibility.guarded.
  destruct (verifyPermissions_run (Fulfilled "authorized") log)
    as (log' & Hlog & ->).
  rewrite decide_True by reflexivity. exists log'.
  split; [exact Hlog|reflexivity].
Qed.

(** X26.  The permission gate of the accessibility manager: unless the
    status query returns ["authorized"] (a query that throws counts as
    ["not-determined"]), each of [moveMouse], [click], [doubleClick], [drag]
    and [typeText] is rejected with the AccessibilityError that carries the
    instructions for the accessibility permission and no details, and makes
    no call to robotjs. *)
Theorem unauthorized_makes_no_robot_call (op : device_operation)
    (status : outcome string) (replies : nat → outcome unit)
    (log : list accessibility.device_call) :
  status ≠ Fulfilled "authorized" →
  (run_device op status replies log).1
  = Rejected
      {| name := "AccessibilityError";
         message := "Accessibility permission not granted. "
                    +:+ instructions.getPermissionInstructions
                          permissions.accessibility;
         code := Some "ACCESSIBILITY_ERROR";
         details := None |} ∧
  robot_log (run_device op status replies log).2 = robot_log log.
Proof.
  intros Hs.
  destruct op; cbn [run_device];
    unfold accessibility.moveMouse_, accessibility.click,
      accessibility.doubleClick, accessibility.drag, accessibility.typeText;
    match goal with
    | |- context [accessibility.guarded ?cs ?msg status replies log] =>
        destruct (guarded_denied cs msg status replies log Hs)
          as (log' & Hlog & ->)
    end; (split; [reflexivity|exact Hlog]).
Qed.

Lemma unauthorized_makes_no_robot_call_witness :
  (run_device (do_drag 1 2 3 4) (Fulfilled "denied")
     (λ _, Fulfilled ()) []).1
  = Rejected
      {| name := "AccessibilityError";
         message := "Accessibility permission not granted. "
                    +:+ instructions.getPermissionInstructions
                          permissions.accessibility;
         code := Some "ACCESSIBILITY_ERROR";
         details := None |} ∧
  robot_log (run_device (do_drag 1 2 3 4) (Fulfilled "denied")
               (λ _, Fulfilled ()) []).2 = robot_log [].
Proof.
  apply (unauthorized_makes_no_robot_call (do_drag 1 2 3 4)
           (Fulfilled "denied") (λ _, Fulfilled ()) []).
  discriminate.
Defined.

(** X27.  With the permission granted, [drag] presses the button only after
    the move returned, and a button it pressed is released exactly when
    [robot.dragMouse] returned: when [dragMouse] throws, the [catch] block
    rejects and [mouseToggle('up')] is never called. *)
Theorem drag_releases_iff_dragged (fromX fromY toX toY : Z)
    (replies : nat → outcome unit) (log : list accessibility.device_call) :
  let calls :=
    robot_log (accessibility.drag fromX fromY toX toY
                 (Fulfilled "authorized") replies log).2 in
  ∃ new,
    calls = robot_log log ++ new ∧
    (accessibility.mouseToggle true ∈ new ↔ ∃ u, replies 0 = Fulfilled u) ∧
    (accessibility.mouseToggle true ∈ new →
     accessibility.mouseToggle false ∈ new
     ↔ (∃ u, replies 1 = Fulfilled u) ∧ ∃ u, replies 2 = Fulfilled u).
Proof.
  cbn zeta. unfold accessibility.drag.
  destruct (guarded_authorized
              [accessibility.moveMouse fromX fromY;
               accessibility.mouseToggle true;
               accessibility.dragMouse toX toY;
               accessibility.mouseToggle false]
              ("Failed to drag from (" +:+ pretty fromX +:+ ", "
               +:+ pretty fromY +:+ ") to (" +:+ pretty toX +:+ ", "
               +:+ pretty toY +:+ ")") replies log) as (log' & Hlog & ->).
  cbn [accessibility.robot_calls].
  destruct (replies 0) as [[]|e0].
  2:{ exists [accessibility.moveMouse fromX fromY].
      cbn [snd]. rewrite robot_log_app, Hlog. split; [reflexivity|].
      split.
      - split; [intros H%list_elem_of_singleton; discriminate H|].
        intros [u Hu]. discriminate Hu.
      - intros H%list_elem_of_singleton. discriminate H. }
  destruct (replies 1) as [[]|e1].
  2:{ exists [accessibility.moveMouse fromX fromY;
              accessibility.mouseToggle true].
      cbn [snd]. rewrite !robot_log_app, Hlog, <- app_assoc.
      split; [reflexivity|]. split.
      - split; [eauto|]. intros _. apply list_elem_of_further, list_elem_of_here.
      - intros _. split.
        + intros H. apply elem_of_cons in H as [H|H]; [discriminate H|].
          apply list_elem_of_singleton in H. discriminate H.
        + intros [[u Hu] _]. discriminate Hu. }
  destruct (replies 2) as [[]|e2].
  2:{ exists [accessibility.moveMouse fromX fromY;
              accessibility.mouseToggle true;
              accessibility.dragMouse toX toY].
      cbn [snd]. rewrite !robot_log_app, Hlog, <- !app_assoc.
      split; [reflexivity|]. split.
      - split; [eauto|]. intros _. apply list_elem_of_further, list_elem_of_here.
      - intros _. split.
        + intros H. apply elem_of_cons in H as [H|H]; [discriminate H|].
          apply elem_of_cons in H as [H|H]; [discriminate H|].
          apply list_elem_of_singleton in H. discriminate H.
        + intros [_ [u Hu]]. discriminate Hu. }
  exists [accessibility.moveMouse fromX fromY;
          accessibility.mouseToggle true;
          accessibility.dragMouse toX toY;
          accessibility.mouseToggle false].
  assert (∀ o : outcome unit * list accessibility.device_call,
            (match o with
             | (Fulfilled _, l) => (Fulfilled (), l)
             | (Rejected error, l) =>
                 (Rejected (accessibility.AccessibilityError
                    ("Failed to drag from (" +:+ pretty fromX +:+ ", "
                     +:+ pretty fromY +:+ ") to (" +:+ pretty toX +:+ ", "
                     +:+ pretty toY +:+ ")")
                    (Some [originalError error])), l)
             end).2 = o.2) as Hsnd by (intros [[]]; reflexivity).
  rewrite Hsnd. clear Hsnd.
  destruct (replies 3) as [[]|e3]; cbn [snd];
    rewrite !robot_log_app, Hlog, <- !app_assoc;
    (split; [reflexivity|]); (split; [split; [eauto|]|]);
    try (intros _; apply list_elem_of_further, list_elem_of_here);
    (intros _; split; [eauto|intros _;
       do 3 apply list_elem_of_further; apply list_elem_of_here]).
Qed.

(** X28.  With the permission granted, [click] called with only one of the
    two coordinates (or none) does not move the pointer: its one call to
    robotjs is [mouseClick(button)], at the current position.  It is
    fulfilled exactly when that call returned; when the call throws, the
    message of the rejection prints the missing coordinate as
    [undefined]. *)
Theorem click_without_both_coordinates (x y : option Z)
    (b : accessibility.button) (replies : nat → outcome unit)
    (log : list accessibility.device_call) :
  x = None ∨ y = None →
  let r := accessibility.click x y b (Fulfilled "authorized") replies log in
  robot_log r.2 = robot_log log ++ [accessibility.mouseClick b None] ∧
  (r.1 = Fulfilled () ↔ ∃ u, replies 0 = Fulfilled u) ∧
  ∀ error, replies 0 = Rejected error →
    r.1 = Rejected
            {| name := "AccessibilityError";
               message := "Failed to click at (" +:+ accessibility.show x
                          +:+ ", " +:+ accessibility.show y +:+ ")";
               code := Some "ACCESSIBILITY_ERROR";
               details := Some [("originalError",
                                 DString (message error))] |}.
Proof.
  intros Hxy. cbn zeta. unfold accessibility.click.
  assert (match x, y with
          | Some x, Some y => [accessibility.moveMouse x y]
          | _, _ => []
          end = []) as -> by (destruct Hxy as [-> | ->]; [|destruct x]; reflexivity).
  rewrite app_nil_l.
  destruct (guarded_authorized [accessibility.mouseClick b None]
              ("Failed to click at (" +:+ accessibility.show x +:+ ", "
               +:+ accessibility.show y +:+ ")") replies log)
    as (log' & Hlog & ->).
  cbn [accessibility.robot_calls].
  destruct (replies 0) as [[]|e0]; cbn [fst snd];
    rewrite robot_log_app, Hlog; (split; [reflexivity|]); split.
  - split; eauto.
  - intros error H. discriminate H.
  - split; [intros H; discriminate H|intros [u Hu]; discriminate Hu].
  - intros error [= <-]. reflexivity.
Qed.

Lemma click_without_both_coordinates_witness :
  let r := accessibility.click (Some 5%Z) None accessibility.button_left
             (Fulfilled "authorized") robot_throws [] in
  robot_log r.2
  = robot_log [] ++ [accessibility.mouseClick accessibility.button_left None] ∧
  (r.1 = Fulfilled () ↔ ∃ u, robot_throws 0%nat = Fulfilled u) ∧
  ∀ error,
    robot_throws 0%nat = Rejected error →
    r.1 = Rejected
            {| name := "AccessibilityError";
               message := "Failed to click at ("
                          +:+ accessibility.show (Some 5%Z)
                          +:+ ", " +:+ accessibility.show None +:+ ")";
               code := Some "ACCESSIBILITY_ERROR";
               details := Some [("originalError",
                                 DString (message error))] |}.
Proof.
  apply (click_without_both_coordinates (Some 5%Z) None
           accessibility.button_left robot_throws []).
  right. reflexivity.
Defined.

Lemma drag_releases_iff_dragged_witness :
  let calls :=
    robot_log (accessibility.drag 1 2 3 4
                 (Fulfilled "authorized") robot_throws []).2 in
  ∃ new,
    calls = robot_log [] ++ new ∧
    (accessibility.mouseToggle true ∈ new
     ↔ ∃ u, robot_throws 0%nat = Fulfilled u) ∧
    (accessibility.mouseToggle true ∈ new →
     accessibility.mouseToggle false ∈ new
     ↔ (∃ u, robot_throws 1%nat = Fulfilled u)
       ∧ ∃ u, robot_throws 2%nat = Fulfilled u).
Proof. exact (drag_releases_iff_dragged 1 2 3 4 robot_throws []). Defined.
